(** * Verification of the quote matcher, segment normalizer and verified
      clip extraction of [scripts/processors/youtube_processor.py] and
      [scripts/main.py], and of the post generation of
      [scripts/models/llm_manager.py].

    Python strings are modelled as [list ascii] (ASCII subset of [str]);
    Python floats as exact rationals [Q]; Python exceptions as the
    constructors of [py_exn] threaded through the result type [res]
    ([gen_exn] and [gres] for the post generation). *)

From Stdlib Require Import String.
From Stdlib Require Import List Bool Arith Lia QArith Qminmax Ascii.
From Stdlib Require Import Lqa Sorting.Sorted.
Import ListNotations.
Open Scope nat_scope.
Open Scope list_scope.

Definition str := list ascii.

(** String literals. *)
Definition lit (x : String.string) : str := String.list_ascii_of_string x.

(* ------------------------------------------------------------------ *)
(** ** Python exceptions and results *)

Inductive py_exn :=
| ZeroDivisionError
| RuntimeError (msg : str)
| OSError.

Inductive res (A : Type) :=
| Ok (a : A)
| Err (e : py_exn).
Arguments Ok {A} a.
Arguments Err {A} e.

Definition bind {A B} (m : res A) (f : A -> res B) : res B :=
  match m with Ok a => f a | Err e => Err e end.

Notation "'let*' x := m 'in' f" := (bind m (fun x => f))
  (at level 200, x name, m at level 100, f at level 200).

(** Python's [a < b] on numbers. *)
Definition Qlt_bool (a b : Q) : bool := negb (Qle_bool b a).

(** Python's [a / b] on numbers: [ZeroDivisionError] when [b = 0]. *)
Definition py_div (a b : Q) : res Q :=
  if Qeq_bool b 0 then Err ZeroDivisionError else Ok (a / b)%Q.

(* ------------------------------------------------------------------ *)
(** ** Characters and [str] methods *)

Definition code (c : ascii) : nat := nat_of_ascii c.

(** [str.isspace] / regex [\s] on ASCII characters. *)
Definition is_space (c : ascii) : bool :=
  let n := code c in
  (n =? 32) || ((9 <=? n) && (n <=? 13)) || ((28 <=? n) && (n <=? 31)).

(** Regex [\w] on ASCII characters. *)
Definition is_word (c : ascii) : bool :=
  let n := code c in
  ((97 <=? n) && (n <=? 122)) || ((65 <=? n) && (n <=? 90))
  || ((48 <=? n) && (n <=? 57)) || (n =? 95).

(** [str.lower] on ASCII characters. *)
Definition lower_char (c : ascii) : ascii :=
  let n := code c in
  if (65 <=? n) && (n <=? 90) then ascii_of_nat (n + 32) else c.

Definition lower (s : str) : str := map lower_char s.

Fixpoint lstrip (s : str) : str :=
  match s with
  | [] => []
  | c :: s' => if is_space c then lstrip s' else s
  end.

Definition rstrip (s : str) : str := rev (lstrip (rev s)).

(** [str.strip()] *)
Definition strip (s : str) : str := rstrip (lstrip s).

(** [str.split()] with no separator: runs of whitespace separate words,
    empty words are dropped. *)
Fixpoint split_aux (cur : str) (s : str) : list str :=
  match s with
  | [] => match cur with [] => [] | _ => [rev cur] end
  | c :: s' =>
      if is_space c
      then match cur with
           | [] => split_aux [] s'
           | _ => rev cur :: split_aux [] s'
           end
      else split_aux (c :: cur) s'
  end.

Definition split (s : str) : list str := split_aux [] s.

(** [sep.join(xs)] *)
Fixpoint join (sep : str) (xs : list str) : str :=
  match xs with
  | [] => []
  | [x] => x
  | x :: xs' => x ++ sep ++ join sep xs'
  end.

Fixpoint is_prefix (p s : str) : bool :=
  match p, s with
  | [], _ => true
  | _ :: _, [] => false
  | a :: p', b :: s' => Ascii.eqb a b && is_prefix p' s'
  end.

(** [p in s] for strings. *)
Fixpoint contains (p s : str) : bool :=
  is_prefix p s || match s with [] => false | _ :: s' => contains p s' end.

(** [x in xs] for a list of strings. *)
Definition mem (x : str) (xs : list str) : bool :=
  existsb (fun y => if list_eq_dec ascii_dec x y then true else false) xs.

(** [set(xs)]: the distinct elements (their order is irrelevant to the
    sizes computed below). *)
Fixpoint dedup (xs : list str) : list str :=
  match xs with
  | [] => []
  | x :: xs' => if mem x xs' then dedup xs' else x :: dedup xs'
  end.

Definition Qlen {A} (xs : list A) : Q := inject_Z (Z.of_nat (length xs)).

(* ------------------------------------------------------------------ *)
(** ** Segments *)

(** A transcript segment [{"start": .., "end": .., "text": ..}]. *)
Record segment := mkseg { start : Q; end_ : Q; text : str }.

(* ------------------------------------------------------------------ *)
(** ** [DebuggingQuoteMatcher] *)

(** [normalize_text] *)
Definition normalize_text (t : str) : str :=
  match t with
  | [] => []
  | _ =>
      let t1 := strip (lower t) in
      let t2 := map (fun c => if is_word c || is_space c
                                 || Ascii.eqb c "'"%char then c else " "%char) t1 in
      (* re.sub(r"\s+", " ", text) *)
      let fix collapse (prev : bool) (s : str) : str :=
        match s with
        | [] => []
        | c :: s' =>
            if is_space c
            then (if prev then collapse true s' else " "%char :: collapse true s')
            else c :: collapse false s'
        end in
      strip (collapse false t2)
  end.

Definition stop_words : list str :=
  map lit
  ["the"; "and"; "or"; "but"; "in"; "on"; "at"; "to"; "for"; "of"; "with";
   "by"; "from"; "up"; "about"; "into"; "through"; "during"; "before";
   "after"; "above"; "below"; "between"; "among"; "is"; "are"; "was";
   "were"; "be"; "been"; "being"; "have"; "has"; "had"; "do"; "does";
   "did"; "will"; "would"; "should"; "could"; "can"; "may"; "might";
   "must"; "shall"; "this"; "that"; "these"; "those"; "i"; "you"; "he";
   "she"; "it"; "we"; "they"; "me"; "him"; "her"; "us"; "them"; "my";
   "your"; "his"; "her"; "its"; "our"; "their"; "a"; "an"]%string.

(** [extract_keywords] with [min_length = 3] *)
Definition extract_keywords (t : str) : list str :=
  filter (fun w => (3 <=? length w) && negb (mem w stop_words))
         (split (normalize_text t)).

(** [word_overlap_score] *)
Definition word_overlap_score (text1 text2 : str) : Q :=
  let words1 := dedup (split (normalize_text text1)) in
  let words2 := dedup (split (normalize_text text2)) in
  match words1, words2 with
  | [], _ | _, [] => 0%Q
  | _, _ =>
      let intersection := filter (fun w => mem w words2) words1 in
      let union := dedup (words1 ++ words2) in
      let jaccard := (Qlen intersection / Qlen union)%Q in
      let quote_coverage := (Qlen intersection / Qlen words1)%Q in
      ((4#10) * jaccard + (6#10) * quote_coverage)%Q
  end.

(** [keyword_match_score] *)
Definition keyword_match_score (quote t : str) : Q :=
  let quote_keywords := extract_keywords quote in
  let text_keywords := extract_keywords t in
  match quote_keywords with
  | [] => 0%Q
  | _ =>
      let matches := filter (fun kw => mem kw text_keywords) quote_keywords in
      (Qlen matches / Qlen quote_keywords)%Q
  end.

Record scores := mkscores { sequence : Q; word_overlap : Q; keyword_match : Q }.

(** The candidate of the best match: (start, end, matched text). *)
Definition match_result := option (Q * Q * str).

Section Matcher.

(** [sequence_similarity]: rapidfuzz's [fuzz.ratio / 100] when rapidfuzz
    is installed, difflib's [SequenceMatcher.ratio()] otherwise; the
    matcher is defined for either. *)
Variable sequence_similarity : str -> str -> Q.

(** [_calculate_all_scores] *)
Definition calculate_all_scores (quote t : str) : scores :=
  let normalized_quote := normalize_text quote in
  let normalized_text := normalize_text t in
  mkscores (sequence_similarity normalized_quote normalized_text)
           (word_overlap_score quote t)
           (keyword_match_score quote t).

(** [_find_exact_substring] *)
Fixpoint find_exact_substring (segments : list segment) (quote : str)
         (context_padding : Q) : match_result :=
  let normalized_quote := lower (normalize_text quote) in
  match segments with
  | [] => None
  | seg :: rest =>
      let t := lower (normalize_text (text seg)) in
      if contains normalized_quote t
      then Some (Qmax 0 (start seg - context_padding)%Q,
                 (end_ seg + context_padding)%Q, text seg)
      else find_exact_substring rest quote context_padding
  end.

(** One window [segments[start_idx:start_idx + window_size]]. *)
Definition window (segments : list segment) (window_size start_idx : nat)
  : list segment :=
  firstn window_size (skipn start_idx segments).

(** The iteration order of the two nested loops of [find_best_match]. *)
Definition candidates (n : nat) : list (nat * nat) :=
  let window_sizes := filter (fun w => w <=? n) [1; 2; 3; 5; 8] in
  flat_map (fun w => map (fun i => (w, i)) (seq 0 (n - w + 1))) window_sizes.

(** The score of a window: [None] when the loop [continue]s. *)
Definition window_score (quote : str) (quote_word_count : nat)
           (window_segments : list segment) : res (option Q) :=
  let combined_text := join (lit " ") (map text window_segments) in
  match strip combined_text with
  | [] => Ok None
  | _ =>
      let sc := calculate_all_scores quote combined_text in
      let final_score := ((3#10) * sequence sc + (4#10) * word_overlap sc
                         + (3#10) * keyword_match sc)%Q in
      let text_word_count := Qlen (split (normalize_text combined_text)) in
      let qwc := inject_Z (Z.of_nat quote_word_count) in
      let* length_bonus :=
        (if 0 <? quote_word_count then
           let* r1 := py_div text_word_count qwc in
           let* r2 := py_div qwc text_word_count in
           let length_ratio := Qmin r1 r2 in
           Ok (1 + (2#10) * Qmax 0 (length_ratio - (1#2)))%Q
         else Ok 1%Q) in
      Ok (Some (final_score * length_bonus)%Q)
  end.

(** One iteration of the loop body: [(best_score, best_match)]. *)
Definition search_step (segments : list segment) (quote : str)
           (quote_word_count : nat) (st : res (Q * match_result))
           (cand : nat * nat) : res (Q * match_result) :=
  let* st := st in
  let (best_score, best_match) := st in
  let (window_size, start_idx) := cand in
  let window_segments := window segments window_size start_idx in
  let* sc := window_score quote quote_word_count window_segments in
  match sc with
  | None => Ok (best_score, best_match)
  | Some adjusted_score =>
      if Qlt_bool best_score adjusted_score then
        match window_segments with
        | [] => Ok (best_score, best_match)
        | first :: _ =>
            let last_seg := last window_segments first in
            let combined_text := join (lit " ") (map text window_segments) in
            Ok (adjusted_score,
                Some (start first, end_ last_seg, strip combined_text))
        end
      else Ok (best_score, best_match)
  end.

Definition search (segments : list segment) (quote : str)
           (quote_word_count : nat) : res (Q * match_result) :=
  fold_left (search_step segments quote quote_word_count)
            (candidates (length segments)) (Ok (0%Q, None)).

(** [min_threshold] *)
Definition min_threshold (quote_word_count : nat) : Q :=
  if quote_word_count <=? 5 then (1#2)
  else if quote_word_count <=? 10 then (4#10) else (35#100).

(** Context padding applied to an accepted window. *)
Definition padded_start_of (raw_start context_padding : Q) : Q :=
  if Qlt_bool context_padding raw_start
  then Qmax 0 (raw_start - context_padding)%Q else raw_start.

(** The acceptance step after the search loop of [find_best_match]. *)
Definition accept_match (quote_word_count : nat) (context_padding : Q)
           (st : Q * match_result) : match_result :=
  let (best_score, best_match) := st in
  match best_match with
  | Some (raw_start, raw_end, matched) =>
      if Qle_bool (min_threshold quote_word_count) best_score then
        Some (padded_start_of raw_start context_padding,
              (raw_end + context_padding)%Q, matched)
      else None
  | None => None
  end.

(** [find_best_match]; [max_window] is accepted and unused, as in the
    source. *)
Definition find_best_match (segments : list segment) (quote : str)
           (max_window : Q) (context_padding : Q) : res match_result :=
  match quote, segments with
  | [], _ | _, [] => Ok None
  | _, _ =>
      let normalized_quote := normalize_text quote in
      let quote_words := split normalized_quote in
      if length quote_words <? 2 then
        Ok (find_exact_substring segments quote context_padding)
      else
        let* st := search segments quote (length quote_words) in
        Ok (accept_match (length quote_words) context_padding st)
  end.

(** [YouTubeProcessor.find_quote_timestamps]: [window] is passed as
    [max_window]; [threshold] is not passed on. *)
Definition yt_find_quote_timestamps (segments : list segment) (quote : str)
           (window_ threshold context_padding : Q) : res match_result :=
  find_best_match segments quote window_ context_padding.

(** [main.find_quote_timestamps] with its defaults
    [window=20, threshold=0.65, context_padding=2.0]. *)
Definition find_quote_timestamps_with (segments : list segment) (quote : str)
           (window_ threshold context_padding : Q) : res match_result :=
  yt_find_quote_timestamps segments quote window_ threshold context_padding.

Definition find_quote_timestamps (segments : list segment) (quote : str)
  : res match_result :=
  find_quote_timestamps_with segments quote 20%Q (65#100) 2%Q.

End Matcher.

(** rapidfuzz's [fuzz.ratio(a, b) / 100]: the normalized Indel
    similarity [2 * LCS(a, b) / (|a| + |b|)], and [1] for two empty
    strings. *)
Fixpoint lcs_next_row (c : ascii) (b : str) (prev : list nat) (left : nat)
  : list nat :=
  match b, prev with
  | bj :: b', pj :: ((pj1 :: _) as prev') =>
      let v := if ascii_dec c bj then S pj else Nat.max pj1 left in
      v :: lcs_next_row c b' prev' v
  | _, _ => []
  end.

Definition lcs (a b : str) : nat :=
  last (fold_left (fun row c => 0 :: lcs_next_row c b row 0) a
                  (repeat 0 (S (length b)))) 0.

Definition indel_ratio (a b : str) : Q :=
  match (length a + length b)%nat with
  | O => 1%Q
  | n => (inject_Z (Z.of_nat (2 * lcs a b)) / inject_Z (Z.of_nat n))%Q
  end.

Definition fox_segments : list segment :=
  [mkseg 0%Q 1%Q (lit "The quick brown fox");
   mkseg 1%Q 2%Q (lit "jumps over the lazy dog")].

Definition fox_segments3 : list segment :=
  fox_segments ++ [mkseg 2%Q 3%Q (lit "and runs away")].

Definition fox_quote : str := lit "quick brown fox jumps over the lazy dog".

(** The two factors of a window's score besides the sequence
    similarity: the word-overlap and keyword terms, and the length bonus. *)
Definition rest_of (quote t : str) : Q :=
  ((4#10) * word_overlap_score quote t + (3#10) * keyword_match_score quote t)%Q.

Definition length_bonus_of (quote_word_count text_word_count : nat) : Q :=
  let qwc := inject_Z (Z.of_nat quote_word_count) in
  let twc := inject_Z (Z.of_nat text_word_count) in
  (1 + (2#10) * Qmax 0 (Qmin (twc / qwc) (qwc / twc) - (1#2)))%Q.

(* ------------------------------------------------------------------ *)
(** ** [YouTubeProcessor.merge_short_segments] *)

(** [current_chunk] *)
Record chunk := mkchunk { c_start : Q; c_end : Q; c_text : str; c_count : nat }.

(** [text[-n:]] and [text[:n]] *)
Definition py_suffix (n : nat) (t : str) : str := skipn (length t - n) t.
Definition py_prefix (n : nat) (t : str) : str := firstn n t.

(** ['-', '•', '—'] (the last two as their UTF-8 bytes) *)
Definition dash_marks : list str :=
  [lit "-"; [ascii_of_nat 226; ascii_of_nat 128; ascii_of_nat 162];
   [ascii_of_nat 226; ascii_of_nat 128; ascii_of_nat 148]].

Definition transition_phrases : list str :=
  map lit ["so "; "now "; "but "; "and so"; "okay"; "alright"]%string.

(** The natural breaks of the chunking loop: sentence punctuation in the
    last 10 characters of the chunk, a dash at the start of the new text,
    a transition phrase in its first 20 characters. *)
Definition natural_break (chunk_text t : str) : bool :=
  existsb (fun p => contains [p] (py_suffix 10 chunk_text)) ["."; "!"; "?"]%char
  || existsb (fun d => is_prefix d t) dash_marks
  || existsb (fun ph => contains ph (py_prefix 20 (lower t))) transition_phrases.

(** [should_extend] for a new segment ending at [end_time] with text [t]. *)
Definition should_extend (min_duration max_duration : Q) (c : chunk)
           (end_time : Q) (t : str) : bool :=
  let potential_duration := (end_time - c_start c)%Q in
  if Qlt_bool max_duration potential_duration then false
  else if Qle_bool min_duration (c_end c - c_start c)%Q
  then negb (natural_break (c_text c) t)
  else true.

(** Finalizing a chunk: kept only when it lasts at least 1 second. *)
Definition emit_chunk (merged : list segment) (c : chunk) : list segment :=
  if Qle_bool 1 (c_end c - c_start c)%Q
  then merged ++ [mkseg (c_start c) (c_end c) (strip (c_text c))]
  else merged.

Definition merge_step (min_duration max_duration : Q)
           (st : list segment * option chunk) (seg : segment)
  : list segment * option chunk :=
  let (merged, current) := st in
  let start_time := start seg in
  let end_time := end_ seg in
  let t := strip (text seg) in
  match t with
  | [] => st
  | _ =>
      match current with
      | None => (merged, Some (mkchunk start_time end_time t 1))
      | Some c =>
          if should_extend min_duration max_duration c end_time t then
            let new_text :=
              match c_text c with
              | [] => c_text c ++ lit " " ++ t
              | _ => if existsb (fun p => Ascii.eqb (last (c_text c) " "%char) p)
                                ["."; ","; "!"; "?"; ";"; ":"]%char
                     then c_text c ++ lit " " ++ t
                     else c_text c ++ lit " " ++ t
              end in
            (merged, Some (mkchunk (c_start c) end_time new_text (S (c_count c))))
          else (emit_chunk merged c, Some (mkchunk start_time end_time t 1))
      end
  end.

Definition merge_short_segments (segments : list segment)
           (min_duration max_duration : Q) : list segment :=
  match segments with
  | [] => segments
  | _ =>
      let (merged, current) :=
        fold_left (merge_step min_duration max_duration) segments ([], None) in
      match current with
      | Some c => emit_chunk merged c
      | None => merged
      end
  end.

(* ------------------------------------------------------------------ *)
(** ** Segment cleanup and merge gate of [YouTubeProcessor.process]
       (lines 773-825) *)

(** The timestamp-repair loop over [enumerate(segments)]. *)
Fixpoint cleanup_aux (i : nat) (valid : list segment) (segments : list segment)
  : list segment :=
  match segments with
  | [] => valid
  | seg :: rest =>
      let t := text seg in
      match strip t with
      | [] => cleanup_aux (S i) valid rest
      | _ =>
          let (st, en) :=
            if Qeq_bool (start seg) 0 && Qeq_bool (end_ seg) 0 && (0 <? i) then
              let prev_end := match valid with
                              | [] => 0%Q
                              | v :: _ => end_ (last valid v)
                              end in
              let estimated_duration := Qmax 2 (Qlen t * (1#10))%Q in
              (prev_end, (prev_end + estimated_duration)%Q)
            else (start seg, end_ seg) in
          cleanup_aux (S i) (valid ++ [mkseg st en (strip t)]) rest
      end
  end.

Definition cleanup (segments : list segment) : list segment :=
  cleanup_aux 0 [] segments.

Definition sum_durations (segments : list segment) : Q :=
  fold_right (fun s acc => (end_ s - start s) + acc)%Q 0%Q segments.

Definition process_segments (segments : list segment) : list segment :=
  match segments with
  | [] => segments
  | _ =>
      let avg_duration := (sum_durations segments / Qlen segments)%Q in
      let valid_segments := cleanup segments in
      if Qlt_bool avg_duration 6 then
        let merged_segments := merge_short_segments valid_segments 8 20 in
        if (0 <? length merged_segments)
           && Qlt_bool (Qlen merged_segments) (Qlen valid_segments * (8#10))%Q
        then merged_segments
        else valid_segments
      else valid_segments
  end.

Definition renorm_input : list segment :=
  [mkseg 0 1 (lit "a"); mkseg 1 2 (lit "b"); mkseg 2 100 (lit "")].

(* ------------------------------------------------------------------ *)
(** ** [YouTubeProcessor._extract_single_clip] (lines 489-528) *)

(** What the duration probe of the source video gives: the parsed stdout
    of [ffprobe] ([None] for an empty output, which the code reads as 0),
    or an exception (the probe failing or [float] rejecting its output),
    which the code swallows. *)
Inductive probe_result :=
| ProbeOut (duration : option Q)
| ProbeRaises.

(** The padded end after the duration check. *)
Definition probe_clamp (probe : probe_result) (padded_end : Q) : Q :=
  match probe with
  | ProbeOut o =>
      let video_duration := match o with Some d => d | None => 0%Q end in
      if Qlt_bool video_duration padded_end
      then (video_duration - (1#10))%Q else padded_end
  | ProbeRaises => padded_end
  end.

(** The ffmpeg invocation, as its [-ss] and [-t] values (before their
    rendering with two decimals), if there is one, and the returned flag.
    [ffmpeg_ok] stands for [result.returncode == 0 and
    os.path.exists(output_path)]; an exception of [subprocess.run] also
    gives [False]. *)
Definition extract_single_clip (probe : probe_result) (ffmpeg_ok : bool)
           (start end_t padding : Q) : option (Q * Q) * bool :=
  let padded_start := Qmax 0 (start - padding) in
  let padded_end := probe_clamp probe (end_t + padding)%Q in
  let duration := (padded_end - padded_start)%Q in
  if Qle_bool duration 0 then (None, false)
  else (Some (padded_start, duration), ffmpeg_ok).

(* ------------------------------------------------------------------ *)
(** ** [YouTubeProcessor._verify_clip_contains_quote] (lines 530-630) *)

(** The duration probe of the clip: parsed stdout or an exception. *)
Inductive dprobe :=
| DurOut (duration : option Q)
| DurRaises.

Record verification := mkver {
  likely_contains_quote : bool;
  confidence : str;
  confidence_score : option Q }.

Definition str_eqb (a b : str) : bool :=
  if list_eq_dec ascii_dec a b then true else false.

Definition strategy_confidence : list (str * Q) :=
  [(lit "Exact timing", 9#10); (lit "Small buffer", 8#10);
   (lit "Medium buffer", 6#10); (lit "Large buffer", 4#10);
   (lit "Extended search", 2#10)].

(** [strategy_confidence.get(strategy_name, 0.1)] *)
Definition base_confidence_of (strategy_name : str) : Q :=
  match find (fun kv => str_eqb (fst kv) strategy_name) strategy_confidence with
  | Some kv => snd kv
  | None => 1#10
  end.

Definition Qnat (n : nat) : Q := inject_Z (Z.of_nat n).

(** [audio] is [Some ('audio' in stdout.lower())] or [None] when the
    stream probe raises; [file_size] is [os.path.getsize] or [None] when
    it raises. Each list element is the [passed] flag of one check. *)
Definition verify_clip_contains_quote (dur : dprobe) (audio : option bool)
           (file_size : option Z) (strategy_name : str) : verification :=
  match dur with
  | DurRaises => mkver false (lit "low") None
  | DurOut o =>
      let duration := match o with Some d => d | None => 0%Q end in
      if Qlt_bool 0 duration then
        let duration_check := [Qle_bool 2 duration] in
        let audio_check := match audio with Some has_audio => [has_audio] | None => [] end in
        let size_check := match file_size with
                          | Some z => [Z.ltb 100000 z] | None => [] end in
        let verification_methods := duration_check ++ audio_check ++ size_check in
        let base_confidence := base_confidence_of strategy_name in
        let passed_checks := length (filter (fun b => b) verification_methods) in
        let total_checks := length verification_methods in
        let final_confidence :=
          if 0 <? total_checks
          then (base_confidence * (Qnat passed_checks / Qnat total_checks))%Q
          else base_confidence in
        let likely := Qle_bool (1#2) final_confidence in
        let confidence_level :=
          if likely then
            if Qle_bool (8#10) final_confidence then lit "high"
            else if Qle_bool (6#10) final_confidence then lit "medium"
            else lit "low"
          else lit "low" in
        mkver likely confidence_level (Some final_confidence)
      else mkver false (lit "low") None
  end.

(* ------------------------------------------------------------------ *)
(** ** [YouTubeProcessor.extract_clip_with_verification] (lines 393-487) *)

Record strategy := mkstrategy {
  name : str; start_offset : Q; end_offset : Q; extra_padding : Q }.

Definition strategies : list strategy :=
  [mkstrategy (lit "Exact timing") 0 0 0;
   mkstrategy (lit "Small buffer") (-2) 2 1;
   mkstrategy (lit "Medium buffer") (-5) 5 2;
   mkstrategy (lit "Large buffer") (-10) 10 3;
   mkstrategy (lit "Extended search") (-30) 30 5].

(** The outside world, by path: the source video's duration probe, the
    ffmpeg outcome for an output path, the probes of a clip, and whether
    [shutil.move] / [shutil.copy] succeed. *)
Record world := mkworld {
  source_probe : probe_result;
  ffmpeg_ok : str -> bool;
  clip_duration : str -> dprobe;
  clip_audio : str -> option bool;
  clip_size : str -> option Z;
  move_ok : str -> str -> bool;
  copy_ok : str -> str -> bool }.

(** The observable actions: calls of [_extract_single_clip] (with their
    arguments), moves, removals and copies of files. *)
Inductive event :=
| ExtractCall (path : str) (start end_t padding : Q)
| Moved (src dst : str)
| Removed (path : str)
| Copied (src dst : str).

Inductive outcome :=
| Verified (strategy_name : str) (adjusted_start adjusted_end : Q)
           (confidence_level : str) (original_start original_end : Q)
| Unverified (debug_clip : option str).

(** [s.replace(old, new)] for a non-empty [old]: every occurrence, left to
    right, without overlaps. [skip] counts the characters of a replaced
    occurrence still to be passed over. *)
Fixpoint replace_aux (old new : str) (skip : nat) (s : str) : str :=
  match s with
  | [] => []
  | c :: s' =>
      match skip with
      | S k => replace_aux old new k s'
      | O => if is_prefix old s then new ++ replace_aux old new (length old - 1) s'
             else c :: replace_aux old new 0 s'
      end
  end.

Definition py_replace (s old new : str) : str := replace_aux old new 0 s.

Definition digit (i : nat) : ascii := ascii_of_nat (48 + i).

Definition temp_clip_path (output_path : str) (i : nat) : str :=
  py_replace output_path (lit ".mp4") (lit "_test_" ++ [digit i] ++ lit ".mp4").

Definition debug_clip_path (output_path : str) : str :=
  py_replace output_path (lit ".mp4") (lit "_debug_extended.mp4").

(** The strategy loop, from strategy number [i]: the trace so far and the
    verified outcome, if a strategy passes and its clip is moved. A failing
    [shutil.move] raises inside the [try] and counts as a failed strategy. *)
Fixpoint try_strategies (w : world) (start end_t : Q) (output_path : str)
         (padding : Q) (i : nat) (ss : list strategy) (trace : list event)
  : list event * option outcome :=
  match ss with
  | [] => (trace, None)
  | st :: rest =>
      let adjusted_start := Qmax 0 (start + start_offset st) in
      let adjusted_end := (end_t + end_offset st)%Q in
      let total_padding := (padding + extra_padding st)%Q in
      let temp := temp_clip_path output_path i in
      let success := snd (extract_single_clip (source_probe w) (ffmpeg_ok w temp)
                                              adjusted_start adjusted_end total_padding) in
      let trace := trace ++ [ExtractCall temp adjusted_start adjusted_end total_padding] in
      if negb success then try_strategies w start end_t output_path padding (S i) rest trace
      else
        let v := verify_clip_contains_quote (clip_duration w temp) (clip_audio w temp)
                                            (clip_size w temp) (name st) in
        if likely_contains_quote v then
          if move_ok w temp output_path
          then (trace ++ [Moved temp output_path],
                Some (Verified (name st) adjusted_start adjusted_end (confidence v) start end_t))
          else try_strategies w start end_t output_path padding (S i) rest
                              (trace ++ [Removed temp])
        else try_strategies w start end_t output_path padding (S i) rest
                            (trace ++ [Removed temp])
  end.

(** The whole method; [video_path], [quote] and [segments] only feed the
    world and the log. A failing [shutil.copy] of the debug clip is not
    caught: it raises [OSError]. *)
Definition extract_clip_with_verification (w : world) (start end_t : Q)
           (output_path : str) (padding : Q) : res (list event * outcome) :=
  let (trace, verified) := try_strategies w start end_t output_path padding 0 strategies [] in
  match verified with
  | Some o => Ok (trace, o)
  | None =>
      let debug_start := Qmax 0 (start - 30) in
      let debug_end := (end_t + 30)%Q in
      let debug_path := debug_clip_path output_path in
      let success := snd (extract_single_clip (source_probe w) (ffmpeg_ok w debug_path)
                                              debug_start debug_end 0) in
      let trace := trace ++ [ExtractCall debug_path debug_start debug_end 0] in
      if success then
        if copy_ok w debug_path output_path
        then Ok (trace ++ [Copied debug_path output_path], Unverified (Some debug_path))
        else Err OSError
      else Ok (trace, Unverified None)
  end.

(* ------------------------------------------------------------------ *)
(** ** [main.process_clip_request] (lines 359-460) *)

(** The request's inputs: whether the two files exist, the segments read
    from the segments file, [float(os.getenv("CLIP_PADDING", "1.5"))] and
    the output clip path. *)
Record request := mkrequest {
  segments_file_exists : bool;
  video_exists : bool;
  loaded_segments : list segment;
  clip_padding : Q;
  clip_path : str }.

(** The returned dict: start and end times, the [verification] entry
    (strategy, confidence, timing_adjusted) of a verified clip, and the
    [quote_snippet]. *)
Record clip_result := mkresult {
  start_time : Q;
  end_time : Q;
  verification_info : option (str * str * bool);
  quote_snippet : option str }.

Definition msg_required : str := lit "Required files not found.".
Definition msg_no_valid : str :=
  lit "No segments with valid timestamps found. The segments file may be corrupted.".
Definition msg_not_found : str := lit "Quote not found in transcript.".
Definition msg_failed : str := lit "Clip extraction and verification failed.".

(** [s.get("start", 0) > 0 or s.get("end", 0) > 0] *)
Definition has_valid_timestamp (s : segment) : bool :=
  Qlt_bool 0 (start s) || Qlt_bool 0 (end_ s).

Definition snippet_entry (snippet : str) : option str :=
  match snippet with [] => None | _ => Some snippet end.

Definition process_clip_request (sequence_similarity : str -> str -> Q)
           (rq : request) (w : world) (quote : str) : res (list event * clip_result) :=
  if negb (segments_file_exists rq && video_exists rq) then Err (RuntimeError msg_required)
  else
    let segments := loaded_segments rq in
    match filter has_valid_timestamp segments with
    | [] => Err (RuntimeError msg_no_valid)
    | _ =>
        let* m := yt_find_quote_timestamps sequence_similarity segments quote 20 (65#100) 2 in
        match m with
        | None => Err (RuntimeError msg_not_found)
        | Some (start, end_t, snippet) =>
            let* r := extract_clip_with_verification w start end_t (clip_path rq) (clip_padding rq) in
            let (trace, extraction_result) := r in
            match extraction_result with
            | Verified strategy_name actual_start actual_end conf _ _ =>
                Ok (trace, mkresult actual_start actual_end
                      (Some (strategy_name, conf,
                             negb (Qeq_bool actual_start start) || negb (Qeq_bool actual_end end_t)))
                      (snippet_entry snippet))
            | Unverified (Some debug_clip) =>
                if copy_ok w debug_clip (clip_path rq)
                then Ok (trace ++ [Copied debug_clip (clip_path rq)],
                         mkresult (start - 30) (end_t + 30) None (snippet_entry snippet))
                else Err OSError
            | Unverified None => Err (RuntimeError msg_failed)
            end
        end
    end.

(* ================================================================== *)
(** * Further parts of the program *)

(** ** [YouTubeProcessor.extract_clip] (lines 846-865) *)
(** [quote] and [segments] are the attributes [_current_quote] and
    [_current_segments] (default [''] and [[]]). The verified branch
    returns [result['success']], or whether the debug clip exists; the
    other branch makes one direct extraction call onto the output path. *)
Definition extract_clip (w : world) (quote : str) (segments : list segment)
           (start end_t : Q) (output_path : str) (padding : Q) : res (list event * bool) :=
  match quote, segments with
  | _ :: _, _ :: _ =>
      let* r := extract_clip_with_verification w start end_t output_path padding in
      let (trace, result) := r in
      match result with
      | Verified _ _ _ _ _ _ => Ok (trace, true)
      | Unverified debug_clip =>
          Ok (trace, match debug_clip with Some _ => true | None => false end)
      end
  | _, _ =>
      Ok ([ExtractCall output_path start end_t padding],
          snd (extract_single_clip (source_probe w) (ffmpeg_ok w output_path)
                                   start end_t padding))
  end.

(* ------------------------------------------------------------------ *)
(** ** Post generation: [scripts/models/llm_manager.py] and
       [scripts/main.py] *)
(** The exceptions of this part: [ValueError] and [TypeError] with their
    messages, and the exceptions of the libraries called (model loading,
    the media processors), which the code does not catch. *)
Inductive gen_exn :=
| ValueError (msg : str)
| TypeError (msg : str)
| ExternalError.

Definition gres (A : Type) : Type := (A + gen_exn)%type.

Definition gbind {A B} (m : gres A) (f : A -> gres B) : gres B :=
  match m with inl a => f a | inr e => inr e end.

Notation "'glet' x := m 'in' f" := (gbind m (fun x => f))
  (at level 200, x name, m at level 100, f at level 200).

(** [str(e)] *)
Definition exn_message (e : gen_exn) : str :=
  match e with ValueError m => m | TypeError m => m | ExternalError => [] end.

(** The values [json.loads] produces: numbers as exact rationals (the
    decoder's [NaN] and [Infinity] extensions are left out), objects as
    their key-value lists in insertion order, each key once. *)
Inductive json :=
| JNull
| JBool (b : bool)
| JNum (q : Q)
| JStr (s : str)
| JArr (xs : list json)
| JObj (kvs : list (str * json)).

Definition dict : Type := list (str * json).

(** [d.get(k)] *)
Definition dict_get (k : str) (d : dict) : option json :=
  option_map snd (find (fun kv => str_eqb (fst kv) k) d).

(** [k in d] *)
Definition has_key (k : str) (d : dict) : bool :=
  match dict_get k d with Some _ => true | None => false end.

(** Python truthiness. *)
Definition truthy (v : json) : bool :=
  match v with
  | JNull => false
  | JBool b => b
  | JNum q => negb (Qeq_bool q 0)
  | JStr s => match s with [] => false | _ => true end
  | JArr xs => match xs with [] => false | _ => true end
  | JObj kvs => match kvs with [] => false | _ => true end
  end.

(** The type name [hash] complains about, for the unhashable values. *)
Definition unhashable_name (v : json) : option str :=
  match v with JArr _ => Some (lit "list") | JObj _ => Some (lit "dict") | _ => None end.

Definition as_number (v : json) : option Q :=
  match v with
  | JBool b => Some (if b then 1%Q else 0%Q)
  | JNum q => Some q
  | _ => None
  end.

(** [==] on the hashable values ([True == 1 == 1.0]); set membership
    uses it, the hash being consistent with it. *)
Definition py_eq (a b : json) : bool :=
  match a, b with
  | JNull, JNull => true
  | JStr x, JStr y => str_eqb x y
  | _, _ =>
      match as_number a, as_number b with
      | Some x, Some y => Qeq_bool x y
      | _, _ => false
      end
  end.

(** [post.get("source_quote")] *)
Definition source_quote (p : dict) : json :=
  match dict_get (lit "source_quote") p with Some v => v | None => JNull end.

Definition unhashable_msg (n : str) : str := lit "unhashable type: '" ++ n ++ lit "'".

(** The loop of [LLMManager.deduplicate_posts] from the set [seen]:
    [quote in seen] hashes a truthy quote, which raises [TypeError] for a
    list or a dict. *)
Fixpoint dedup_loop (seen : list json) (posts : list dict) : gres (list dict) :=
  match posts with
  | [] => inl []
  | post :: rest =>
      let quote := source_quote post in
      if truthy quote then
        match unhashable_name quote with
        | Some n => inr (TypeError (unhashable_msg n))
        | None =>
            if existsb (py_eq quote) seen then dedup_loop seen rest
            else glet u := dedup_loop (quote :: seen) rest in inl (post :: u)
        end
      else glet u := dedup_loop seen rest in inl (post :: u)
  end.

(** [LLMManager.deduplicate_posts] (llm_manager.py lines 103-116), also
    [main.deduplicate_posts]. *)
Definition deduplicate_posts (posts : list dict) : gres (list dict) :=
  dedup_loop [] posts.

Definition msg_no_json : str := lit "No JSON object found in LLM output.".

Definition msg_structure : str := lit "JSON object does not contain expected structure".

Definition msg_list : str := lit "JSON output must be a list of objects".

Definition msg_objects : str := lit "JSON array must contain objects".

Definition is_list (v : json) : bool := match v with JArr _ => true | _ => false end.

(** [all(isinstance(p, dict) for p in posts)], with the dicts. *)
Fixpoint dicts_of (xs : list json) : option (list dict) :=
  match xs with
  | [] => Some []
  | JObj d :: rest => option_map (cons d) (dicts_of rest)
  | _ :: _ => None
  end.

Definition valid_post (p : dict) : bool :=
  has_key (lit "post_text") p && has_key (lit "source_quote") p.

(** The body of the [try] block of [generate_posts_from_text] after
    [extract_json]: the shape checks, then the posts with both keys. *)
Definition parse_posts (data : json) : gres (list dict) :=
  glet posts :=
    match data with
    | JObj kvs =>
        match kvs with
        | [(_, JArr xs)] => inl xs
        | _ =>
            if has_key (lit "post_text") kvs && has_key (lit "source_quote") kvs
            then inl [JObj kvs] else inr (ValueError msg_structure)
        end
    | JArr xs => inl xs
    | _ => inr (ValueError msg_list)
    end in
  match dicts_of posts with
  | None => inr (ValueError msg_objects)
  | Some ds => inl (filter valid_post ds)
  end.

(** [extract_json] is an oracle: the JSON value it selects, or [None] when
    it finds none and raises [ValueError]. *)
Definition chunk_posts (extract_json : str -> option json) (response : str) : gres (list dict) :=
  match extract_json response with
  | None => inr (ValueError msg_no_json)
  | Some data => parse_posts data
  end.

(** [range(0, n, step)] for [step > 0]. *)
Definition range_starts (n step : nat) : list nat :=
  map (fun k => k * step) (seq 0 ((n + step - 1) / step)).

(** [[context[i:i + step] for i in range(0, len(context), step)]] *)
Definition text_chunks (step : nat) (context : str) : list str :=
  map (fun i => firstn step (skipn i context)) (range_starts (length context) step).

(** [len(system_prompt)] of [main.generate_posts_from_text] (1714
    characters) and of [LLMManager.generate_posts_from_text] (1719). *)
Definition main_system_prompt_len : nat := 1714.

Definition manager_system_prompt_len : nat := 1719.

(** [max_context_chars = (8192 - (len(system_prompt) + 1024)) * 4] *)
Definition max_context_chars (prompt_len : nat) : nat := (8192 - (prompt_len + 1024)) * 4.

Definition parse_failure (e : gen_exn) (response : str) : str :=
  lit "Failed to parse LLM output: " ++ exn_message e ++ lit ". Raw output: " ++ response.

(** The chunk loop of [main.generate_posts_from_text]: a chunk whose
    output does not parse raises [ValueError]. [llm] gives the content of
    the chat completion for the messages built from a chunk. *)
Fixpoint main_chunk_loop (llm : str -> str) (extract_json : str -> option json)
         (chunks : list str) (all_posts : list dict) : gres (list dict) :=
  match chunks with
  | [] => inl all_posts
  | chunk :: rest =>
      let response := llm chunk in
      match chunk_posts extract_json response with
      | inl valid_posts => main_chunk_loop llm extract_json rest (all_posts ++ valid_posts)
      | inr e => inr (ValueError (parse_failure e response))
      end
  end.

(** [main.generate_posts_from_text] (main.py lines 110-228). *)
Definition main_generate_posts_from_text (llm : str -> str) (extract_json : str -> option json)
           (context : str) : gres (list dict) :=
  glet all_posts := main_chunk_loop llm extract_json
                      (text_chunks (max_context_chars main_system_prompt_len) context) [] in
  deduplicate_posts all_posts.

(** The chunk loop of [LLMManager.generate_posts_from_text]: a chunk whose
    output does not parse is skipped ([continue]). *)
Fixpoint manager_chunk_loop (llm : str -> str) (extract_json : str -> option json)
         (chunks : list str) (all_posts : list dict) : list dict :=
  match chunks with
  | [] => all_posts
  | chunk :: rest =>
      match chunk_posts extract_json (llm chunk) with
      | inl valid_posts => manager_chunk_loop llm extract_json rest (all_posts ++ valid_posts)
      | inr _ => manager_chunk_loop llm extract_json rest all_posts
      end
  end.

(** [LLMManager.generate_posts_from_text] (llm_manager.py lines 118-242). *)
Definition manager_generate_posts_from_text (llm : str -> str)
           (extract_json : str -> option json) (context : str) : gres (list dict) :=
  deduplicate_posts
    (manager_chunk_loop llm extract_json
       (text_chunks (max_context_chars manager_system_prompt_len) context) []).

(* ------------------------------------------------------------------ *)
(** ** [main.process_content] (main.py lines 463-552) *)
(** What the calls before post generation give: the posts already stored
    for the job ([None] when [load_existing_posts] raises, as it does
    without [DATABASE_URL]), whether media files of the job exist, whether loading
    the two models succeeds, and what each processor returns ([None] when
    it raises). *)
Record content_env := mkcontent {
  existing_posts : option (list dict);
  existing_media : bool;
  llm_loads : bool;
  whisper_loads : bool;
  youtube_transcript : option str;
  pdf_text : option str;
  text_contents : option str }.

(** [llm_manager.generate_posts_from_text(transcript_text, source_type,
    llm_backend)] passes three arguments to a method that takes two. *)
Definition generate_call_error : gen_exn :=
  TypeError (lit "LLMManager.generate_posts_from_text() takes 3 positional arguments but 4 were given").

Definition msg_no_speech : str := lit "Transcription failed or video contains no speech.".

(** The returned posts of [{"status": "complete", "posts": ...}]. *)
Definition process_content (env : content_env) (input_type : str) : gres (list dict) :=
  match existing_posts env with
  | None => inr ExternalError
  | Some stored =>
  match stored, existing_media env with
  | [], false =>
      if negb (llm_loads env) then inr ExternalError
      else if negb (whisper_loads env) then inr ExternalError
      else if str_eqb input_type (lit "youtube") then
        match youtube_transcript env with
        | None => inr ExternalError
        | Some transcript_text =>
            match strip transcript_text with
            | [] => inr (ValueError msg_no_speech)
            | _ => inr generate_call_error
            end
        end
      else if str_eqb input_type (lit "pdf") then
        match pdf_text env with None => inr ExternalError | Some _ => inr generate_call_error end
      else if str_eqb input_type (lit "text") then
        match text_contents env with None => inr ExternalError | Some _ => inr generate_call_error end
      else inl []
  | posts, _ => inl posts
  end
  end.

(* ------------------------------------------------------------------ *)
(** ** [LLMManager.load_llm] (llm_manager.py lines 40-64) *)
Inductive llm_kind := GeminiModel | LlamaModel.

(** A loaded model: its kind and the number of the constructor call that
    made it. *)
Record llm := mkllm { kind : llm_kind; serial : nat }.

(** [self.llm], [self.backend], and the number of constructor calls. *)
Record llm_state := mkllmstate {
  st_llm : option llm;
  st_backend : option str;
  loads : nat }.

(** [backend or os.getenv("LLM_BACKEND", "phi")] *)
Definition effective_backend (backend env : option str) : str :=
  match backend with
  | Some ((_ :: _) as b) => b
  | _ => match env with Some e => e | None => lit "phi" end
  end.

(** [construct_ok] says whether the constructor for a backend succeeds
    ([GeminiLLM] raises without [GOOGLE_API_KEY], [Llama] without its
    model file). [self.backend] is set before the constructor runs. *)
Definition load_llm (construct_ok : str -> bool) (env : option str) (st : llm_state)
           (backend : option str) : llm_state * gres llm :=
  let b := effective_backend backend env in
  let reload :=
    if construct_ok b then
      let m := mkllm (if str_eqb b (lit "gemini") then GeminiModel else LlamaModel) (loads st) in
      (mkllmstate (Some m) (Some b) (S (loads st)), inl m)
    else (mkllmstate (st_llm st) (Some b) (loads st), inr ExternalError) in
  match st_llm st, st_backend st with
  | Some m, Some cur => if str_eqb b cur then (st, inl m) else reload
  | _, _ => reload
  end.

(** A sub-sequence of a list. *)
Inductive subseq {A} : list A -> list A -> Prop :=
| subseq_nil : subseq [] []
| subseq_keep x l1 l2 : subseq l1 l2 -> subseq (x :: l1) (x :: l2)
| subseq_skip x l1 l2 : subseq l1 l2 -> subseq l1 (x :: l2).

(** No two posts have equal truthy quotes. *)
Definition distinct_quotes (a b : dict) : Prop :=
  truthy (source_quote a) = true -> truthy (source_quote b) = true ->
  py_eq (source_quote a) (source_quote b) = false.

Definition bad_quote (p : dict) : Prop :=
  truthy (source_quote p) = true /\ unhashable_name (source_quote p) <> None.

(** A post with its text and quote. *)
Definition post_of (t q : str) : dict := [(lit "post_text", JStr t); (lit "source_quote", JStr q)].

(** Two posts with the same quote, one without a quote, one with an empty
    quote. *)
Definition sample_posts : list dict :=
  [post_of (lit "A") (lit "same quote"); post_of (lit "B") (lit "same quote");
   [(lit "post_text", JStr (lit "C"))]; post_of (lit "D") []].

Definition sample_unique : list dict :=
  [post_of (lit "A") (lit "same quote"); [(lit "post_text", JStr (lit "C"))]; post_of (lit "D") []].

(** A model answer holding two posts with the same quote. *)
Definition two_posts_json (_ : str) : option json :=
  Some (JArr [JObj (post_of (lit "A") (lit "q")); JObj (post_of (lit "B") (lit "q"))]).

(** A model answer without JSON. *)
Definition no_json (_ : str) : option json := None.

(** A new job: nothing stored, both models load, the video has speech. *)
Definition new_video_env : content_env :=
  mkcontent (Some []) false true true (Some (lit "Hello there.")) None None.

Definition phi_loaded : llm_state := mkllmstate (Some (mkllm LlamaModel 0)) (Some (lit "phi")) 1.

(** Gemini cannot be constructed (no API key). *)
Definition no_gemini (b : str) : bool := negb (str_eqb b (lit "gemini")).

(* ------------------------------------------------------------------ *)
(** ** The video id of [fetch_youtube_transcript]
       (youtube_processor.py lines 640-643) *)
(** [[0-9A-Za-z_-]] *)
Definition is_id_char (c : ascii) : bool := is_word c || Ascii.eqb c "-"%char.

(** [(?:[?&]|$)] after the id: [$] also matches before a final newline. *)
Definition id_follow_ok (rest : str) : bool :=
  match rest with
  | [] => true
  | ["010"%char] => true
  | c :: _ => Ascii.eqb c "?"%char || Ascii.eqb c "&"%char
  end.

(** [([0-9A-Za-z_-]{11})(?:[?&]|$)] at the start of [t]. *)
Definition id_after (t : str) : option str :=
  let id := firstn 11 t in
  if forallb is_id_char id && (length id =? 11) && id_follow_ok (skipn 11 t)
  then Some id else None.

(** The whole pattern [(?:v=|/)([0-9A-Za-z_-]{11})(?:[?&]|$)] at the start
    of [s]; the two alternatives start with different characters. *)
Definition id_match_at (s : str) : option str :=
  match s with
  | "v"%char :: "="%char :: t => id_after t
  | "/"%char :: t => id_after t
  | _ => None
  end.

(** [m = re.search(...); video_id = m.group(1) if m else None]: the
    leftmost match. *)
Fixpoint find_video_id (url : str) : option str :=
  match url with
  | [] => None
  | _ :: rest =>
      match id_match_at url with
      | Some id => Some id
      | None => find_video_id rest
      end
  end.

(** A YouTube video id: 11 characters of [[0-9A-Za-z_-]]. *)
Definition valid_id (id : str) : bool := forallb is_id_char id && (length id =? 11).

(* ================================================================== *)
(** * Proofs *)

Lemma Qlt_bool_iff (a b : Q) : Qlt_bool a b = true <-> (a < b)%Q.
Proof.
  unfold Qlt_bool. rewrite negb_true_iff.
  split; intro H.
  - apply Qnot_le_lt. intro H'. apply Qle_bool_iff in H'. congruence.
  - destruct (Qle_bool b a) eqn:E; [|reflexivity].
    apply Qle_bool_iff in E. exfalso. apply (Qlt_not_le _ _ H E).
Qed.

Lemma inject_nat_neq0 (n : nat) : (0 < n)%nat ->
  Qeq_bool (inject_Z (Z.of_nat n)) 0 = false.
Proof.
  intro H. destruct (Qeq_bool _ _) eqn:E; [|reflexivity].
  apply Qeq_bool_iff in E. unfold Qeq in E. simpl in E. lia.
Qed.

Lemma length_bonus_ge1 (q t : nat) : (1 <= length_bonus_of q t)%Q.
Proof.
  unfold length_bonus_of.
  set (m := Qmax 0 _).
  assert (0 <= m)%Q by apply Q.le_max_l.
  lra.
Qed.

(** The score of a window whose text has words: [0.3 * sequence +
    0.4 * word_overlap + 0.3 * keyword_match], times the length bonus. *)
Lemma window_score_formula (seqsim : str -> str -> Q) (quote : str)
      (qwc : nat) (ws : list segment) :
  let ct := join (lit " ") (map text ws) in
  strip ct <> [] -> (0 < qwc)%nat -> split (normalize_text ct) <> [] ->
  window_score seqsim quote qwc ws =
  Ok (Some (((3#10) * seqsim (normalize_text quote) (normalize_text ct)
             + (4#10) * word_overlap_score quote ct
             + (3#10) * keyword_match_score quote ct)
            * length_bonus_of qwc (length (split (normalize_text ct))))%Q).
Proof.
  intros ct Hs Hq Hw. unfold window_score. fold ct.
  destruct (strip ct) as [|c r] eqn:E; [congruence|].
  unfold py_div.
  replace (0 <? qwc) with true by (symmetry; apply Nat.ltb_lt; exact Hq).
  unfold Qlen.
  rewrite (inject_nat_neq0 qwc) by lia.
  rewrite (inject_nat_neq0 (length (split (normalize_text ct)))).
  2:{ destruct (split (normalize_text ct)); [congruence|simpl; lia]. }
  reflexivity.
Qed.

(** A window score with its component values known up to [==]. *)
Lemma window_score_value (seqsim : str -> str -> Q) (quote : str)
      (qwc : nat) (ws : list segment) (wo kw b : Q) :
  strip (join (lit " ") (map text ws)) <> [] -> (0 < qwc)%nat ->
  split (normalize_text (join (lit " ") (map text ws))) <> [] ->
  (word_overlap_score quote (join (lit " ") (map text ws)) == wo)%Q ->
  (keyword_match_score quote (join (lit " ") (map text ws)) == kw)%Q ->
  (length_bonus_of qwc (length (split (normalize_text
      (join (lit " ") (map text ws))))) == b)%Q ->
  exists v, window_score seqsim quote qwc ws = Ok (Some v) /\
    (v == ((3#10) * seqsim (normalize_text quote)
                      (normalize_text (join (lit " ") (map text ws)))
           + (4#10) * wo + (3#10) * kw) * b)%Q.
Proof.
  intros H1 H2 H3 Hwo Hkw Hb.
  eexists. split.
  - apply window_score_formula; assumption.
  - rewrite Hwo, Hkw, Hb. reflexivity.
Qed.

Ltac by_eval := vm_compute; first [reflexivity | discriminate | lia].

Definition fox_text : str := lit "The quick brown fox jumps over the lazy dog".

(** On the two-segment input, the two-segment window wins for every
    sequence similarity with values in [0, 1]. *)
Lemma search_fox (seqsim : str -> str -> Q) :
  (forall a b, 0 <= seqsim a b <= 1)%Q ->
  exists v, search seqsim fox_segments fox_quote 8 = Ok (v, Some (0%Q, 2%Q, fox_text))
            /\ (7#10 <= v)%Q.
Proof.
  intros Hs.
  destruct (window_score_value seqsim fox_quote 8 (window fox_segments 1 0)
              (1#2) (3#7) 1) as [v1 [E1 H1]]; try by_eval.
  destruct (window_score_value seqsim fox_quote 8 (window fox_segments 1 1)
              (5#8) (4#7) (41#40)) as [v2 [E2 H2]]; try by_eval.
  destruct (window_score_value seqsim fox_quote 8 (window fox_segments 2 0)
              1 1 (97#90)) as [v3 [E3 H3]]; try by_eval.
  pose proof (Hs (normalize_text fox_quote)
                 (normalize_text (join (lit " ") (map text (window fox_segments 1 0))))).
  pose proof (Hs (normalize_text fox_quote)
                 (normalize_text (join (lit " ") (map text (window fox_segments 1 1))))).
  pose proof (Hs (normalize_text fox_quote)
                 (normalize_text (join (lit " ") (map text (window fox_segments 2 0))))).
  exists v3. split; [|lra].
  unfold search.
  change (candidates (length fox_segments)) with [(1,0);(1,1);(2,0)].
  cbn [fold_left]. unfold search_step. cbn [bind].
  rewrite E1, E2, E3. cbn [bind].
  destruct (Qlt_bool 0 v1) eqn:C1; cbn [window firstn skipn fox_segments bind last];
  destruct (Qlt_bool _ v2) eqn:C2; cbn [bind];
  (rewrite (proj2 (Qlt_bool_iff _ v3)); [vm_compute; reflexivity|]);
  try (apply Qlt_bool_iff in C1); try (apply Qlt_bool_iff in C2); lra.
Qed.

(** [find_best_match] on a quote of at least two words. *)
Lemma find_best_match_words (seqsim : str -> str -> Q) segs quote mw p :
  segs <> [] -> (2 <= length (split (normalize_text quote)))%nat ->
  find_best_match seqsim segs quote mw p =
  (let* st := search seqsim segs quote (length (split (normalize_text quote))) in
   Ok (accept_match (length (split (normalize_text quote))) p st)).
Proof.
  intros Hs Hq. unfold find_best_match.
  destruct quote as [|c q]; [vm_compute in Hq; lia|].
  destruct segs as [|sg segs]; [congruence|].
  replace (length (split (normalize_text (c :: q))) <? 2) with false.
  - reflexivity.
  - symmetry. apply Nat.ltb_ge. exact Hq.
Qed.

(** ** C1 *)

(** C1 (code_bug): on the two-segment input of the specification and the
    quote "quick brown fox jumps over the lazy dog", [find_quote_timestamps]
    with its default configuration returns start 0.0 but end 4.0: the
    accepted window 0.0-2.0 is padded by the default context padding
    2.0 at its end (the start, 0.0 <= 2.0, is left unpadded). This holds
    whichever sequence similarity (rapidfuzz or difflib) is in use. *)
Theorem find_quote_timestamps_fox_end (seqsim : str -> str -> Q) :
  (forall a b, 0 <= seqsim a b <= 1)%Q ->
  find_quote_timestamps seqsim fox_segments fox_quote
  = Ok (Some (0%Q, 4%Q, fox_text)).
Proof.
  intros Hs.
  destruct (search_fox seqsim Hs) as [v [E Hv]].
  unfold find_quote_timestamps, find_quote_timestamps_with,
    yt_find_quote_timestamps.
  rewrite find_best_match_words by by_eval.
  replace (length (split (normalize_text fox_quote))) with 8 by by_eval.
  rewrite E. cbn [bind accept_match].
  replace (Qle_bool (min_threshold 8) v) with true.
  2:{ symmetry. apply Qle_bool_iff. unfold min_threshold. simpl. lra. }
  vm_compute. reflexivity.
Qed.

Lemma find_quote_timestamps_fox_end_witness :
  (forall a b : str, 0 <= (fun _ _ => 1#2) a b <= 1)%Q /\
  find_quote_timestamps (fun _ _ => 1#2) fox_segments fox_quote
  = Ok (Some (0%Q, 4%Q, fox_text)).
Proof.
  split.
  - intros a b. split; vm_compute; discriminate.
  - apply find_quote_timestamps_fox_end. intros a b. split; vm_compute; discriminate.
Defined.

(** The three-segment input of the repository's test
    [test_exact_match_across_segments], with rapidfuzz's ratio: end 4.0
    where the test asserts 2.0. *)
Example find_quote_timestamps_fox3_rapidfuzz :
  find_quote_timestamps indel_ratio fox_segments3 fox_quote
  = Ok (Some (0%Q, 4%Q, fox_text)).
Proof. vm_compute. reflexivity. Qed.

(** ** Provenance of the best match *)

Lemma in_firstn_In {A} (x : A) n l : In x (firstn n l) -> In x l.
Proof.
  intro H. rewrite <- (firstn_skipn n l). apply in_or_app. left. exact H.
Qed.

Lemma in_skipn_In {A} (x : A) n l : In x (skipn n l) -> In x l.
Proof.
  intro H. rewrite <- (firstn_skipn n l). apply in_or_app. right. exact H.
Qed.

Lemma last_cons_In {A} (x d : A) l : In (last (x :: l) d) (x :: l).
Proof.
  revert x. induction l as [|y l IH]; intro x; [left; reflexivity|].
  change (last (x :: y :: l) d) with (last (y :: l) d).
  right. apply IH.
Qed.

(** A best match spans from the start of a segment to the end of one. *)
Definition from_segments (segments : list segment) (m : match_result) : Prop :=
  match m with
  | None => True
  | Some (rs, re, _) =>
      exists a b, In a segments /\ In b segments /\ rs = start a /\ re = end_ b
  end.

Lemma search_step_from_segments seqsim segs q n st c :
  (forall bs m, st = Ok (bs, m) -> from_segments segs m) ->
  forall bs m, search_step seqsim segs q n st c = Ok (bs, m) ->
  from_segments segs m.
Proof.
  intros Hst bs m E.
  destruct st as [[bs0 m0]|e]; [|discriminate].
  destruct c as [w i]. unfold search_step in E. cbn [bind] in E.
  destruct (window_score seqsim q n (window segs w i)) as [[sc|]|e];
    cbn [bind] in E; [|inversion E; subst; eapply Hst; reflexivity|discriminate].
  destruct (Qlt_bool bs0 sc).
  - destruct (window segs w i) as [|first rest] eqn:W.
    + inversion E; subst. eapply Hst; reflexivity.
    + inversion E; subst. simpl.
      exists first, (last (first :: rest) first).
      assert (Hin : forall x, In x (first :: rest) -> In x segs).
      { intros x Hx. rewrite <- W in Hx. unfold window in Hx.
        apply in_skipn_In with i. apply in_firstn_In with w. exact Hx. }
      repeat split; try reflexivity.
      * apply Hin. left. reflexivity.
      * apply Hin. apply last_cons_In.
  - inversion E; subst. eapply Hst; reflexivity.
Qed.

Lemma fold_search_from_segments seqsim segs q n cs st :
  (forall bs m, st = Ok (bs, m) -> from_segments segs m) ->
  forall bs m, fold_left (search_step seqsim segs q n) cs st = Ok (bs, m) ->
  from_segments segs m.
Proof.
  revert st. induction cs as [|c cs IH]; intros st Hst.
  - exact Hst.
  - simpl. apply IH. apply search_step_from_segments. exact Hst.
Qed.

Lemma search_from_segments seqsim segs q n bs m :
  search seqsim segs q n = Ok (bs, m) -> from_segments segs m.
Proof.
  apply fold_search_from_segments.
  intros bs0 m0 E. inversion E; subst. exact I.
Qed.

Lemma Qmax_0_pos (x : Q) : (0 < x)%Q -> Qmax 0 x = x.
Proof.
  intro H. assert (C : (0 ?= x)%Q = Lt) by (apply Qlt_alt; exact H).
  unfold Qmax, GenericMinMax.gmax. rewrite C. reflexivity.
Qed.

(** ** C4 *)

(** C4: when [find_best_match] accepts a window (a quote of at least two
    normalized words) with raw times [raw_start], [raw_end] and context
    padding [p], the returned end is [raw_end + p]; the returned start is
    [raw_start] when [raw_start <= p] and [raw_start - p] otherwise; so
    the start is never negative (segment starts being non-negative). *)
Theorem find_best_match_padding (seqsim : str -> str -> Q) segs quote mw p
        s e t :
  (2 <= length (split (normalize_text quote)))%nat ->
  find_best_match seqsim segs quote mw p = Ok (Some (s, e, t)) ->
  exists raw_start raw_end,
    (exists a b, In a segs /\ In b segs /\
                 raw_start = start a /\ raw_end = end_ b) /\
    e = (raw_end + p)%Q /\
    ((raw_start <= p)%Q -> s = raw_start) /\
    ((p < raw_start)%Q -> s = (raw_start - p)%Q) /\
    (Forall (fun sg => 0 <= start sg)%Q segs -> (0 <= s)%Q).
Proof.
  intros Hq E.
  destruct segs as [|sg0 segs0] eqn:Hsegs.
  { unfold find_best_match in E. destruct quote; discriminate. }
  rewrite <- Hsegs in *.
  rewrite find_best_match_words in E by (subst; congruence || exact Hq).
  destruct (search seqsim segs quote _) as [[bs m]|err] eqn:S; [|discriminate].
  cbn [bind] in E. injection E as E.
  apply search_from_segments in S.
  unfold accept_match in E.
  destruct m as [[[rs re] mt]|]; [|discriminate].
  destruct (Qle_bool _ bs); [|discriminate].
  injection E as Es Ee Et.
  exists rs, re. split; [exact S|]. split; [symmetry; exact Ee|].
  unfold padded_start_of in Es.
  destruct (Qlt_bool p rs) eqn:C.
  - apply Qlt_bool_iff in C. rewrite Qmax_0_pos in Es by lra.
    repeat split; intros; try lra; subst; try reflexivity; lra.
  - assert (C' : (rs <= p)%Q).
    { apply Qnot_lt_le. intro H. apply Qlt_bool_iff in H. congruence. }
    repeat split; intros; subst; try reflexivity; try lra.
    destruct S as [a [b [Ha [_ [Hr _]]]]]. subst.
    rewrite Forall_forall in H. apply H. exact Ha.
Qed.

Lemma find_best_match_padding_witness :
  (2 <= length (split (normalize_text fox_quote)))%nat /\
  find_best_match (fun _ _ => 1#2) fox_segments fox_quote 20 2
    = Ok (Some (0%Q, 4%Q, fox_text)) /\
  exists raw_start raw_end,
    (exists a b, In a fox_segments /\ In b fox_segments /\
                 raw_start = start a /\ raw_end = end_ b) /\
    4%Q = (raw_end + 2)%Q /\
    ((raw_start <= 2)%Q -> 0%Q = raw_start) /\
    ((2 < raw_start)%Q -> 0%Q = (raw_start - 2)%Q) /\
    (Forall (fun sg => 0 <= start sg)%Q fox_segments -> (0 <= 0)%Q).
Proof.
  split; [by_eval|]. split; [vm_compute; reflexivity|].
  apply (find_best_match_padding (fun _ _ => 1#2) fox_segments fox_quote 20 2
           0 4 fox_text).
  - by_eval.
  - vm_compute. reflexivity.
Defined.

(** ** C7 *)

Lemma fold_search_err seqsim segs q n cs e :
  fold_left (search_step seqsim segs q n) cs (Err e) = Err e.
Proof. induction cs as [|c cs IH]; [reflexivity|exact IH]. Qed.

Definition dots_segments : list segment :=
  [mkseg 0%Q 1%Q (lit "Hello world"); mkseg 1%Q 2%Q (lit "...")].

(** C7 (code_bug): a window whose text is not blank but has no word after
    normalization (here the segment "...") makes the length-ratio
    computation divide by its word count 0: [find_quote_timestamps]
    raises [ZeroDivisionError] instead of scoring the window, whatever
    the sequence similarity. *)
Theorem find_quote_timestamps_punctuation_window (seqsim : str -> str -> Q) :
  find_quote_timestamps seqsim dots_segments (lit "hello world")
  = Err ZeroDivisionError.
Proof.
  unfold find_quote_timestamps, find_quote_timestamps_with,
    yt_find_quote_timestamps.
  rewrite find_best_match_words by by_eval.
  replace (length (split (normalize_text (lit "hello world")))) with 2 by by_eval.
  assert (E2 : window_score seqsim (lit "hello world") 2 (window dots_segments 1 1)
               = Err ZeroDivisionError) by (vm_compute; reflexivity).
  assert (E1 : exists st, search_step seqsim dots_segments (lit "hello world") 2
                            (Ok (0%Q, None)) (1, 0) = Ok st).
  { unfold search_step. cbn [bind].
    rewrite window_score_formula by by_eval. cbn [bind].
    destruct (Qlt_bool _ _); eexists; reflexivity. }
  destruct E1 as [st E1].
  unfold search.
  change (candidates (length dots_segments)) with [(1,0);(1,1);(2,0)].
  cbn [fold_left]. rewrite E1.
  unfold search_step at 2. destruct st as [bs m]. cbn [bind].
  rewrite E2. reflexivity.
Qed.

(** ** C9 *)

(** C9: the result of [find_quote_timestamps] does not depend on its
    [window] and [threshold] arguments: [window] reaches [find_best_match]
    as the unused [max_window], [threshold] is not passed on; the window
    sizes searched are drawn from the fixed catalog [1, 2, 3, 5, 8]. *)
Theorem find_quote_timestamps_window_threshold_independent
        (seqsim : str -> str -> Q) segs quote p w1 t1 w2 t2 :
  find_quote_timestamps_with seqsim segs quote w1 t1 p
  = find_quote_timestamps_with seqsim segs quote w2 t2 p /\
  (forall w i, In (w, i) (candidates (length segs)) -> In w [1; 2; 3; 5; 8]).
Proof.
  split.
  - unfold find_quote_timestamps_with, yt_find_quote_timestamps, find_best_match.
    reflexivity.
  - intros w i H. unfold candidates in H.
    apply in_flat_map in H as [w' [Hw' Hin]].
    apply in_map_iff in Hin as [i' [Heq _]]. injection Heq as <- _.
    apply filter_In in Hw' as [Hw' _]. exact Hw'.
Qed.

(** ** [str.strip] *)

(** No surrounding whitespace. *)
Definition ok_ends (x : str) : Prop :=
  match x with
  | [] => True
  | c :: _ => is_space c = false /\ is_space (last x c) = false
  end.

Lemma lstrip_suffix (x : str) : exists pre, x = pre ++ lstrip x.
Proof.
  induction x as [|c x IH]; [exists []; reflexivity|].
  simpl. destruct (is_space c).
  - destruct IH as [pre E]. exists (c :: pre). simpl. f_equal. exact E.
  - exists []. reflexivity.
Qed.

Lemma lstrip_head (x : str) :
  match lstrip x with [] => True | c :: _ => is_space c = false end.
Proof.
  induction x as [|c x IH]; [exact I|].
  simpl. destruct (is_space c) eqn:E; [exact IH|exact E].
Qed.

Lemma lstrip_nospace (x : str) :
  match x with [] => True | c :: _ => is_space c = false end -> lstrip x = x.
Proof. destruct x as [|c x]; [reflexivity|]. simpl. intro H. rewrite H. reflexivity. Qed.

Lemma last_app_cons {A} (l r : list A) (c d : A) :
  last (l ++ c :: r) d = last (c :: r) d.
Proof.
  induction l as [|a l IH]; [reflexivity|].
  rewrite <- app_comm_cons. destruct l as [|b l]; simpl; [reflexivity|].
  simpl in IH. exact IH.
Qed.

Lemma last_rev_cons {A} (c : A) (l : list A) (d : A) : last (rev (c :: l)) d = c.
Proof.
  simpl. induction (rev l) as [|a r IH]; [reflexivity|].
  rewrite <- app_comm_cons. destruct r; [reflexivity|]. exact IH.
Qed.

Lemma rev_head_last {A} (l : list A) (c : A) (r : list A) :
  rev l = c :: r -> exists d, l <> [] /\ last l d = c.
Proof.
  intro E. exists c. split.
  - intro H. subst. discriminate.
  - rewrite <- (rev_involutive l). rewrite E. apply last_rev_cons.
Qed.

Lemma strip_ok_ends (x : str) : ok_ends (strip x).
Proof.
  unfold strip, rstrip.
  set (y := lstrip x).
  pose proof (lstrip_head x) as Hy. fold y in Hy.
  destruct (lstrip_suffix (rev y)) as [pre Epre].
  pose proof (lstrip_head (rev y)) as Hz.
  destruct (lstrip (rev y)) as [|c z] eqn:Ez; [exact I|].
  (* strip x = rev (c :: z); its last element is c *)
  destruct (rev (c :: z)) as [|h t] eqn:Er.
  { simpl in Er. destruct (rev z); discriminate. }
  split.
  - (* the head of rev (c :: z) is the last of rev y, i.e. the head of y *)
    assert (Hrev : rev y = pre ++ c :: z) by exact Epre.
    assert (Ey : y = rev z ++ c :: rev pre).
    { rewrite <- (rev_involutive y), Hrev. rewrite rev_app_distr. simpl.
      rewrite <- app_assoc. reflexivity. }
    simpl in Er.
    destruct (rev z) as [|h' t'] eqn:Ez'.
    + simpl in Er. injection Er as <- _. rewrite Ey in Hy. exact Hy.
    + rewrite <- app_comm_cons in Er. injection Er as <- _.
      rewrite Ey in Hy. exact Hy.
  - rewrite <- Er. rewrite last_rev_cons. exact Hz.
Qed.

Lemma strip_of_ok_ends (x : str) : ok_ends x -> strip x = x.
Proof.
  intro H. unfold strip, rstrip.
  rewrite (lstrip_nospace x) by (destruct x; [exact I|apply H]).
  destruct x as [|c x]; [reflexivity|].
  destruct H as [H1 H2].
  rewrite lstrip_nospace; [apply rev_involutive|].
  destruct (rev (c :: x)) as [|h t] eqn:E; [exact I|].
  destruct (rev_head_last _ _ _ E) as [d [_ Hl]].
  rewrite <- Hl.
  replace (last (c :: x) d) with (last (c :: x) c); [exact H2|].
  destruct x as [|a x]; [simpl in E; injection E as <- _; reflexivity|].
  clear. revert a. induction x as [|b x IH]; intro a; [reflexivity|].
  simpl in IH |- *. apply IH.
Qed.

Lemma strip_idem (x : str) : strip (strip x) = strip x.
Proof. apply strip_of_ok_ends, strip_ok_ends. Qed.

Lemma last_cons_default {A} (x : A) l (d1 d2 : A) :
  last (x :: l) d1 = last (x :: l) d2.
Proof.
  revert x. induction l as [|y l IH]; intro x; [reflexivity|].
  change (last (y :: l) d1 = last (y :: l) d2). apply IH.
Qed.

Lemma ok_ends_join (a b : str) :
  ok_ends a -> a <> [] -> ok_ends b -> b <> [] -> ok_ends (a ++ lit " " ++ b).
Proof.
  destruct a as [|c a]; [congruence|]. destruct b as [|d b]; [congruence|].
  intros [Ha1 Ha2] _ [Hb1 Hb2] _.
  replace ((c :: a) ++ lit " " ++ d :: b) with (((c :: a) ++ [" "%char]) ++ d :: b)
    by (rewrite <- app_assoc; reflexivity).
  destruct a; (split; [exact Ha1|]); rewrite last_app_cons;
    rewrite (last_cons_default d b _ d); exact Hb2.
Qed.

(** ** Natural breaks survive extending the new text *)

Lemma is_prefix_app (p x r : str) : is_prefix p x = true -> is_prefix p (x ++ r) = true.
Proof.
  revert x. induction p as [|a p IH]; intros x H; [reflexivity|].
  destruct x as [|b x]; [discriminate|].
  simpl in H |- *. apply andb_true_iff in H as [H1 H2].
  rewrite H1. apply IH. exact H2.
Qed.

Lemma contains_app (p x r : str) : contains p x = true -> contains p (x ++ r) = true.
Proof.
  induction x as [|a x IH]; intro H.
  - simpl in H. apply orb_true_iff in H as [H|H]; [|discriminate].
    destruct p; [destruct r; reflexivity|discriminate].
  - simpl in H |- *. apply orb_true_iff in H as [H|H].
    + pose proof (is_prefix_app _ _ r H) as H'. simpl in H'. rewrite H'. reflexivity.
    + rewrite (IH H). apply orb_true_r.
Qed.

Lemma natural_break_app (a ft r : str) :
  natural_break a ft = true -> natural_break a (ft ++ r) = true.
Proof.
  unfold natural_break. intro H.
  apply orb_true_iff in H as [H|H]; [apply orb_true_iff in H as [H|H]|].
  - rewrite H. reflexivity.
  - apply existsb_exists in H as [d [Hd Hp]].
    apply orb_true_iff. left. apply orb_true_iff. right.
    apply existsb_exists. exists d. split; [exact Hd|]. apply is_prefix_app. exact Hp.
  - apply existsb_exists in H as [ph [Hph Hc]].
    apply orb_true_iff. right.
    apply existsb_exists. exists ph. split; [exact Hph|].
    unfold py_prefix, lower in *. rewrite map_app, firstn_app.
    apply contains_app. exact Hc.
Qed.

Lemma Sorted_snoc {A} (R : A -> A -> Prop) (l : list A) (e : A) :
  Sorted R l -> (forall pre a, l = pre ++ [a] -> R a e) -> Sorted R (l ++ [e]).
Proof.
  induction l as [|a l IH]; intros Hs He.
  - constructor; constructor.
  - inversion Hs as [|? ? Hs' Hhd]; subst. simpl. constructor.
    + apply IH; [exact Hs'|]. intros pre b E. apply (He (a :: pre)). rewrite E. reflexivity.
    + destruct l as [|b l].
      * constructor. apply (He []). reflexivity.
      * constructor. inversion Hhd. assumption.
Qed.

Section Merge.

Variables min_duration max_duration : Q.
Hypothesis Hmin : (1 <= min_duration)%Q.

(** An emitted chunk: at least 1 second long, stripped, non-empty text. *)
Definition seg_ok (s : segment) : Prop :=
  (1 <= end_ s - start s)%Q /\ ok_ends (text s) /\ text s <> [].

(** A segment taken as the current chunk. *)
Definition chunk_seg (s : segment) : chunk := mkchunk (start s) (end_ s) (text s) 1.

(** Two adjacent segments that the chunking loop keeps apart. *)
Definition split_ok (a b : segment) : Prop :=
  should_extend min_duration max_duration (chunk_seg a) (end_ b) (text b) = false.

(** Non-decreasing starts and ends. *)
Definition nondecr (a b : segment) : Prop :=
  (start a <= start b)%Q /\ (end_ a <= end_ b)%Q.

(** What the chunk split of the past guarantees about the last emitted
    chunk [a] and the current chunk [c]: the first segment of [c] (end
    [fe], text [ft]) was kept apart from [a]. *)
Definition sep (a : segment) (c : chunk) : Prop :=
  exists fe ft, (fe <= c_end c)%Q /\ (exists r, c_text c = ft ++ r) /\
    ((max_duration < fe - start a)%Q \/
     ((min_duration <= end_ a - start a)%Q /\ natural_break (text a) ft = true)).

Definition merge_inv (out : list segment) (cur : option chunk)
           (rest : list segment) : Prop :=
  Forall seg_ok out /\ Sorted split_ok out /\ StronglySorted nondecr rest /\
  match cur with
  | None => out = []
  | Some c =>
      ok_ends (c_text c) /\ c_text c <> [] /\
      Forall (fun s => c_start c <= start s /\ c_end c <= end_ s)%Q rest /\
      (forall pre a, out = pre ++ [a] -> sep a c /\ (start a <= c_start c)%Q)
  end.

Definition finish (st : list segment * option chunk) : list segment :=
  let (merged, current) := st in
  match current with Some c => emit_chunk merged c | None => merged end.

Lemma sep_split_ok (a : segment) (c : chunk) :
  sep a c -> split_ok a (mkseg (c_start c) (c_end c) (c_text c)).
Proof.
  intros [fe [ft [Hfe [[r Hr] Hd]]]].
  unfold split_ok, should_extend, chunk_seg. simpl.
  destruct (Qlt_bool max_duration (c_end c - start a)) eqn:E1; [reflexivity|].
  destruct Hd as [Hd|[Hd Hb]].
  - exfalso. assert (Hlt : (max_duration < c_end c - start a)%Q) by lra.
    apply Qlt_bool_iff in Hlt. congruence.
  - rewrite (proj2 (Qle_bool_iff _ _) Hd). rewrite Hr.
    rewrite natural_break_app by exact Hb. reflexivity.
Qed.

Lemma emit_chunk_inv (out : list segment) (c : chunk) :
  Forall seg_ok out -> Sorted split_ok out ->
  ok_ends (c_text c) -> c_text c <> [] ->
  (forall pre a, out = pre ++ [a] -> sep a c /\ (start a <= c_start c)%Q) ->
  Forall seg_ok (emit_chunk out c) /\ Sorted split_ok (emit_chunk out c) /\
  ((1 <= c_end c - c_start c)%Q ->
     emit_chunk out c = out ++ [mkseg (c_start c) (c_end c) (c_text c)]) /\
  (~ (1 <= c_end c - c_start c)%Q -> emit_chunk out c = out).
Proof.
  intros Hf Hs Hok Hne Hlast. unfold emit_chunk.
  rewrite (strip_of_ok_ends _ Hok).
  destruct (Qle_bool 1 (c_end c - c_start c)) eqn:E.
  - apply Qle_bool_iff in E. repeat split.
    + apply Forall_app. split; [exact Hf|]. constructor; [|constructor].
      split; [exact E|]. split; assumption.
    + apply Sorted_snoc; [exact Hs|]. intros pre a Ea.
      apply sep_split_ok. apply (Hlast pre a Ea).
    + intro H. exfalso. exact (H E).
  - repeat split; try assumption.
    + intro H. apply Qle_bool_iff in H. congruence.
Qed.

Lemma new_text_eq (ct t : str) :
  match ct with
  | [] => ct ++ lit " " ++ t
  | _ => if existsb (fun p => Ascii.eqb (last ct " "%char) p)
                    ["."; ","; "!"; "?"; ";"; ":"]%char
         then ct ++ lit " " ++ t
         else ct ++ lit " " ++ t
  end = ct ++ lit " " ++ t.
Proof. destruct ct; [|destruct existsb]; reflexivity. Qed.

Lemma merge_step_inv (out : list segment) (cur : option chunk) (s : segment)
      (rest out' : list segment) (cur' : option chunk) :
  merge_inv out cur (s :: rest) ->
  merge_step min_duration max_duration (out, cur) s = (out', cur') ->
  merge_inv out' cur' rest.
Proof.
  intros [Hf [Hs [Hss Hc]]] Hstep.
  apply StronglySorted_inv in Hss as [Hss Hfs].
  unfold merge_step in Hstep. cbv beta iota zeta in Hstep.
  pose proof (strip_ok_ends (text s)) as Hokt.
  destruct (strip (text s)) as [|x xs] eqn:Et.
  - (* blank segment: state unchanged *)
    injection Hstep as <- <-. split; [exact Hf|]. split; [exact Hs|].
    split; [exact Hss|]. destruct cur as [c|]; [|exact Hc].
    destruct Hc as [Hok [Hne [Hfr Hl]]]. inversion Hfr; subst.
    split; [exact Hok|]. split; [exact Hne|]. split; [assumption|exact Hl].
  - destruct cur as [c|].
    + destruct Hc as [Hok [Hne [Hfr Hl]]].
      inversion Hfr as [|? ? [Hcs Hce] Hfr']; subst.
      destruct (should_extend min_duration max_duration c (end_ s) (x :: xs)) eqn:Ee.
      * (* extend the current chunk *)
        rewrite new_text_eq in Hstep. injection Hstep as <- <-.
        split; [exact Hf|]. split; [exact Hs|]. split; [exact Hss|]. simpl.
        split; [apply ok_ends_join; [exact Hok|exact Hne|exact Hokt|discriminate]|].
        split; [destruct (c_text c); discriminate|].
        split.
        -- apply Forall_forall. intros r Hr.
           rewrite Forall_forall in Hfr', Hfs.
           destruct (Hfr' r Hr) as [H1 _]. destruct (Hfs r Hr) as [_ H2]. split; assumption.
        -- intros pre a Ea. destruct (Hl pre a Ea) as [[fe [ft [Hfe [[r Hr] Hd]]]] Ha].
           split; [|exact Ha]. exists fe, ft. split; [simpl; lra|].
           split; [|exact Hd]. exists (r ++ lit " " ++ x :: xs). simpl.
           rewrite Hr, <- app_assoc. reflexivity.
      * (* finalize the current chunk and start a new one *)
        injection Hstep as <- <-.
        destruct (emit_chunk_inv out c Hf Hs Hok Hne Hl) as [Hf' [Hs' [Hlong Hshort]]].
        split; [exact Hf'|]. split; [exact Hs'|]. split; [exact Hss|]. simpl.
        split; [exact Hokt|]. split; [discriminate|].
        split.
        { apply Forall_forall. intros r Hr. rewrite Forall_forall in Hfs.
          destruct (Hfs r Hr) as [H1 H2]. split; assumption. }
        unfold should_extend in Ee.
        destruct (Qle_bool 1 (c_end c - c_start c)) eqn:Ed.
        -- apply Qle_bool_iff in Ed. rewrite (Hlong Ed).
           intros pre a Ea. apply app_inj_tail in Ea as [_ <-]. simpl.
           split; [|exact Hcs].
           exists (end_ s), (x :: xs). split; [apply Qle_refl|].
           split; [exists []; rewrite app_nil_r; reflexivity|].
           destruct (Qlt_bool max_duration (end_ s - c_start c)) eqn:E1.
           ++ left. apply Qlt_bool_iff in E1. exact E1.
           ++ right. destruct (Qle_bool min_duration (c_end c - c_start c)) eqn:E2;
                [|discriminate].
              apply Qle_bool_iff in E2. split; [exact E2|].
              apply negb_false_iff in Ee. exact Ee.
        -- assert (Hd : ~ (1 <= c_end c - c_start c)%Q).
           { intro H. apply Qle_bool_iff in H. congruence. }
           rewrite (Hshort Hd). intros pre a Ea.
           destruct (Hl pre a Ea) as [_ Ha]. split; [|simpl; lra].
           exists (end_ s), (x :: xs). split; [apply Qle_refl|].
           split; [exists []; rewrite app_nil_r; reflexivity|]. left.
           destruct (Qlt_bool max_duration (end_ s - c_start c)) eqn:E1.
           ++ apply Qlt_bool_iff in E1. lra.
           ++ exfalso. destruct (Qle_bool min_duration (c_end c - c_start c)) eqn:E2;
                [|discriminate].
              apply Qle_bool_iff in E2. apply Hd. lra.
    + (* first chunk *)
      injection Hstep as <- <-. subst out.
      split; [constructor|]. split; [constructor|]. split; [exact Hss|]. simpl.
      split; [exact Hokt|]. split; [discriminate|].
      split.
      * apply Forall_forall. intros r Hr. rewrite Forall_forall in Hfs.
        destruct (Hfs r Hr) as [H1 H2]. split; assumption.
      * intros pre a Ea. destruct pre; discriminate.
Qed.

End Merge.

Section MergeFixed.

Variables min_duration max_duration : Q.
Hypothesis Hmin : (1 <= min_duration)%Q.

Local Notation step := (merge_step min_duration max_duration).
Local Notation inv := (merge_inv min_duration max_duration).

Lemma fold_merge_inv (segs out : list segment) (cur : option chunk)
      (out' : list segment) (cur' : option chunk) :
  inv out cur segs -> fold_left step segs (out, cur) = (out', cur') ->
  inv out' cur' [].
Proof.
  revert out cur. induction segs as [|s rest IH]; intros out cur Hi Hf.
  - cbn [fold_left] in Hf. injection Hf as <- <-. exact Hi.
  - cbn [fold_left] in Hf. destruct (step (out, cur) s) as [o c] eqn:E.
    apply (IH o c); [|exact Hf].
    exact (merge_step_inv _ _ Hmin _ _ _ _ _ _ Hi E).
Qed.

Lemma finish_inv (out : list segment) (cur : option chunk) :
  inv out cur [] ->
  Forall seg_ok (finish (out, cur)) /\
  Sorted (split_ok min_duration max_duration) (finish (out, cur)).
Proof.
  intros [Hf [Hs [_ Hc]]]. destruct cur as [c|]; simpl.
  - destruct Hc as [Hok [Hne [_ Hl]]].
    destruct (emit_chunk_inv _ _ out c Hf Hs Hok Hne Hl) as [H1 [H2 _]].
    split; assumption.
  - split; assumption.
Qed.

Lemma merge_short_segments_finish (segs : list segment) :
  segs <> [] ->
  merge_short_segments segs min_duration max_duration =
  finish (fold_left step segs ([], None)).
Proof.
  intro H. destruct segs as [|s segs]; [contradiction|].
  unfold merge_short_segments. destruct (fold_left _ _ _); reflexivity.
Qed.

(** The output of the chunking loop is made of good chunks kept apart. *)
Lemma merge_output_ok (segs : list segment) :
  StronglySorted nondecr segs ->
  Forall seg_ok (merge_short_segments segs min_duration max_duration) /\
  Sorted (split_ok min_duration max_duration)
         (merge_short_segments segs min_duration max_duration).
Proof.
  intro Hss. destruct segs as [|s segs]; [split; constructor|].
  rewrite merge_short_segments_finish by discriminate.
  destruct (fold_left step (s :: segs) ([], None)) as [o c] eqn:E.
  apply finish_inv. apply (fold_merge_inv (s :: segs) [] None); [|exact E].
  split; [constructor|]. split; [constructor|]. split; [exact Hss|reflexivity].
Qed.

Lemma fold_fixed (rest out : list segment) (a : segment) :
  Forall seg_ok (a :: rest) -> Sorted (split_ok min_duration max_duration) (a :: rest) ->
  finish (fold_left step rest (out, Some (chunk_seg a))) = out ++ a :: rest.
Proof.
  revert out a. induction rest as [|b rest IH]; intros out a Hf Hs.
  - apply Forall_cons_iff in Hf as [[Hd [Hok Hne]] _]. simpl. unfold emit_chunk. simpl.
    rewrite (proj2 (Qle_bool_iff _ _) Hd). rewrite (strip_of_ok_ends _ Hok).
    destruct a; reflexivity.
  - pose proof Hf as Hf0. apply Forall_cons_iff in Hf0 as [[Hd [Hok Hne]] Hf'].
    pose proof Hf' as Hf1. apply Forall_cons_iff in Hf1 as [[Hdb [Hokb Hneb]] _].
    apply Sorted_inv in Hs as [Hs' Hhd]. apply HdRel_inv in Hhd as Hab.
    assert (E : step (out, Some (chunk_seg a)) b = (out ++ [a], Some (chunk_seg b))).
    { unfold merge_step. cbv beta iota zeta.
      rewrite (strip_of_ok_ends (text b) Hokb).
      unfold split_ok in Hab.
      destruct (text b) as [|x xs] eqn:Etb; [contradiction|].
      rewrite Hab. unfold emit_chunk.
      unfold chunk_seg. cbn [c_start c_end c_text].
      rewrite (proj2 (Qle_bool_iff _ _) Hd). rewrite (strip_of_ok_ends _ Hok).
      rewrite Etb. destruct a; reflexivity. }
    cbn [fold_left]. rewrite E.
    rewrite IH by assumption. rewrite <- app_assoc. reflexivity.
Qed.

(** A list of good chunks kept apart is a fixed point of the loop. *)
Lemma merge_fixed (m : list segment) :
  m <> [] -> Forall seg_ok m -> Sorted (split_ok min_duration max_duration) m ->
  merge_short_segments m min_duration max_duration = m.
Proof.
  intros Hne Hf Hs. rewrite merge_short_segments_finish by exact Hne.
  destruct m as [|a rest]; [contradiction|].
  pose proof Hf as Hf0. apply Forall_cons_iff in Hf0 as [[Hd [Hok Hnt]] _].
  assert (E : step ([], None) a = ([], Some (chunk_seg a))).
  { unfold merge_step. cbv beta iota zeta. rewrite (strip_of_ok_ends _ Hok).
    unfold chunk_seg. destruct (text a); [contradiction|reflexivity]. }
  cbn [fold_left]. rewrite E.
  apply (fold_fixed rest [] a Hf Hs).
Qed.

End MergeFixed.

Lemma cleanup_aux_fixed (m : list segment) :
  Forall seg_ok m -> forall i valid, cleanup_aux i valid m = valid ++ m.
Proof.
  induction 1 as [|[st en tx] m [Hd [Hok Hne]] Hm IH]; intros i valid.
  - simpl. rewrite app_nil_r. reflexivity.
  - simpl in Hd, Hok, Hne. cbn [cleanup_aux text start end_].
    rewrite (strip_of_ok_ends tx Hok).
    destruct tx as [|x xs]; [contradiction|].
    destruct (Qeq_bool st 0 && Qeq_bool en 0 && (0 <? i)) eqn:E.
    + exfalso. apply andb_true_iff in E as [E _]. apply andb_true_iff in E as [E1 E2].
      apply Qeq_bool_iff in E1. apply Qeq_bool_iff in E2. lra.
    + rewrite IH. rewrite <- app_assoc. reflexivity.
Qed.

Lemma cleanup_fixed (m : list segment) : Forall seg_ok m -> cleanup m = m.
Proof. intro H. unfold cleanup. rewrite (cleanup_aux_fixed m H). reflexivity. Qed.

Lemma nondecr_trans : Transitive nondecr.
Proof. intros a b c [H1 H2] [H3 H4]. split; lra. Qed.

(** C6 (counterexample): the pipeline of [process] is not idempotent on
    every segment list. On [renorm_input] the blank 98-second fragment
    keeps the average duration above 6 seconds, so the first pass only
    cleans up; the second pass sees two 1-second segments and merges them
    into one chunk. *)
Lemma process_segments_not_idempotent :
  process_segments renorm_input = [mkseg 0 1 (lit "a"); mkseg 1 2 (lit "b")] /\
  process_segments (process_segments renorm_input) = [mkseg 0 2 (lit "a b")].
Proof. split; vm_compute; reflexivity. Qed.

(** ** Shape of the chunking loop's output *)

Definition nonblank (s : segment) : bool :=
  match strip (text s) with [] => false | _ => true end.

Definition seg_span (s : segment) : Q * Q := (start s, end_ s).

(** The time span of a group of consecutive segments. *)
Definition group_span (g : list segment) : Q * Q :=
  match g with [] => (0, 0)%Q | s :: _ => (start s, end_ (last g s)) end.

Definition long (g : list segment) : bool :=
  Qle_bool 1 (snd (group_span g) - fst (group_span g))%Q.

(** Timestamps in order: each segment starts no later than it ends, and
    ends no later than the next one starts. *)
Definition chained (segs : list segment) : Prop :=
  Forall (fun s => start s <= end_ s)%Q segs /\
  Sorted (fun a b => end_ a <= start b)%Q segs.

Definition before (a b : segment) : Prop := (end_ a <= start b)%Q.

Lemma merge_step_cases (mn mx : Q) (out : list segment) (cur : option chunk) (s : segment) :
  (strip (text s) = [] /\ merge_step mn mx (out, cur) s = (out, cur)) \/
  (strip (text s) <> [] /\
   ((cur = None /\
     merge_step mn mx (out, cur) s = (out, Some (mkchunk (start s) (end_ s) (strip (text s)) 1))) \/
    (exists c, cur = Some c /\ should_extend mn mx c (end_ s) (strip (text s)) = true /\
       merge_step mn mx (out, cur) s =
       (out, Some (mkchunk (c_start c) (end_ s) (c_text c ++ lit " " ++ strip (text s))
                           (S (c_count c))))) \/
    (exists c, cur = Some c /\ should_extend mn mx c (end_ s) (strip (text s)) = false /\
       merge_step mn mx (out, cur) s =
       (emit_chunk out c, Some (mkchunk (start s) (end_ s) (strip (text s)) 1))))).
Proof.
  unfold merge_step. cbv beta iota zeta.
  destruct (strip (text s)) as [|x xs]; [left; split; reflexivity|].
  right. split; [discriminate|]. destruct cur as [c|].
  - destruct (should_extend mn mx c (end_ s) (x :: xs)) eqn:E.
    + right. left. exists c. split; [reflexivity|]. split; [exact E|].
      rewrite new_text_eq. reflexivity.
    + right. right. exists c. repeat split; [exact E].
  - left. split; reflexivity.
Qed.

Lemma emit_chunk_cases (out : list segment) (c : chunk) :
  ((1 <= c_end c - c_start c)%Q /\
   emit_chunk out c = out ++ [mkseg (c_start c) (c_end c) (strip (c_text c))]) \/
  (~ (1 <= c_end c - c_start c)%Q /\ emit_chunk out c = out).
Proof.
  unfold emit_chunk. destruct (Qle_bool 1 (c_end c - c_start c)) eqn:E.
  - left. apply Qle_bool_iff in E. split; [exact E|reflexivity].
  - right. split; [|reflexivity]. intro H. apply Qle_bool_iff in H. congruence.
Qed.

Lemma group_span_snoc (g : list segment) (s : segment) :
  g <> [] -> group_span (g ++ [s]) = (fst (group_span g), end_ s).
Proof.
  destruct g as [|h g]; [contradiction|]. intros _. unfold group_span. cbn [app fst].
  rewrite app_comm_cons, last_last. reflexivity.
Qed.

(** Order and durations along the loop. *)
Definition order_inv (out : list segment) (cur : option chunk) (rest : list segment) : Prop :=
  Forall (fun s => 1 <= end_ s - start s)%Q out /\ Sorted before out /\
  Forall (fun s => start s <= end_ s)%Q rest /\ StronglySorted before rest /\
  match cur with
  | None => out = []
  | Some c =>
      (c_start c <= c_end c)%Q /\ Forall (fun r => c_end c <= start r)%Q rest /\
      (forall pre a, out = pre ++ [a] -> (end_ a <= c_start c)%Q)
  end.

(** Partition of the non-blank segments seen so far into groups: the
    emitted chunks are the spans of the groups lasting at least 1 second,
    and the current chunk spans the open group. *)
Definition part_inv (seen : list segment) (out : list segment) (cur : option chunk) : Prop :=
  exists groups,
    Forall (fun g => g <> []) groups /\
    map seg_span out = map group_span (filter long groups) /\
    match cur with
    | None => groups = [] /\ filter nonblank seen = []
    | Some c => exists g, g <> [] /\ concat groups ++ g = filter nonblank seen /\
                          group_span g = (c_start c, c_end c)
    end.

Lemma emit_order (out : list segment) (c : chunk) (e : Q) :
  Forall (fun s => 1 <= end_ s - start s)%Q out -> Sorted before out ->
  (forall pre a, out = pre ++ [a] -> (end_ a <= c_start c)%Q) ->
  (c_start c <= c_end c)%Q -> (c_end c <= e)%Q ->
  Forall (fun s => 1 <= end_ s - start s)%Q (emit_chunk out c) /\
  Sorted before (emit_chunk out c) /\
  (forall pre a, emit_chunk out c = pre ++ [a] -> (end_ a <= e)%Q).
Proof.
  intros Hf Hs Hl Hc He.
  destruct (emit_chunk_cases out c) as [[Hd ->]|[Hd ->]].
  - split; [apply Forall_app; split; [exact Hf|constructor; [exact Hd|constructor]]|].
    split.
    + apply Sorted_snoc; [exact Hs|]. intros pre a Ea. exact (Hl pre a Ea).
    + intros pre a Ea. apply app_inj_tail in Ea as [_ <-]. exact He.
  - split; [exact Hf|]. split; [exact Hs|].
    intros pre a Ea. specialize (Hl pre a Ea). lra.
Qed.

Lemma order_step (mn mx : Q) (out : list segment) (cur : option chunk) (s : segment)
      (rest out' : list segment) (cur' : option chunk) :
  order_inv out cur (s :: rest) ->
  merge_step mn mx (out, cur) s = (out', cur') -> order_inv out' cur' rest.
Proof.
  intros [Hf [Hs [Hr [Hss Hc]]]] Hstep.
  apply Forall_cons_iff in Hr as [Hse Hr].
  apply StronglySorted_inv in Hss as [Hss Hbs].
  assert (Hbs' : Forall (fun r => end_ s <= start r)%Q rest) by exact Hbs.
  destruct (merge_step_cases mn mx out cur s)
    as [[_ E]|[_ [[-> E]|[[c [-> [_ E]]]|[c [-> [_ E]]]]]]];
    rewrite E in Hstep; injection Hstep as <- <-.
  - do 4 (split; [assumption|]). destruct cur as [c|]; [|exact Hc].
    destruct Hc as [H1 [H2 H3]]. apply Forall_cons_iff in H2 as [_ H2].
    split; [exact H1|]. split; [exact H2|exact H3].
  - do 4 (split; [assumption|]). simpl. split; [exact Hse|]. split; [exact Hbs'|].
    subst out. intros pre a Ea. destruct pre; discriminate.
  - destruct Hc as [H1 [H2 H3]]. apply Forall_cons_iff in H2 as [H2 _].
    do 4 (split; [assumption|]). simpl. split; [lra|]. split; [exact Hbs'|exact H3].
  - destruct Hc as [H1 [H2 H3]]. apply Forall_cons_iff in H2 as [H2 _].
    destruct (emit_order out c (start s) Hf Hs H3 H1 H2) as [Hf' [Hs' Hl']].
    do 2 (split; [assumption|]). split; [exact Hr|]. split; [exact Hss|]. simpl.
    split; [exact Hse|]. split; [exact Hbs'|exact Hl'].
Qed.

Lemma order_fold (mn mx : Q) (segs out : list segment) (cur : option chunk)
      (out' : list segment) (cur' : option chunk) :
  order_inv out cur segs -> fold_left (merge_step mn mx) segs (out, cur) = (out', cur') ->
  order_inv out' cur' [].
Proof.
  revert out cur. induction segs as [|s rest IH]; intros out cur Hi Hf.
  - cbn [fold_left] in Hf. injection Hf as <- <-. exact Hi.
  - cbn [fold_left] in Hf. destruct (merge_step mn mx (out, cur) s) as [o c] eqn:E.
    apply (IH o c); [|exact Hf]. exact (order_step mn mx _ _ _ _ _ _ Hi E).
Qed.

Lemma order_finish (out : list segment) (cur : option chunk) :
  order_inv out cur [] ->
  Forall (fun s => 1 <= end_ s - start s)%Q (finish (out, cur)) /\
  Sorted before (finish (out, cur)).
Proof.
  intros [Hf [Hs [_ [_ Hc]]]]. destruct cur as [c|]; simpl.
  - destruct Hc as [H1 [_ H3]].
    destruct (emit_order out c (c_end c) Hf Hs H3 H1 (Qle_refl _)) as [Hf' [Hs' _]].
    split; assumption.
  - split; assumption.
Qed.

Lemma part_step (mn mx : Q) (seen out : list segment) (cur : option chunk) (s : segment)
      (out' : list segment) (cur' : option chunk) :
  part_inv seen out cur ->
  merge_step mn mx (out, cur) s = (out', cur') -> part_inv (seen ++ [s]) out' cur'.
Proof.
  intros [groups [Hne [Hmap Hc]]] Hstep.
  destruct (merge_step_cases mn mx out cur s)
    as [[Hb E]|[Hb [[-> E]|[[c [-> [_ E]]]|[c [-> [_ E]]]]]]];
    rewrite E in Hstep; injection Hstep as <- <-.
  - assert (Hn : nonblank s = false) by (unfold nonblank; rewrite Hb; reflexivity).
    exists groups. split; [exact Hne|]. split; [exact Hmap|].
    rewrite filter_app. simpl. rewrite Hn, app_nil_r. exact Hc.
  - assert (Hn : nonblank s = true)
      by (unfold nonblank; destruct (strip (text s)); [contradiction|reflexivity]).
    destruct Hc as [-> Hseen].
    exists []. split; [constructor|]. split; [exact Hmap|].
    exists [s]. split; [discriminate|].
    split; [rewrite filter_app, Hseen; simpl; rewrite Hn; reflexivity|reflexivity].
  - assert (Hn : nonblank s = true)
      by (unfold nonblank; destruct (strip (text s)); [contradiction|reflexivity]).
    destruct Hc as [g [Hg [Hcat Hspan]]].
    exists groups. split; [exact Hne|]. split; [exact Hmap|].
    exists (g ++ [s]). split; [destruct g; discriminate|].
    split; [rewrite filter_app, <- Hcat, app_assoc; simpl; rewrite Hn; reflexivity|].
    rewrite group_span_snoc by exact Hg. rewrite Hspan. reflexivity.
  - assert (Hn : nonblank s = true)
      by (unfold nonblank; destruct (strip (text s)); [contradiction|reflexivity]).
    destruct Hc as [g [Hg [Hcat Hspan]]].
    exists (groups ++ [g]). split; [apply Forall_app; split; [exact Hne|constructor; [exact Hg|constructor]]|].
    split.
    + rewrite filter_app, map_app, <- Hmap. simpl.
      assert (Hl : long g = Qle_bool 1 (c_end c - c_start c)%Q)
        by (unfold long; rewrite Hspan; reflexivity).
      rewrite Hl. unfold emit_chunk.
      destruct (Qle_bool 1 (c_end c - c_start c)%Q); simpl.
      * rewrite map_app. simpl. unfold seg_span at 2. simpl. rewrite Hspan. reflexivity.
      * rewrite app_nil_r. reflexivity.
    + exists [s]. split; [discriminate|].
      split; [|reflexivity].
      rewrite filter_app, concat_app, <- Hcat. simpl. rewrite Hn. simpl.
      rewrite ?app_nil_r, <- ?app_assoc. reflexivity.
Qed.

Lemma part_fold (mn mx : Q) (segs seen out : list segment) (cur : option chunk)
      (out' : list segment) (cur' : option chunk) :
  part_inv seen out cur -> fold_left (merge_step mn mx) segs (out, cur) = (out', cur') ->
  part_inv (seen ++ segs) out' cur'.
Proof.
  revert seen out cur. induction segs as [|s rest IH]; intros seen out cur Hi Hf.
  - cbn [fold_left] in Hf. injection Hf as <- <-. rewrite app_nil_r. exact Hi.
  - cbn [fold_left] in Hf. destruct (merge_step mn mx (out, cur) s) as [o c] eqn:E.
    replace (seen ++ s :: rest) with ((seen ++ [s]) ++ rest) by (rewrite <- app_assoc; reflexivity).
    apply (IH _ o c); [|exact Hf]. exact (part_step mn mx _ _ _ _ _ _ Hi E).
Qed.

Lemma part_finish (seen out : list segment) (cur : option chunk) :
  part_inv seen out cur ->
  exists groups, Forall (fun g => g <> []) groups /\
    concat groups = filter nonblank seen /\
    map seg_span (finish (out, cur)) = map group_span (filter long groups).
Proof.
  intros [groups [Hne [Hmap Hc]]]. destruct cur as [c|]; simpl.
  - destruct Hc as [g [Hg [Hcat Hspan]]].
    exists (groups ++ [g]). split; [apply Forall_app; split; [exact Hne|constructor; [exact Hg|constructor]]|].
    split; [rewrite concat_app; simpl; rewrite app_nil_r; exact Hcat|].
    rewrite filter_app, map_app, <- Hmap. simpl.
    assert (Hl : long g = Qle_bool 1 (c_end c - c_start c)%Q)
      by (unfold long; rewrite Hspan; reflexivity).
    rewrite Hl. unfold emit_chunk.
    destruct (Qle_bool 1 (c_end c - c_start c)%Q); simpl.
    + rewrite map_app. simpl. unfold seg_span at 2. simpl. rewrite Hspan. reflexivity.
    + rewrite app_nil_r. reflexivity.
  - destruct Hc as [-> Hseen]. exists []. split; [constructor|].
    split; [symmetry; exact Hseen|exact Hmap].
Qed.

Lemma chained_start_bound (l : list segment) (x : Q) :
  chained l -> (forall b l', l = b :: l' -> x <= start b)%Q ->
  Forall (fun r => x <= start r)%Q l.
Proof.
  revert x. induction l as [|b l IH]; intros x [Hf Hs] Hh; [constructor|].
  specialize (Hh b l eq_refl). apply Forall_cons_iff in Hf as [Hb Hf].
  apply Sorted_inv in Hs as [Hs Hhd].
  constructor; [exact Hh|].
  assert (Hl : Forall (fun r => end_ b <= start r)%Q l).
  { apply (IH (end_ b)); [split; assumption|].
    intros c l' ->. apply HdRel_inv in Hhd. exact Hhd. }
  apply Forall_forall. intros r Hr.
  rewrite Forall_forall in Hl. specialize (Hl r Hr). lra.
Qed.

Lemma chained_strongly (segs : list segment) : chained segs -> StronglySorted before segs.
Proof.
  induction segs as [|a l IH]; intros [Hf Hs]; [constructor|].
  apply Forall_cons_iff in Hf as [_ Hf]. apply Sorted_inv in Hs as [Hs Hhd].
  constructor; [apply IH; split; assumption|].
  apply (chained_start_bound l (end_ a)); [split; assumption|].
  intros b l' ->. apply HdRel_inv in Hhd. exact Hhd.
Qed.

(** C10: for every input segment list whose timestamps are in order (each
    segment starts no later than it ends and ends no later than the next
    one starts), every chunk emitted by the chunking loop lasts at least
    1 second, the chunks are ordered and do not overlap, and the non-blank
    input segments split into consecutive groups such that the chunks are
    exactly the spans (first start, last end) of the groups lasting at
    least 1 second: the chunks cover the input's time extent minus the
    dropped fragments. *)
Theorem merge_short_segments_chunks (segs : list segment) (min_duration max_duration : Q) :
  chained segs ->
  let out := merge_short_segments segs min_duration max_duration in
  Forall (fun s => 1 <= end_ s - start s)%Q out /\ Sorted before out /\
  exists groups, Forall (fun g => g <> []) groups /\
    concat groups = filter nonblank segs /\
    map seg_span out = map group_span (filter long groups).
Proof.
  intros Hch out. subst out.
  destruct segs as [|s segs].
  - split; [constructor|]. split; [constructor|].
    exists []. split; [constructor|]. split; reflexivity.
  - rewrite merge_short_segments_finish by discriminate.
    destruct (fold_left (merge_step min_duration max_duration) (s :: segs) ([], None))
      as [o c] eqn:E.
    destruct (order_finish o c) as [Hf Hs].
    { apply (order_fold min_duration max_duration (s :: segs) [] None); [|exact E].
      split; [constructor|]. split; [constructor|].
      split; [exact (proj1 Hch)|]. split; [exact (chained_strongly _ Hch)|reflexivity]. }
    split; [exact Hf|]. split; [exact Hs|].
    apply part_finish.
    apply (part_fold min_duration max_duration (s :: segs) [] [] None); [|exact E].
    exists []. split; [constructor|]. split; [reflexivity|]. split; reflexivity.
Qed.

Definition timed_run : list segment :=
  [mkseg 0 1 (lit "so"); mkseg 1 2 (lit "we begin."); mkseg 2 3 (lit "  "); mkseg 3 30 (lit "and then more")].

Lemma merge_short_segments_chunks_witness :
  chained timed_run /\
  (let out := merge_short_segments timed_run 8 20 in
   Forall (fun s => 1 <= end_ s - start s)%Q out /\ Sorted before out /\
   exists groups, Forall (fun g => g <> []) groups /\
     concat groups = filter nonblank timed_run /\
     map seg_span out = map group_span (filter long groups)).
Proof.
  assert (H : chained timed_run).
  { split; repeat constructor; unfold before, Qle; simpl; lia. }
  split; [exact H|]. apply (merge_short_segments_chunks timed_run 8 20 H).
Defined.

(* ------------------------------------------------------------------ *)
(** ** C3 *)

(** C3 (counterexample): the source lasts 10 s and the request is 5 s to
    9.95 s with no padding. The padded end, 9.95 s, does not exceed 10 s,
    so it is not clamped, and ffmpeg is invoked with [-ss 5 -t 4.95]. The
    clip then ends at 9.95 s, past D - 0.1 = 9.9 s. *)
Lemma extract_single_clip_past_epsilon :
  extract_single_clip (ProbeOut (Some 10%Q)) true 5 (995#100) 0 =
    (Some (5%Q, 495#100), true) /\
  (10 - (1#10) < 5 + (495#100))%Q.
Proof. split; vm_compute; reflexivity. Qed.

(** C3 (amended): when the probe reports a source duration D, an ffmpeg
    invocation starts at [max(0, start - padding)] and has a positive
    duration. Its end is the padded end [end + padding] when that is at
    most D, and D - 0.1 otherwise, so it never lies beyond D itself. When
    the computed duration is at most 0, the extractor returns failure
    without invoking ffmpeg. Without an invocation it returns failure. *)
Theorem extract_single_clip_end_bound (D : Q) (ffmpeg_ok : bool) (start end_t padding : Q) :
  let r := extract_single_clip (ProbeOut (Some D)) ffmpeg_ok start end_t padding in
  (forall ss t, fst r = Some (ss, t) ->
     ss = Qmax 0 (start - padding) /\ (0 < t)%Q /\ (ss + t <= D)%Q /\
     ((end_t + padding <= D)%Q -> (ss + t == end_t + padding)%Q) /\
     ((D < end_t + padding)%Q -> (ss + t == D - (1#10))%Q)) /\
  (fst r = None -> snd r = false) /\
  ((probe_clamp (ProbeOut (Some D)) (end_t + padding) - Qmax 0 (start - padding) <= 0)%Q ->
   r = (None, false)).
Proof.
  intro r. subst r. unfold extract_single_clip.
  set (ps := Qmax 0 (start - padding)).
  set (pe := probe_clamp (ProbeOut (Some D)) (end_t + padding)).
  assert (Hpe : (pe <= D)%Q /\ ((end_t + padding <= D)%Q -> pe = (end_t + padding)%Q) /\
                ((D < end_t + padding)%Q -> pe = (D - (1#10))%Q)).
  { unfold pe, probe_clamp. destruct (Qlt_bool D (end_t + padding)) eqn:E.
    - apply Qlt_bool_iff in E. split; [lra|]. split; [intro; lra|reflexivity].
    - assert (Hn : ~ (D < end_t + padding)%Q)
        by (intro H; apply Qlt_bool_iff in H; congruence).
      split; [apply Qnot_lt_le; exact Hn|]. split; [reflexivity|intro; contradiction]. }
  destruct Hpe as [Hpe [Hle Hgt]].
  destruct (Qle_bool (pe - ps) 0) eqn:E2.
  - apply Qle_bool_iff in E2. split; [intros ss t H; discriminate|].
    split; intros; reflexivity.
  - assert (Hpos : ~ (pe - ps <= 0)%Q) by (intro H; apply Qle_bool_iff in H; congruence).
    apply Qnot_le_lt in Hpos.
    split; [|split; [intro H; discriminate|intro H; exfalso; lra]].
    intros ss t H. injection H as <- <-.
    split; [reflexivity|]. split; [lra|]. split; [lra|].
    split; intro H; [rewrite (Hle H)|rewrite (Hgt H)]; ring.
Qed.

(* ------------------------------------------------------------------ *)
(** ** C8 *)

Lemma Qnat_le (p t : nat) : (p <= t)%nat -> (Qnat p <= Qnat t)%Q.
Proof. intro H. unfold Qnat. rewrite <- Zle_Qle. lia. Qed.

Lemma filter_length_le' {A} (f : A -> bool) (l : list A) : (length (filter f l) <= length l)%nat.
Proof. induction l as [|a l IH]; simpl; [lia|]. destruct (f a); simpl; lia. Qed.

(** A strategy whose prior weight is below 0.5 never passes: the checks
    can only scale the weight down. *)
Lemma verify_below_half (dur : dprobe) (audio : option bool) (file_size : option Z)
      (strategy_name : str) :
  (0 <= base_confidence_of strategy_name)%Q -> (base_confidence_of strategy_name < 1#2)%Q ->
  likely_contains_quote (verify_clip_contains_quote dur audio file_size strategy_name) = false.
Proof.
  intros H0 H1. destruct dur as [o|]; [|reflexivity]. unfold verify_clip_contains_quote.
  cbv zeta.
  destruct (Qlt_bool 0 match o with Some d => d | None => 0%Q end); [|reflexivity].
  set (base := base_confidence_of strategy_name) in *.
  set (l := [Qle_bool 2 match o with Some d => d | None => 0%Q end] ++
            match audio with Some has_audio => [has_audio] | None => [] end ++
            match file_size with Some z => [Z.ltb 100000 z] | None => [] end).
  assert (Hfin : ((if 0 <? length l
                   then base * (Qnat (length (filter (fun b => b) l)) / Qnat (length l))
                   else base) <= base)%Q).
  { destruct (0 <? length l) eqn:E; [|apply Qle_refl].
    apply Nat.ltb_lt in E.
    set (x := (Qnat (length (filter (fun b => b) l)) / Qnat (length l))%Q).
    assert (Ht : (0 < Qnat (length l))%Q).
    { unfold Qnat. change 0%Q with (inject_Z 0). rewrite <- Zlt_Qlt. lia. }
    assert (Hx1 : (x <= 1)%Q).
    { unfold x. apply Qle_shift_div_r; [exact Ht|].
      rewrite Qmult_1_l. apply Qnat_le. apply filter_length_le'. }
    assert (Hm : (0 <= base * (1 - x))%Q) by (apply Qmult_le_0_compat; lra).
    assert (Hring : (base * (1 - x) == base - base * x)%Q) by ring.
    lra. }
  set (f := (if 0 <? length l
             then base * (Qnat (length (filter (fun b => b) l)) / Qnat (length l))
             else base)%Q) in *.
  simpl. destruct (Qle_bool (1#2) f) eqn:E; [|reflexivity].
  apply Qle_bool_iff in E. lra.
Qed.

Lemma late_priors :
  (0 <= base_confidence_of (lit "Large buffer") < 1#2)%Q /\
  (0 <= base_confidence_of (lit "Extended search") < 1#2)%Q.
Proof. vm_compute. repeat split; discriminate. Qed.

Lemma try_strategies_verified (w : world) (start end_t : Q) (output_path : str) (padding : Q) :
  forall ss i trace tr nm a b c d e,
  try_strategies w start end_t output_path padding i ss trace = (tr, Some (Verified nm a b c d e)) ->
  exists st, In st ss /\ nm = name st /\
    exists path, likely_contains_quote
      (verify_clip_contains_quote (clip_duration w path) (clip_audio w path)
                                  (clip_size w path) (name st)) = true.
Proof.
  induction ss as [|st rest IH]; intros i trace tr nm a b c d e H; [discriminate|].
  cbn [try_strategies] in H.
  destruct (negb _); [apply IH in H as [st' [Hin Hrest]]; exists st'; split; [right; exact Hin|exact Hrest]|].
  destruct (likely_contains_quote _) eqn:Hl.
  - destruct (move_ok _ _ _).
    + injection H as _ <- _ _ _ _ _. exists st. split; [left; reflexivity|].
      split; [reflexivity|]. eexists. exact Hl.
    + apply IH in H as [st' [Hin Hrest]]. exists st'. split; [right; exact Hin|exact Hrest].
  - apply IH in H as [st' [Hin Hrest]]. exists st'. split; [right; exact Hin|exact Hrest].
Qed.

(** C8: verification under the strategies named "Large buffer" and
    "Extended search" never passes, whatever the probes of the clip give:
    their prior weights 0.4 and 0.2 stay below the 0.5 floor. Hence
    [extract_clip_with_verification] returns a verified outcome only with
    "Exact timing", "Small buffer" or "Medium buffer". *)
Theorem late_strategies_never_verify :
  (forall dur audio file_size,
     likely_contains_quote
       (verify_clip_contains_quote dur audio file_size (lit "Large buffer")) = false /\
     likely_contains_quote
       (verify_clip_contains_quote dur audio file_size (lit "Extended search")) = false) /\
  (forall w start end_t output_path padding trace nm a b c d e,
     extract_clip_with_verification w start end_t output_path padding =
       Ok (trace, Verified nm a b c d e) ->
     In nm [lit "Exact timing"; lit "Small buffer"; lit "Medium buffer"]).
Proof.
  destruct late_priors as [[L0 L1] [X0 X1]].
  assert (Hlate : forall dur audio file_size,
     likely_contains_quote
       (verify_clip_contains_quote dur audio file_size (lit "Large buffer")) = false /\
     likely_contains_quote
       (verify_clip_contains_quote dur audio file_size (lit "Extended search")) = false)
    by (intros; split; apply verify_below_half; assumption).
  split; [exact Hlate|].
  intros w start end_t output_path padding trace nm a b c d e H.
  unfold extract_clip_with_verification in H.
  destruct (try_strategies w start end_t output_path padding 0 strategies []) as [tr [o|]] eqn:E.
  - injection H as _ ->.
    apply try_strategies_verified in E as [st [Hin [-> [path Hl]]]].
    simpl in Hin. destruct Hin as [<-|[<-|[<-|[<-|[<-|[]]]]]].
    + left. reflexivity.
    + right. left. reflexivity.
    + right. right. left. reflexivity.
    + simpl in Hl. rewrite (proj1 (Hlate _ _ _)) in Hl. discriminate.
    + simpl in Hl. rewrite (proj2 (Hlate _ _ _)) in Hl. discriminate.
  - cbv zeta in H.
    destruct (snd _); [destruct (copy_ok _ _ _)|]; discriminate.
Qed.

(* ------------------------------------------------------------------ *)
(** ** C5 *)

Definition is_extract_call (e : event) : bool :=
  match e with ExtractCall _ _ _ _ => true | _ => false end.

Definition count_extract_calls (trace : list event) : nat :=
  length (filter is_extract_call trace).

Lemma count_extract_calls_app (a b : list event) :
  count_extract_calls (a ++ b) = (count_extract_calls a + count_extract_calls b)%nat.
Proof. unfold count_extract_calls. rewrite filter_app, length_app. reflexivity. Qed.

(** Without a verified strategy the loop calls the extractor once per
    strategy. *)
Lemma try_strategies_exhausted (w : world) (start end_t : Q) (output_path : str) (padding : Q) :
  forall ss i trace tr,
  try_strategies w start end_t output_path padding i ss trace = (tr, None) ->
  count_extract_calls tr = (count_extract_calls trace + length ss)%nat.
Proof.
  induction ss as [|st rest IH]; intros i trace tr H.
  - injection H as <-. simpl. lia.
  - cbn [try_strategies] in H.
    destruct (negb _).
    + apply IH in H. rewrite H, count_extract_calls_app.
      unfold count_extract_calls. simpl. lia.
    + destruct (likely_contains_quote _); [destruct (move_ok _ _ _); [discriminate|]|];
        apply IH in H; rewrite H, !count_extract_calls_app;
        unfold count_extract_calls; simpl; lia.
Qed.

Definition out_clip : str := lit "clip.mp4".

(** Only the debug extraction works; every probe of a test clip fails. *)
Definition debug_only_world : world :=
  mkworld (ProbeOut (Some 100%Q)) (fun p => str_eqb p (debug_clip_path out_clip))
          (fun _ => DurRaises) (fun _ => None) (fun _ => None)
          (fun _ _ => true) (fun _ _ => true).

(** C5 (counterexample): every strategy fails for a target 10 s to 20 s.
    The debug extraction is then called with start 0, not 30 seconds
    before the target start (-20 s): the start is clamped at 0. *)
Lemma debug_extraction_clamped :
  extract_clip_with_verification debug_only_world 10 20 out_clip (3#2) =
    Ok ([ExtractCall (temp_clip_path out_clip 0) 10 20 (3#2);
         ExtractCall (temp_clip_path out_clip 1) 8 22 (5#2);
         ExtractCall (temp_clip_path out_clip 2) 5 25 (7#2);
         ExtractCall (temp_clip_path out_clip 3) 0 30 (9#2);
         ExtractCall (temp_clip_path out_clip 4) 0 50 (13#2);
         ExtractCall (debug_clip_path out_clip) 0 50 0;
         Copied (debug_clip_path out_clip) out_clip],
        Unverified (Some (debug_clip_path out_clip))) /\
  (10 - 30 < 0)%Q.
Proof. split; vm_compute; reflexivity. Qed.

(** C5 (amended): when all five strategies are exhausted without a
    verified clip, after the five strategy calls the orchestrator calls the
    extractor exactly once more, on the debug path, from max(0, start - 30)
    to end + 30 with padding 0. If that call succeeds, the debug clip is
    copied to the output path and the outcome is unverified with the debug
    path, unless the copy raises [OSError]. If it fails, the outcome is
    unverified with no path. *)
Theorem debug_extraction_after_exhaustion (w : world) (start end_t : Q)
        (output_path : str) (padding : Q) (tr5 : list event) :
  try_strategies w start end_t output_path padding 0 strategies [] = (tr5, None) ->
  let debug_path := debug_clip_path output_path in
  let call := ExtractCall debug_path (Qmax 0 (start - 30)) (end_t + 30)%Q 0 in
  let ok := snd (extract_single_clip (source_probe w) (ffmpeg_ok w debug_path)
                                     (Qmax 0 (start - 30)) (end_t + 30)%Q 0) in
  count_extract_calls tr5 = 5%nat /\
  match extract_clip_with_verification w start end_t output_path padding with
  | Ok (trace, Unverified d) =>
      exists rest, trace = tr5 ++ call :: rest /\
        ((ok = true /\ rest = [Copied debug_path output_path] /\ d = Some debug_path) \/
         (ok = false /\ rest = [] /\ d = None))
  | Ok (_, Verified _ _ _ _ _ _) => False
  | Err e => e = OSError /\ ok = true /\ copy_ok w debug_path output_path = false
  end.
Proof.
  intro H. cbv zeta. split.
  - apply try_strategies_exhausted in H. exact H.
  - unfold extract_clip_with_verification. rewrite H. cbv zeta.
    destruct (snd (extract_single_clip _ _ _ _ _)) eqn:Eok.
    + destruct (copy_ok w (debug_clip_path output_path) output_path) eqn:Ec.
      * exists [Copied (debug_clip_path output_path) output_path].
        split; [rewrite <- app_assoc; reflexivity|]. left. split; [reflexivity|].
        split; reflexivity.
      * split; [reflexivity|]. split; reflexivity.
    + exists []. split; [reflexivity|]. right. split; [reflexivity|]. split; reflexivity.
Qed.

Lemma debug_extraction_after_exhaustion_witness :
  try_strategies debug_only_world 10 20 out_clip (3#2) 0 strategies [] =
    ([ExtractCall (temp_clip_path out_clip 0) 10 20 (3#2);
      ExtractCall (temp_clip_path out_clip 1) 8 22 (5#2);
      ExtractCall (temp_clip_path out_clip 2) 5 25 (7#2);
      ExtractCall (temp_clip_path out_clip 3) 0 30 (9#2);
      ExtractCall (temp_clip_path out_clip 4) 0 50 (13#2)], None) /\
  count_extract_calls
    [ExtractCall (temp_clip_path out_clip 0) 10 20 (3#2);
     ExtractCall (temp_clip_path out_clip 1) 8 22 (5#2);
     ExtractCall (temp_clip_path out_clip 2) 5 25 (7#2);
     ExtractCall (temp_clip_path out_clip 3) 0 30 (9#2);
     ExtractCall (temp_clip_path out_clip 4) 0 50 (13#2)] = 5%nat.
Proof.
  assert (H : try_strategies debug_only_world 10 20 out_clip (3#2) 0 strategies [] =
    ([ExtractCall (temp_clip_path out_clip 0) 10 20 (3#2);
      ExtractCall (temp_clip_path out_clip 1) 8 22 (5#2);
      ExtractCall (temp_clip_path out_clip 2) 5 25 (7#2);
      ExtractCall (temp_clip_path out_clip 3) 0 30 (9#2);
      ExtractCall (temp_clip_path out_clip 4) 0 50 (13#2)], None))
    by (vm_compute; reflexivity).
  split; [exact H|].
  exact (proj1 (debug_extraction_after_exhaustion debug_only_world 10 20 out_clip (3#2) _ H)).
Defined.

(* ------------------------------------------------------------------ *)
(** ** C2 *)

Lemma try_strategies_not_unverified (w : world) (start end_t : Q) (output_path : str)
      (padding : Q) :
  forall ss i trace tr d,
  try_strategies w start end_t output_path padding i ss trace <> (tr, Some (Unverified d)).
Proof.
  induction ss as [|st rest IH]; intros i trace tr d H; [discriminate|].
  cbn [try_strategies] in H.
  destruct (negb _); [exact (IH _ _ _ _ H)|].
  destruct (likely_contains_quote _); [destruct (move_ok _ _ _); [discriminate|]|];
    exact (IH _ _ _ _ H).
Qed.

Lemma extract_clip_unverified_path (w : world) (start end_t : Q) (output_path : str)
      (padding : Q) (trace : list event) (p : str) :
  extract_clip_with_verification w start end_t output_path padding =
    Ok (trace, Unverified (Some p)) ->
  p = debug_clip_path output_path.
Proof.
  unfold extract_clip_with_verification.
  destruct (try_strategies w start end_t output_path padding 0 strategies []) as [tr [o|]] eqn:E.
  - intro H. injection H as _ ->. exfalso. exact (try_strategies_not_unverified _ _ _ _ _ _ _ _ _ _ E).
  - cbv zeta. destruct (snd _); [destruct (copy_ok _ _ _)|]; intro H; try discriminate.
    injection H as _ <-. reflexivity.
Qed.

Lemma extract_clip_error (w : world) (start end_t : Q) (output_path : str) (padding : Q)
      (e : py_exn) :
  extract_clip_with_verification w start end_t output_path padding = Err e ->
  e = OSError /\ copy_ok w (debug_clip_path output_path) output_path = false.
Proof.
  unfold extract_clip_with_verification.
  destruct (try_strategies w start end_t output_path padding 0 strategies []) as [tr [o|]].
  - discriminate.
  - cbv zeta. destruct (snd _); [destruct (copy_ok _ _ _) eqn:Ec|]; intro H; try discriminate.
    injection H as <-. split; reflexivity.
Qed.

(** Both files are present, but every segment has zero timestamps. *)
Definition zero_time_request : request :=
  mkrequest true true [mkseg 0 0 (lit "hello world")] (3#2) out_clip.

(** Both files are present; the second segment is punctuation only. *)
Definition dots_request : request :=
  mkrequest true true dots_segments (3#2) out_clip.

(** C2 (counterexample): two more failures reach the caller. A segments
    file whose timestamps are all zero raises [RuntimeError] with the
    message "No segments with valid timestamps found. The segments file may
    be corrupted.", which is none of the three messages. A quote matched
    against a segment made only of punctuation raises [ZeroDivisionError]
    out of the matcher (see C7). *)
Lemma process_clip_request_other_failures :
  process_clip_request indel_ratio zero_time_request debug_only_world (lit "hello world") =
    Err (RuntimeError msg_no_valid) /\
  process_clip_request indel_ratio dots_request debug_only_world (lit "hello world") =
    Err ZeroDivisionError.
Proof. split; vm_compute; reflexivity. Qed.

(** C2 (amended): every failure of [process_clip_request] is one of these.
    The two files are not both present ("Required files not found."). No
    segment has a positive start or end ("No segments with valid
    timestamps found. The segments file may be corrupted."). The matcher
    raises (C7's [ZeroDivisionError]). The matcher finds no window ("Quote
    not found in transcript."). For the matched window, every strategy and
    the debug extraction fail ("Clip extraction and verification
    failed."). Copying the debug clip raises [OSError]. Any other failure
    during extraction or verification is absorbed. *)
Theorem process_clip_request_errors (sequence_similarity : str -> str -> Q)
        (rq : request) (w : world) (quote : str) (e : py_exn) :
  process_clip_request sequence_similarity rq w quote = Err e ->
  (e = RuntimeError msg_required /\ (segments_file_exists rq && video_exists rq) = false) \/
  (e = RuntimeError msg_no_valid /\ filter has_valid_timestamp (loaded_segments rq) = []) \/
  yt_find_quote_timestamps sequence_similarity (loaded_segments rq) quote 20 (65#100) 2 = Err e \/
  (e = RuntimeError msg_not_found /\
   yt_find_quote_timestamps sequence_similarity (loaded_segments rq) quote 20 (65#100) 2 = Ok None) \/
  (exists s t snippet,
     yt_find_quote_timestamps sequence_similarity (loaded_segments rq) quote 20 (65#100) 2 =
       Ok (Some (s, t, snippet)) /\
     ((e = RuntimeError msg_failed /\
       exists trace, extract_clip_with_verification w s t (clip_path rq) (clip_padding rq) =
                       Ok (trace, Unverified None)) \/
      (e = OSError /\ copy_ok w (debug_clip_path (clip_path rq)) (clip_path rq) = false))).
Proof.
  unfold process_clip_request.
  destruct (segments_file_exists rq && video_exists rq) eqn:Ef; simpl.
  2:{ intro H. injection H as <-. left. split; reflexivity. }
  destruct (filter has_valid_timestamp (loaded_segments rq)) as [|v0 vs] eqn:Ev.
  { intro H. injection H as <-. right. left. split; reflexivity. }
  destruct (yt_find_quote_timestamps sequence_similarity (loaded_segments rq) quote 20 (65#100) 2)
    as [m|e'] eqn:Ey; simpl.
  2:{ intro H. injection H as <-. right. right. left. reflexivity. }
  destruct m as [[[s t] snippet]|].
  2:{ intro H. injection H as <-. right. right. right. left. split; reflexivity. }
  intro H. right. right. right. right. exists s, t, snippet. split; [reflexivity|].
  destruct (extract_clip_with_verification w s t (clip_path rq) (clip_padding rq))
    as [[trace r]|e'] eqn:Ex; simpl in H.
  2:{ injection H as <-. right. exact (extract_clip_error _ _ _ _ _ _ Ex). }
  destruct r as [nm a b c d f|[p|]].
  - discriminate.
  - pose proof (extract_clip_unverified_path _ _ _ _ _ _ _ Ex) as ->.
    destruct (copy_ok w (debug_clip_path (clip_path rq)) (clip_path rq)) eqn:Ec;
      [discriminate|].
    injection H as <-. right. split; reflexivity.
  - injection H as <-. left. split; [reflexivity|]. exists trace. reflexivity.
Qed.

Lemma process_clip_request_errors_witness :
  process_clip_request indel_ratio zero_time_request debug_only_world (lit "hello world") =
    Err (RuntimeError msg_no_valid) /\
  (RuntimeError msg_no_valid = RuntimeError msg_no_valid /\
   filter has_valid_timestamp (loaded_segments zero_time_request) = []).
Proof.
  assert (H : process_clip_request indel_ratio zero_time_request debug_only_world
                (lit "hello world") = Err (RuntimeError msg_no_valid))
    by (vm_compute; reflexivity).
  split; [exact H|].
  destruct (process_clip_request_errors _ _ _ _ _ H)
    as [[He _]|[[_ Hv]|[Hy|[[He _]|[s [t [snip [_ [[He _]|[He _]]]]]]]]]].
  - exfalso. revert He. vm_compute. intro He. discriminate He.
  - split; [reflexivity|exact Hv].
  - exfalso. revert Hy. vm_compute. intro Hy. discriminate Hy.
  - exfalso. revert He. vm_compute. intro He. discriminate He.
  - exfalso. revert He. vm_compute. intro He. discriminate He.
  - discriminate He.
Defined.

(* ================================================================== *)
(** * Proofs about the further parts *)

(** The whitespace collapse of [normalize_text], [re.sub(r"\s+", " ", text)]. *)
Fixpoint collapse (prev : bool) (s : str) : str :=
  match s with
  | [] => []
  | c :: s' =>
      if is_space c
      then (if prev then collapse true s' else " "%char :: collapse true s')
      else c :: collapse false s'
  end.

(** The punctuation replacement of [normalize_text],
    [re.sub(r"[^\w\s']", " ", text)], on one character. *)
Definition punct_to_space (c : ascii) : ascii :=
  if is_word c || is_space c || Ascii.eqb c "'"%char then c else " "%char.

Definition is_upper (c : ascii) : bool := (65 <=? code c) && (code c <=? 90).

(** The characters [normalize_text] can produce. *)
Definition norm_char (c : ascii) : bool :=
  Ascii.eqb c " "%char || (is_word c && negb (is_upper c)) || Ascii.eqb c "'"%char.

(** No two whitespace characters in a row. *)
Fixpoint single_spaced (s : str) : bool :=
  match s with
  | c :: ((d :: _) as s') => negb (is_space c && is_space d) && single_spaced s'
  | _ => true
  end.

(** The normal form of [normalize_text]. *)
Definition normalized (s : str) : Prop :=
  forallb norm_char s = true /\ single_spaced s = true /\ ok_ends s.

Lemma normalize_text_eq (t : str) :
  normalize_text t =
  match t with
  | [] => []
  | _ => strip (collapse false (map punct_to_space (strip (lower t))))
  end.
Proof. destruct t; reflexivity. Qed.

Lemma ascii_cases (P : ascii -> bool) :
  (forall b0 b1 b2 b3 b4 b5 b6 b7, P (Ascii b0 b1 b2 b3 b4 b5 b6 b7) = true) ->
  forall c, P c = true.
Proof. intros H c. destruct c. apply H. Qed.

Ltac ascii_brute :=
  apply ascii_cases; intros [] [] [] [] [] [] [] []; vm_compute; reflexivity.

Lemma lower_char_not_upper_b :
  forall c, negb (is_upper (lower_char c)) = true.
Proof. ascii_brute. Qed.

Lemma punct_good_b :
  forall c, implb (negb (is_upper c) && negb (is_space (punct_to_space c)))
                  (norm_char (punct_to_space c)) = true.
Proof. ascii_brute. Qed.

Lemma lower_char_id_b :
  forall c, implb (negb (is_upper c)) (Ascii.eqb (lower_char c) c) = true.
Proof. ascii_brute. Qed.

Lemma punct_id_b :
  forall c, implb (norm_char c) (Ascii.eqb (punct_to_space c) c) = true.
Proof. ascii_brute. Qed.

Lemma norm_char_space_b :
  forall c, implb (norm_char c && is_space c) (Ascii.eqb c " "%char) = true.
Proof. ascii_brute. Qed.

Lemma norm_char_not_upper_b :
  forall c, implb (norm_char c) (negb (is_upper c)) = true.
Proof. ascii_brute. Qed.

(** [strip] keeps a middle part of its argument. *)
Lemma strip_infix (x : str) : exists a b, x = a ++ strip x ++ b.
Proof.
  unfold strip, rstrip.
  destruct (lstrip_suffix x) as [a Ea].
  destruct (lstrip_suffix (rev (lstrip x))) as [b Eb].
  exists a, (rev b).
  rewrite Ea at 1. f_equal.
  set (y := lstrip x) in *.
  transitivity (rev (rev y)); [symmetry; apply rev_involutive|].
  rewrite Eb at 1. rewrite rev_app_distr. reflexivity.
Qed.

Lemma forallb_infix {A} (f : A -> bool) (a m b : list A) :
  forallb f (a ++ m ++ b) = true -> forallb f m = true.
Proof.
  rewrite !forallb_app. intro H.
  apply andb_true_iff in H as [_ H]. apply andb_true_iff in H as [H _]. exact H.
Qed.

Lemma single_spaced_app_l (x y : str) :
  single_spaced (x ++ y) = true -> single_spaced x = true.
Proof.
  induction x as [|c x IH]; [reflexivity|].
  destruct x as [|d x]; [reflexivity|].
  simpl. intro H. apply andb_true_iff in H as [H1 H2].
  rewrite H1. apply IH. exact H2.
Qed.

Lemma single_spaced_app_r (x y : str) :
  single_spaced (x ++ y) = true -> single_spaced y = true.
Proof.
  induction x as [|c x IH]; [tauto|].
  intro H. apply IH. simpl in H.
  destruct (x ++ y) as [|d z]; [reflexivity|].
  apply andb_true_iff in H as [_ H]. exact H.
Qed.

Lemma strip_forallb (f : ascii -> bool) (x : str) :
  forallb f x = true -> forallb f (strip x) = true.
Proof.
  destruct (strip_infix x) as [a [b E]]. rewrite E at 1. apply forallb_infix.
Qed.

Lemma strip_single_spaced (x : str) :
  single_spaced x = true -> single_spaced (strip x) = true.
Proof.
  destruct (strip_infix x) as [a [b E]]. rewrite E at 1. intro H.
  apply single_spaced_app_r in H. apply single_spaced_app_l in H. exact H.
Qed.

Lemma collapse_true_head (s : str) :
  match collapse true s with [] => True | c :: _ => is_space c = false end.
Proof.
  induction s as [|c s IH]; [exact I|].
  simpl. destruct (is_space c) eqn:E; [exact IH|exact E].
Qed.

Lemma collapse_single_spaced (b : bool) (s : str) :
  single_spaced (collapse b s) = true.
Proof.
  revert b. induction s as [|c s IH]; intro b; [reflexivity|].
  simpl. destruct (is_space c) eqn:E.
  - destruct b; [apply IH|].
    pose proof (collapse_true_head s) as Hh. specialize (IH true).
    destruct (collapse true s) as [|d r]; [reflexivity|].
    change (negb (is_space " " && is_space d) && single_spaced (d :: r) = true).
    rewrite Hh, andb_false_r. exact IH.
  - specialize (IH false).
    destruct (collapse false s) as [|d r]; [reflexivity|].
    change (negb (is_space c && is_space d) && single_spaced (d :: r) = true).
    rewrite E. exact IH.
Qed.

Lemma collapse_chars (b : bool) (s : str) :
  forallb (fun c => is_space c || norm_char c) s = true ->
  forallb norm_char (collapse b s) = true.
Proof.
  revert b. induction s as [|c s IH]; intros b H; [reflexivity|].
  simpl in H. apply andb_true_iff in H as [Hc Hs].
  simpl. destruct (is_space c) eqn:E.
  - destruct b; [apply IH; exact Hs|].
    simpl. apply IH. exact Hs.
  - simpl in Hc. simpl. rewrite Hc. apply IH. exact Hs.
Qed.

Lemma normalize_text_chars (t : str) :
  forallb norm_char (normalize_text t) = true.
Proof.
  rewrite normalize_text_eq. destruct t as [|c0 t0]; [reflexivity|].
  apply strip_forallb, collapse_chars.
  assert (Hl : forallb (fun c => negb (is_upper c)) (strip (lower (c0 :: t0))) = true).
  { apply strip_forallb. unfold lower. rewrite forallb_forall.
    intros x Hx. apply in_map_iff in Hx as [y [<- _]]. apply lower_char_not_upper_b. }
  rewrite forallb_forall in Hl |- *. intros x Hx.
  apply in_map_iff in Hx as [y [<- Hy]].
  pose proof (punct_good_b y) as P. rewrite (Hl y Hy) in P. simpl in P.
  destruct (is_space (punct_to_space y)); [reflexivity|]. exact P.
Qed.

Lemma normalize_text_normalized (t : str) : normalized (normalize_text t).
Proof.
  split; [apply normalize_text_chars|split].
  - rewrite normalize_text_eq. destruct t; [reflexivity|].
    apply strip_single_spaced, collapse_single_spaced.
  - rewrite normalize_text_eq. destruct t; [exact I|]. apply strip_ok_ends.
Qed.

Lemma lower_normalized (s : str) : forallb norm_char s = true -> lower s = s.
Proof.
  induction s as [|c s IH]; intro H; [reflexivity|].
  simpl in H. apply andb_true_iff in H as [Hc Hs].
  simpl. rewrite (IH Hs). f_equal.
  pose proof (lower_char_id_b c) as P.
  assert (U : is_upper c = false).
  { pose proof (norm_char_not_upper_b c) as Q. rewrite Hc in Q.
    destruct (is_upper c); [discriminate|reflexivity]. }
  rewrite U in P. simpl in P. apply Ascii.eqb_eq. exact P.
Qed.

Lemma punct_normalized (s : str) : forallb norm_char s = true -> map punct_to_space s = s.
Proof.
  induction s as [|c s IH]; intro H; [reflexivity|].
  simpl in H. apply andb_true_iff in H as [Hc Hs].
  simpl. rewrite (IH Hs). f_equal.
  pose proof (punct_id_b c) as P. rewrite Hc in P. apply Ascii.eqb_eq. exact P.
Qed.

Lemma collapse_normalized (b : bool) (s : str) :
  forallb norm_char s = true -> single_spaced s = true ->
  (b = true -> match s with [] => True | c :: _ => is_space c = false end) ->
  collapse b s = s.
Proof.
  revert b. induction s as [|c s IH]; intros b Hc Hs Hb; [reflexivity|].
  simpl in Hc. apply andb_true_iff in Hc as [Hc1 Hc2].
  assert (Hs' : single_spaced s = true).
  { destruct s; [reflexivity|]. simpl in Hs. apply andb_true_iff in Hs as [_ H]. exact H. }
  simpl. destruct (is_space c) eqn:E.
  - destruct b; [specialize (Hb eq_refl); congruence|].
    pose proof (norm_char_space_b c) as P. rewrite Hc1, E in P. simpl in P.
    apply Ascii.eqb_eq in P. subst c. f_equal.
    apply IH; [exact Hc2|exact Hs'|]. intros _.
    destruct s as [|d s]; [exact I|].
    simpl in Hs. apply andb_true_iff in Hs as [H _].
    destruct (is_space d); [discriminate|reflexivity].
  - f_equal. apply IH; [exact Hc2|exact Hs'|discriminate].
Qed.

Lemma normalize_text_fixed (s : str) : normalized s -> normalize_text s = s.
Proof.
  intros [Hc [Hs He]]. rewrite normalize_text_eq.
  destruct s as [|c0 s0]; [reflexivity|].
  rewrite (lower_normalized _ Hc), (strip_of_ok_ends _ He), (punct_normalized _ Hc).
  rewrite collapse_normalized; [|exact Hc|exact Hs|discriminate].
  apply strip_of_ok_ends. exact He.
Qed.

(** [normalize_text] is idempotent: normalizing a normalized text
    changes nothing. *)
Theorem normalize_text_idempotent (t : str) :
  normalize_text (normalize_text t) = normalize_text t.
Proof. apply normalize_text_fixed, normalize_text_normalized. Qed.

Lemma mem_In (x : str) (xs : list str) : mem x xs = true <-> In x xs.
Proof.
  unfold mem. rewrite existsb_exists. split.
  - intros [y [Hy E]]. destruct (list_eq_dec ascii_dec x y); [subst; exact Hy|discriminate].
  - intro H. exists x. split; [exact H|]. destruct (list_eq_dec ascii_dec x x); congruence.
Qed.

Lemma dedup_In (x : str) (xs : list str) : In x (dedup xs) <-> In x xs.
Proof.
  induction xs as [|y xs IH]; [tauto|].
  simpl. destruct (mem y xs) eqn:E.
  - rewrite IH. split; [tauto|]. intros [<-|H]; [apply mem_In; exact E|exact H].
  - simpl. rewrite IH. tauto.
Qed.

Lemma dedup_NoDup (xs : list str) : NoDup (dedup xs).
Proof.
  induction xs as [|y xs IH]; [constructor|].
  simpl. destruct (mem y xs) eqn:E; [exact IH|].
  constructor; [|exact IH].
  rewrite dedup_In. intro H. apply mem_In in H. congruence.
Qed.

Lemma Qnat_ratio_bounds (a b : nat) :
  (a <= b)%nat -> (0 < b)%nat ->
  (0 <= inject_Z (Z.of_nat a) / inject_Z (Z.of_nat b) <= 1)%Q.
Proof.
  intros Hab Hb.
  assert (Pb : (0 < inject_Z (Z.of_nat b))%Q) by (unfold Qlt; simpl; lia).
  assert (Pa : (0 <= inject_Z (Z.of_nat a))%Q) by (unfold Qle; simpl; lia).
  assert (Lab : (inject_Z (Z.of_nat a) <= inject_Z (Z.of_nat b))%Q) by (unfold Qle; simpl; lia).
  split.
  - apply Qle_shift_div_l; [exact Pb|]. lra.
  - apply Qle_shift_div_r; [exact Pb|]. lra.
Qed.

(** [word_overlap_score] lies in [0, 1]. *)
Lemma word_overlap_score_bounds (t1 t2 : str) :
  (0 <= word_overlap_score t1 t2 <= 1)%Q.
Proof.
  unfold word_overlap_score.
  set (w1 := dedup (split (normalize_text t1))).
  set (w2 := dedup (split (normalize_text t2))).
  destruct w1 as [|x1 r1] eqn:E1; [split; lra|].
  destruct w2 as [|x2 r2] eqn:E2; [split; lra|].
  rewrite <- E1, <- E2.
  set (I := filter (fun w => mem w w2) w1).
  set (U := dedup (w1 ++ w2)).
  assert (HI1 : (length I <= length w1)%nat) by apply filter_length_le'.
  assert (HIU : (length I <= length U)%nat).
  { apply NoDup_incl_length.
    - apply NoDup_filter. apply dedup_NoDup.
    - intros x Hx. apply filter_In in Hx as [Hx _].
      unfold U. apply dedup_In, in_or_app. left. exact Hx. }
  assert (P1 : (0 < length w1)%nat) by (rewrite E1; simpl; lia).
  assert (PU : (0 < length U)%nat).
  { destruct U as [|u us] eqn:EU; [|simpl; lia].
    exfalso. assert (Hx : In x1 (dedup (w1 ++ w2))).
    { apply dedup_In, in_or_app. left. rewrite E1. left. reflexivity. }
    fold U in Hx. rewrite EU in Hx. exact Hx. }
  pose proof (Qnat_ratio_bounds _ _ HIU PU) as [J1 J2].
  pose proof (Qnat_ratio_bounds _ _ HI1 P1) as [C1 C2].
  unfold Qlen. split; lra.
Qed.

(** [keyword_match_score] lies in [0, 1]. *)
Lemma keyword_match_score_bounds (q t : str) :
  (0 <= keyword_match_score q t <= 1)%Q.
Proof.
  unfold keyword_match_score.
  destruct (extract_keywords q) as [|k ks] eqn:E; [split; lra|].
  rewrite <- E. unfold Qlen.
  apply Qnat_ratio_bounds; [apply filter_length_le'|rewrite E; simpl; lia].
Qed.

Lemma Qmin_ratio_le1 (a b : Q) : (0 < a)%Q -> (0 < b)%Q -> (Qmin (a / b) (b / a) <= 1)%Q.
Proof.
  intros Ha Hb. destruct (Qlt_le_dec a b) as [H|H].
  - eapply Qle_trans; [apply Q.le_min_l|]. apply Qle_shift_div_r; [exact Hb|]. lra.
  - eapply Qle_trans; [apply Q.le_min_r|]. apply Qle_shift_div_r; [exact Ha|]. lra.
Qed.

Lemma Qnat_nonneg (n : nat) : (0 <= inject_Z (Z.of_nat n))%Q.
Proof. unfold Qle; simpl; lia. Qed.

Section Bounds.

Variable seqsim : str -> str -> Q.

Hypothesis seqsim_bounds : forall a b, (0 <= seqsim a b <= 1)%Q.

Lemma window_score_bounds (quote : str) (qwc : nat) (ws : list segment) (v : Q) :
  window_score seqsim quote qwc ws = Ok (Some v) -> (0 <= v <= 11#10)%Q.
Proof.
  unfold window_score.
  destruct (strip (join (lit " ") (map text ws))) as [|c r]; [discriminate|].
  set (ct := join (lit " ") (map text ws)).
  unfold calculate_all_scores. cbn [sequence word_overlap keyword_match].
  pose proof (seqsim_bounds (normalize_text quote) (normalize_text ct)) as S.
  pose proof (word_overlap_score_bounds quote ct) as WO.
  pose proof (keyword_match_score_bounds quote ct) as KW.
  set (f := ((3#10) * seqsim (normalize_text quote) (normalize_text ct)
             + (4#10) * word_overlap_score quote ct
             + (3#10) * keyword_match_score quote ct)%Q).
  assert (F : (0 <= f <= 1)%Q) by (unfold f; split; lra).
  assert (Hb : forall b, (1 <= b <= 11#10)%Q -> (0 <= f * b <= 11#10)%Q).
  { intros b [B1 B2]. split; nra. }
  destruct (0 <? qwc) eqn:Eq.
  - unfold py_div. unfold Qlen.
    set (twc := inject_Z (Z.of_nat (length (split (normalize_text ct))))).
    set (qw := inject_Z (Z.of_nat qwc)).
    destruct (Qeq_bool qw 0) eqn:E1; [discriminate|].
    destruct (Qeq_bool twc 0) eqn:E2; [discriminate|].
    cbn [bind]. intro H. injection H as <-. apply Hb.
    assert (P1 : (0 < qw)%Q).
    { pose proof (Qnat_nonneg qwc). fold qw in H.
      destruct (Qlt_le_dec 0 qw) as [L|L]; [exact L|].
      exfalso. assert (qw == 0)%Q by lra. apply Qeq_bool_iff in H0. congruence. }
    assert (P2 : (0 < twc)%Q).
    { pose proof (Qnat_nonneg (length (split (normalize_text ct)))). fold twc in H.
      destruct (Qlt_le_dec 0 twc) as [L|L]; [exact L|].
      exfalso. assert (twc == 0)%Q by lra. apply Qeq_bool_iff in H0. congruence. }
    pose proof (Qmin_ratio_le1 twc qw P2 P1) as M.
    set (m := Qmin (twc / qw) (qw / twc)) in *.
    assert (0 <= Qmax 0 (m - (1#2)) <= 1#2)%Q.
    { split; [apply Q.le_max_l|]. apply Q.max_lub; lra. }
    split; lra.
  - cbn [bind]. intro H. injection H as <-. apply Hb. split; lra.
Qed.

(** The search loop keeps a best score in [0, 1.1]. *)
Lemma search_fold_bounds (segs : list segment) (quote : str) (qwc : nat)
      (cs : list (nat * nat)) (st : res (Q * match_result)) :
  (forall b m, st = Ok (b, m) -> (0 <= b <= 11#10)%Q) ->
  forall b m, fold_left (search_step seqsim segs quote qwc) cs st = Ok (b, m) ->
  (0 <= b <= 11#10)%Q.
Proof.
  revert st. induction cs as [|[w i] cs IH]; intros st Hst; [exact Hst|].
  cbn [fold_left]. apply IH.
  intros b m. unfold search_step.
  destruct st as [[b0 m0]|e]; [|discriminate]. cbn [bind].
  destruct (window_score seqsim quote qwc (window segs w i)) as [[v|]|e] eqn:E;
    cbn [bind]; [|intro H; injection H as <- _; eapply Hst; reflexivity|discriminate].
  destruct (Qlt_bool b0 v).
  - destruct (window segs w i); intro H; injection H as <- _;
      [eapply Hst; reflexivity|eapply window_score_bounds; exact E].
  - intro H; injection H as <- _; eapply Hst; reflexivity.
Qed.

End Bounds.

(** Every score the matcher's search ends with lies in [0, 1.1]. *)
Theorem search_best_score_bounds (seqsim : str -> str -> Q)
        (Hs : forall a b, (0 <= seqsim a b <= 1)%Q)
        (segs : list segment) (quote : str) (qwc : nat) (b : Q) (m : match_result) :
  search seqsim segs quote qwc = Ok (b, m) -> (0 <= b <= 11#10)%Q.
Proof.
  apply (search_fold_bounds seqsim Hs). intros b0 m0 H. injection H as <- _. split; lra.
Qed.

Lemma search_best_score_bounds_witness :
  (forall a b : str, 0 <= (fun _ _ : str => 1#2) a b <= 1)%Q /\
  search (fun _ _ => 1#2) fox_segments fox_quote 8 =
    Ok (14775040000 # 16128000000,
        Some (0%Q, 2%Q, lit "The quick brown fox jumps over the lazy dog")) /\
  (0 <= 14775040000 # 16128000000 <= 11#10)%Q.
Proof.
  assert (H1 : forall a b : str, (0 <= (fun _ _ : str => 1#2) a b <= 1)%Q)
    by (intros; split; unfold Qle; simpl; lia).
  assert (H2 : search (fun _ _ => 1#2) fox_segments fox_quote 8 =
    Ok (14775040000 # 16128000000,
        Some (0%Q, 2%Q, lit "The quick brown fox jumps over the lazy dog")))
    by (vm_compute; reflexivity).
  split; [exact H1|]. split; [exact H2|].
  exact (search_best_score_bounds _ H1 _ _ _ _ _ H2).
Defined.

(** ** Chunk spans, texts and counts of [merge_short_segments] *)
Lemma should_extend_span (mn mx : Q) (c : chunk) (e : Q) (t : str) :
  should_extend mn mx c e t = true -> (e - c_start c <= mx)%Q.
Proof.
  unfold should_extend. destruct (Qlt_bool mx (e - c_start c)) eqn:E; [discriminate|].
  intros _. apply Qnot_lt_le. intro H. apply Qlt_bool_iff in H. congruence.
Qed.

Lemma merge_short_segments_eq (segs : list segment) (mn mx : Q) :
  merge_short_segments segs mn mx =
  match segs with
  | [] => []
  | _ => let (out, cur) := fold_left (merge_step mn mx) segs ([], None) in
         match cur with Some c => emit_chunk out c | None => out end
  end.
Proof. destruct segs; reflexivity. Qed.

Section Spans.

Variables (segs : list segment) (mn mx : Q).

Definition span_ok (a b : Q) : Prop :=
  (b - a <= mx)%Q \/ exists s, In s segs /\ a = start s /\ b = end_ s.

Definition span_inv (out : list segment) (cur : option chunk) : Prop :=
  Forall (fun o => span_ok (start o) (end_ o)) out /\
  match cur with Some c => span_ok (c_start c) (c_end c) | None => True end.

Lemma emit_span (out : list segment) (c : chunk) :
  Forall (fun o => span_ok (start o) (end_ o)) out -> span_ok (c_start c) (c_end c) ->
  Forall (fun o => span_ok (start o) (end_ o)) (emit_chunk out c).
Proof.
  intros Ho Hc. destruct (emit_chunk_cases out c) as [[_ ->]|[_ ->]]; [|exact Ho].
  apply Forall_app. split; [exact Ho|]. constructor; [exact Hc|constructor].
Qed.

Lemma span_fold (rest : list segment) (out : list segment) (cur : option chunk) :
  incl rest segs -> span_inv out cur ->
  let (out', cur') := fold_left (merge_step mn mx) rest (out, cur) in span_inv out' cur'.
Proof.
  revert out cur. induction rest as [|s rest IH]; intros out cur Hincl Hi; [exact Hi|].
  cbn [fold_left].
  assert (Hs : In s segs) by (apply Hincl; left; reflexivity).
  assert (Hr : incl rest segs) by (intros x Hx; apply Hincl; right; exact Hx).
  destruct (merge_step_cases mn mx out cur s)
    as [[_ E]|[_ [[-> E]|[[c [-> [Ex E]]]|[c [-> [Ex E]]]]]]]; rewrite E; apply IH; try exact Hr.
  - exact Hi.
  - split; [apply Hi|]. right. exists s. auto.
  - split; [apply Hi|]. left. cbn [c_start c_end]. eapply should_extend_span. exact Ex.
  - destruct Hi as [Ho Hc]. split; [apply emit_span; assumption|].
    right. exists s. auto.
Qed.

End Spans.

(** Every chunk produced by [merge_short_segments] lasts at most
    [max_duration], or has exactly the start and end of one input segment. *)
Theorem merge_short_segments_span (segs : list segment) (min_duration max_duration : Q) :
  Forall (fun o => (end_ o - start o <= max_duration)%Q \/
                   exists s, In s segs /\ start o = start s /\ end_ o = end_ s)
         (merge_short_segments segs min_duration max_duration).
Proof.
  rewrite merge_short_segments_eq. destruct segs as [|s0 segs0]; [constructor|].
  pose proof (span_fold (s0 :: segs0) min_duration max_duration (s0 :: segs0) [] None
                        (incl_refl _) (conj (Forall_nil _) I)) as H.
  destruct (fold_left _ (s0 :: segs0) ([], None)) as [out cur].
  destruct H as [Ho Hc]. destruct cur as [c|]; [|exact Ho].
  apply emit_span; assumption.
Qed.

(** A text that is non-empty and has no surrounding whitespace. *)
Definition text_ok (o : segment) : Prop := ok_ends (text o) /\ text o <> [].

(** The invariant of the merge loop: the chunks emitted so far have such
    texts, and the open chunk starts with a non-space character. *)
Definition text_inv (out : list segment) (cur : option chunk) : Prop :=
  Forall text_ok out /\
  match cur with
  | Some c => exists d r, c_text c = d :: r /\ is_space d = false
  | None => True
  end.

Lemma lstrip_snoc_nonempty (x : str) (d : ascii) :
  is_space d = false -> lstrip (x ++ [d]) <> [].
Proof.
  induction x as [|a x IH]; intro Hd; simpl.
  - rewrite Hd. discriminate.
  - destruct (is_space a); [apply IH; exact Hd|discriminate].
Qed.

Lemma strip_head_nonempty (d : ascii) (r : str) :
  is_space d = false -> strip (d :: r) <> [].
Proof.
  intro Hd. unfold strip, rstrip. simpl. rewrite Hd.
  intro H. apply (f_equal (@rev ascii)) in H. rewrite rev_involutive in H.
  simpl in H. revert H. apply lstrip_snoc_nonempty. exact Hd.
Qed.

Lemma stripped_head (t : str) :
  strip t <> [] -> exists d r, strip t = d :: r /\ is_space d = false.
Proof.
  intro H. pose proof (strip_ok_ends t) as Ho.
  destruct (strip t) as [|d r]; [contradiction|].
  exists d, r. split; [reflexivity|apply Ho].
Qed.

Lemma emit_text (out : list segment) (c : chunk) :
  Forall text_ok out -> (exists d r, c_text c = d :: r /\ is_space d = false) ->
  Forall text_ok (emit_chunk out c).
Proof.
  intros Ho [d [r [Ec Hd]]].
  destruct (emit_chunk_cases out c) as [[_ ->]|[_ ->]]; [|exact Ho].
  apply Forall_app. split; [exact Ho|]. constructor; [|constructor].
  split; [apply strip_ok_ends|]. cbn [text]. rewrite Ec. apply strip_head_nonempty. exact Hd.
Qed.

Lemma text_fold (mn mx : Q) (rest out : list segment) (cur : option chunk) :
  text_inv out cur ->
  let (out', cur') := fold_left (merge_step mn mx) rest (out, cur) in text_inv out' cur'.
Proof.
  revert out cur. induction rest as [|s rest IH]; intros out cur Hi; [exact Hi|].
  cbn [fold_left].
  destruct (merge_step_cases mn mx out cur s)
    as [[_ E]|[Hne [[-> E]|[[c [-> [Ex E]]]|[c [-> [Ex E]]]]]]]; rewrite E; apply IH.
  - exact Hi.
  - split; [apply Hi|]. apply stripped_head. exact Hne.
  - split; [apply Hi|]. destruct Hi as [_ [d [r [Ec Hd]]]].
    exists d, (r ++ lit " " ++ strip (text s)). cbn [c_text]. rewrite Ec. split; [reflexivity|exact Hd].
  - destruct Hi as [Ho Hc]. split; [apply emit_text; assumption|].
    apply stripped_head. exact Hne.
Qed.

(** Every chunk [merge_short_segments] returns has a non-empty text
    without surrounding whitespace. *)
Lemma merge_short_segments_texts (segs : list segment) (mn mx : Q) :
  Forall text_ok (merge_short_segments segs mn mx).
Proof.
  rewrite merge_short_segments_eq. destruct segs as [|s0 segs0]; [constructor|].
  pose proof (text_fold mn mx (s0 :: segs0) [] None (conj (Forall_nil _) I)) as H.
  destruct (fold_left _ (s0 :: segs0) ([], None)) as [out cur].
  destruct H as [Ho Hc]. destruct cur as [c|]; [|exact Ho].
  apply emit_text; assumption.
Qed.

Definition open_count (cur : option chunk) : nat :=
  match cur with Some _ => 1 | None => 0 end.

Lemma emit_length (out : list segment) (c : chunk) :
  (length (emit_chunk out c) <= S (length out))%nat.
Proof.
  destruct (emit_chunk_cases out c) as [[_ ->]|[_ ->]]; [rewrite length_app; simpl|]; lia.
Qed.

Lemma count_fold (mn mx : Q) (rest out : list segment) (cur : option chunk) :
  let (out', cur') := fold_left (merge_step mn mx) rest (out, cur) in
  (length out' + open_count cur' <= length out + open_count cur + length rest)%nat.
Proof.
  revert out cur. induction rest as [|s rest IH]; intros out cur; [simpl; lia|].
  cbn [fold_left].
  destruct (merge_step_cases mn mx out cur s)
    as [[_ E]|[Hne [[-> E]|[[c [-> [Ex E]]]|[c [-> [Ex E]]]]]]]; rewrite E;
    match goal with |- context [fold_left _ rest (?o, ?k)] =>
      specialize (IH o k); destruct (fold_left _ rest (o, k)) end;
    cbn [open_count length] in *; try (pose proof (emit_length out c)); lia.
Qed.

(** [merge_short_segments] never returns more chunks than it is given
    segments. *)
Lemma merge_short_segments_length (segs : list segment) (mn mx : Q) :
  (length (merge_short_segments segs mn mx) <= length segs)%nat.
Proof.
  rewrite merge_short_segments_eq. destruct segs as [|s0 segs0]; [reflexivity|].
  pose proof (count_fold mn mx (s0 :: segs0) [] None) as H.
  destruct (fold_left _ (s0 :: segs0) ([], None)) as [out cur].
  cbn [length open_count] in *.
  destruct cur as [c|]; cbn [open_count] in H; [pose proof (emit_length out c)|]; lia.
Qed.

(** ** The cleanup pass of [process] *)
(** The input segments paired with their index in [enumerate(segments)]. *)
Definition enumerate_from (i : nat) (segs : list segment) : list (nat * segment) :=
  combine (seq i (length segs)) segs.

(** The segments whose timestamps the cleanup pass replaces: after the
    first ([i > 0]), with start and end both 0. *)
Definition repaired (i : nat) (s : segment) : Prop :=
  (start s == 0)%Q /\ (end_ s == 0)%Q /\ (0 < i)%nat.

(** What the cleanup pass makes of the kept segments [ps] (with their
    indices), [prev] being the end of the last segment kept before them
    (0 if none): each one in turn gives a segment with the stripped text
    and the same timestamps, or, if it is repaired, the start [prev] and
    the end [prev + max(2, 0.1 * len(text))], [text] not stripped. *)
Fixpoint cleaned_from (prev : Q) (ps : list (nat * segment)) (out : list segment)
  : Prop :=
  match ps, out with
  | [], [] => True
  | (i, s) :: ps', o :: out' =>
      text o = strip (text s) /\
      ((repaired i s /\ start o = prev /\
        end_ o = (prev + Qmax 2 (Qlen (text s) * (1#10)))%Q) \/
       (~ repaired i s /\ start o = start s /\ end_ o = end_ s)) /\
      cleaned_from (end_ o) ps' out'
  | _, _ => False
  end.

(** [valid_segments[-1].get("end", 0) if valid_segments else 0] *)
Definition prev_end_of (valid : list segment) : Q :=
  match valid with [] => 0%Q | v :: _ => end_ (last valid v) end.

Lemma prev_end_of_snoc (valid : list segment) (o : segment) :
  prev_end_of (valid ++ [o]) = end_ o.
Proof.
  destruct valid as [|v valid]; [reflexivity|].
  unfold prev_end_of. cbn [app]. rewrite app_comm_cons, last_last. reflexivity.
Qed.

Lemma enumerate_from_cons (i : nat) (s : segment) (segs : list segment) :
  enumerate_from i (s :: segs) = (i, s) :: enumerate_from (S i) segs.
Proof. reflexivity. Qed.

Lemma cleanup_aux_rel (rest valid : list segment) (i : nat) :
  exists fresh, cleanup_aux i valid rest = valid ++ fresh /\
    cleaned_from (prev_end_of valid)
      (filter (fun p => nonblank (snd p)) (enumerate_from i rest)) fresh.
Proof.
  revert valid i. induction rest as [|s rest IH]; intros valid i.
  - exists []. split; [rewrite app_nil_r; reflexivity|exact I].
  - rewrite enumerate_from_cons. cbn [filter snd cleanup_aux].
    unfold nonblank at 1.
    destruct (strip (text s)) as [|x xs] eqn:Et.
    + apply IH.
    + change (match valid with [] => 0%Q | v :: _ => end_ (last valid v) end)
        with (prev_end_of valid).
      destruct (Qeq_bool (start s) 0 && Qeq_bool (end_ s) 0 && (0 <? i)) eqn:E.
      * set (o := mkseg (prev_end_of valid)
                    (prev_end_of valid + Qmax 2 (Qlen (text s) * (1#10)))%Q (x :: xs)).
        destruct (IH (valid ++ [o]) (S i)) as [fresh [E1 H]].
        exists (o :: fresh). split; [rewrite E1, <- app_assoc; reflexivity|].
        rewrite prev_end_of_snoc in H. cbn [cleaned_from].
        split; [symmetry; exact Et|]. split; [|exact H].
        left. apply andb_true_iff in E as [E E3]. apply andb_true_iff in E as [E1' E2].
        apply Qeq_bool_iff in E1'. apply Qeq_bool_iff in E2. apply Nat.ltb_lt in E3.
        split; [split; [exact E1'|split; [exact E2|exact E3]]|split; reflexivity].
      * set (o := mkseg (start s) (end_ s) (x :: xs)).
        destruct (IH (valid ++ [o]) (S i)) as [fresh [E1 H]].
        exists (o :: fresh). split; [rewrite E1, <- app_assoc; reflexivity|].
        rewrite prev_end_of_snoc in H. cbn [cleaned_from].
        split; [symmetry; exact Et|]. split; [|exact H].
        right. split; [|split; reflexivity].
        intros [E1' [E2 E3]]. apply Qeq_bool_iff in E1'. apply Qeq_bool_iff in E2.
        apply Nat.ltb_lt in E3. rewrite E1', E2, E3 in E. discriminate.
Qed.

(** The cleanup pass of [process] drops exactly the blank segments and
    keeps the others in order, with stripped text and their timestamps,
    except a segment after the first whose start and end are both 0: it
    starts at the end of the previous kept segment (0 if there is none) and
    lasts max(2, 0.1 * len(text)) seconds, [text] taken before stripping. *)
Theorem cleanup_spec (segs : list segment) :
  cleaned_from 0 (filter (fun p => nonblank (snd p)) (enumerate_from 0 segs)) (cleanup segs).
Proof.
  unfold cleanup. destruct (cleanup_aux_rel segs [] 0) as [fresh [-> H]]. exact H.
Qed.

Lemma cleaned_from_length (prev : Q) (ps : list (nat * segment)) (out : list segment) :
  cleaned_from prev ps out -> length out = length ps.
Proof.
  revert prev out. induction ps as [|[i s] ps IH]; intros prev [|o out]; cbn; try tauto.
  intros [_ [_ H]]. f_equal. exact (IH _ _ H).
Qed.

Lemma cleaned_from_texts (prev : Q) (ps : list (nat * segment)) (out : list segment) :
  cleaned_from prev ps out -> Forall (fun p => nonblank (snd p) = true) ps ->
  Forall text_ok out.
Proof.
  revert prev out. induction ps as [|[i s] ps IH]; intros prev [|o out]; cbn; try tauto.
  - constructor.
  - intros [Ht [_ H]] Hn. inversion Hn as [|? ? Hs Hn']; subst. constructor.
    + unfold text_ok. rewrite Ht. split; [apply strip_ok_ends|].
      unfold nonblank in Hs. cbn [snd] in Hs. destruct (strip (text s)); discriminate.
    + exact (IH _ _ H Hn').
Qed.

(** A segment whose start and end are not both 0. *)
Definition nonzero_span (o : segment) : Prop := ~ ((start o == 0)%Q /\ (end_ o == 0)%Q).

Lemma cleaned_from_nonzero (prev : Q) (ps : list (nat * segment)) (out : list segment) :
  cleaned_from prev ps out -> Forall (fun p => (0 < fst p)%nat) ps ->
  Forall nonzero_span out.
Proof.
  revert prev out. induction ps as [|[i s] ps IH]; intros prev [|o out]; cbn; try tauto.
  - constructor.
  - intros [_ [Hr H]] Hi. inversion Hi as [|? ? Hi0 Hi']; subst. cbn [fst] in Hi0.
    constructor; [|exact (IH _ _ H Hi')].
    unfold nonzero_span. destruct Hr as [[_ [Hs He]]|[Hnr [Hs He]]].
    + rewrite Hs, He. pose proof (Q.le_max_l 2 (Qlen (text s) * (1#10))%Q).
      intros [H1 H2]. lra.
    + rewrite Hs, He. intros [H1 H2]. apply Hnr. split; [exact H1|split; [exact H2|exact Hi0]].
Qed.

Lemma enumerate_from_fst (i : nat) (segs : list segment) :
  Forall (fun p => (i <= fst p)%nat) (enumerate_from i segs).
Proof.
  revert i. induction segs as [|s segs IH]; intro i; [constructor|].
  rewrite enumerate_from_cons. constructor; [cbn; lia|].
  eapply Forall_impl; [|exact (IH (S i))]. intros p Hp. cbv beta in *. lia.
Qed.

Lemma Forall_filter_l {A} (P : A -> Prop) (f : A -> bool) (l : list A) :
  Forall P l -> Forall P (filter f l).
Proof.
  intro H. apply Forall_forall. intros x Hx. apply filter_In in Hx as [Hx _].
  exact (proj1 (Forall_forall P l) H x Hx).
Qed.

Lemma Forall_filter_f {A} (f : A -> bool) (l : list A) :
  Forall (fun x => f x = true) (filter f l).
Proof.
  apply Forall_forall. intros x Hx. apply filter_In in Hx as [_ Hx]. exact Hx.
Qed.

Lemma cleanup_texts (segs : list segment) : Forall text_ok (cleanup segs).
Proof.
  unfold cleanup. destruct (cleanup_aux_rel segs [] 0) as [fresh [-> H]].
  exact (cleaned_from_texts _ _ _ H (Forall_filter_f _ _)).
Qed.

Lemma cleanup_length (segs : list segment) : (length (cleanup segs) <= length segs)%nat.
Proof.
  unfold cleanup. destruct (cleanup_aux_rel segs [] 0) as [fresh [-> H]].
  cbn [app]. rewrite (cleaned_from_length _ _ _ H).
  etransitivity; [apply filter_length_le'|].
  unfold enumerate_from. rewrite length_combine, length_seq. lia.
Qed.

(** Only the first segment of the cleanup's output can have start and end
    both 0. *)
Lemma cleanup_nonzero (segs : list segment) : Forall nonzero_span (tl (cleanup segs)).
Proof.
  destruct segs as [|s segs]; [constructor|].
  unfold cleanup. destruct (cleanup_aux_rel (s :: segs) [] 0) as [fresh [-> H]].
  cbn [app]. rewrite enumerate_from_cons in H. cbn [filter snd] in H.
  assert (Hi : Forall (fun p => (0 < fst p)%nat)
                 (filter (fun p => nonblank (snd p)) (enumerate_from 1 segs))).
  { apply Forall_filter_l. exact (enumerate_from_fst 1 segs). }
  destruct (nonblank s).
  - destruct fresh as [|o fresh]; [destruct H|]. destruct H as [_ [_ H]].
    exact (cleaned_from_nonzero _ _ _ H Hi).
  - pose proof (cleaned_from_nonzero _ _ _ H Hi) as Hz.
    destruct fresh as [|o fresh]; [constructor|]. inversion Hz; assumption.
Qed.

Lemma cleanup_aux_keep (m : list segment) :
  Forall (fun o => text_ok o /\ nonzero_span o) m ->
  forall i valid, cleanup_aux i valid m = valid ++ m.
Proof.
  induction 1 as [|[st en tx] m [[Hok Hne] Hz] Hm IH]; intros i valid.
  - simpl. rewrite app_nil_r. reflexivity.
  - unfold nonzero_span in Hz. cbn [text start end_] in Hok, Hne, Hz.
    cbn [cleanup_aux text start end_]. rewrite (strip_of_ok_ends tx Hok).
    destruct tx as [|x xs]; [contradiction|].
    destruct (Qeq_bool st 0 && Qeq_bool en 0 && (0 <? i)) eqn:E.
    + exfalso. apply andb_true_iff in E as [E _]. apply andb_true_iff in E as [E1 E2].
      apply Qeq_bool_iff in E1. apply Qeq_bool_iff in E2. exact (Hz (conj E1 E2)).
    + rewrite IH. rewrite <- app_assoc. reflexivity.
Qed.

(** The cleanup pass is idempotent. *)
Lemma cleanup_idem (segs : list segment) : cleanup (cleanup segs) = cleanup segs.
Proof.
  pose proof (cleanup_texts segs) as Ht. pose proof (cleanup_nonzero segs) as Hz.
  destruct (cleanup segs) as [|[st en tx] rest]; [reflexivity|].
  inversion Ht as [|? ? [Hok Hne] Ht']; subst. cbn [tl] in Hz.
  cbn [text] in Hok, Hne. unfold cleanup. cbn [cleanup_aux text start end_].
  rewrite (strip_of_ok_ends tx Hok). destruct tx as [|x xs]; [contradiction|].
  rewrite andb_false_r. apply cleanup_aux_keep.
  apply Forall_forall. intros o Ho. split.
  - exact (proj1 (Forall_forall _ _) Ht' o Ho).
  - exact (proj1 (Forall_forall _ _) Hz o Ho).
Qed.

(** Every segment [process] keeps after cleanup and merging has a
    non-empty text without surrounding whitespace, and there are no more
    segments than in the input. *)
Theorem process_segments_texts (segs : list segment) :
  Forall text_ok (process_segments segs) /\ (length (process_segments segs) <= length segs)%nat.
Proof.
  destruct segs as [|s0 segs0]; [split; [constructor|reflexivity]|].
  unfold process_segments. cbv zeta.
  pose proof (cleanup_length (s0 :: segs0)).
  pose proof (merge_short_segments_length (cleanup (s0 :: segs0)) 8 20).
  destruct (Qlt_bool _ 6); [destruct (_ && _)|];
    (split; [apply merge_short_segments_texts || apply cleanup_texts|lia]).
Qed.

(** The merge gate of [process] applied to the cleaned segments [c]. *)
Definition gate_merge (c : list segment) : list segment :=
  let merged_segments := merge_short_segments c 8 20 in
  if (0 <? length merged_segments) && Qlt_bool (Qlen merged_segments) (Qlen c * (8#10))%Q
  then merged_segments else c.

Lemma process_segments_eq (segs : list segment) :
  segs <> [] ->
  process_segments segs =
    if Qlt_bool (sum_durations segs / Qlen segs) 6 then gate_merge (cleanup segs)
    else cleanup segs.
Proof. destruct segs; [contradiction|reflexivity]. Qed.

(** A non-empty merge of a cleaned list with non-decreasing starts and
    ends is a fixed point of the pipeline. *)
Lemma process_segments_merged (c : list segment) :
  StronglySorted nondecr c -> merge_short_segments c 8 20 <> [] ->
  process_segments (merge_short_segments c 8 20) = merge_short_segments c 8 20.
Proof.
  intros Hss Hne.
  assert (H18 : (1 <= 8)%Q) by (unfold Qle; simpl; lia).
  destruct (merge_output_ok 8 20 H18 c Hss) as [Hf Hso].
  set (m := merge_short_segments c 8 20) in *.
  assert (Hcm : cleanup m = m) by (apply cleanup_fixed; exact Hf).
  assert (Hmm : merge_short_segments m 8 20 = m)
    by (apply merge_fixed; [exact Hne|exact Hf|exact Hso]).
  clearbody m. rewrite process_segments_eq by exact Hne.
  unfold gate_merge. rewrite Hcm, Hmm.
  destruct (Qlt_bool _ 6); [destruct (_ && _)|]; reflexivity.
Qed.

(** C6 (amended): applying the cleanup-and-merge pipeline of [process] to
    its own output yields the same segment list, provided the cleaned
    segments have non-decreasing starts and ends and the cleanup does not
    bring the average duration below the 6-second merge threshold (if the
    cleaned list is non-empty and its average is below 6 s, so is the
    average of the input). Stripped whitespace, and blank or repaired
    segments that leave the average on the same side of 6 s, are allowed. *)
Theorem process_segments_idempotent (segs : list segment) :
  (cleanup segs <> [] ->
   (sum_durations (cleanup segs) / Qlen (cleanup segs) < 6)%Q ->
   (sum_durations segs / Qlen segs < 6)%Q) ->
  Sorted nondecr (cleanup segs) ->
  process_segments (process_segments segs) = process_segments segs.
Proof.
  intros Hav Hs.
  assert (Hss : StronglySorted nondecr (cleanup segs))
    by (apply Sorted_StronglySorted; [exact nondecr_trans|exact Hs]).
  pose proof (cleanup_idem segs) as Hcc.
  destruct segs as [|s0 segs0]; [reflexivity|].
  rewrite (process_segments_eq (s0 :: segs0)) by discriminate.
  set (c := cleanup (s0 :: segs0)) in *. clearbody c.
  destruct (Qlt_bool (sum_durations (s0 :: segs0) / Qlen (s0 :: segs0)) 6) eqn:Eg.
  - unfold gate_merge. cbv zeta.
    destruct ((0 <? length (merge_short_segments c 8 20)) && _) eqn:Ec.
    + apply process_segments_merged; [exact Hss|].
      apply andb_true_iff in Ec as [Ec _]. apply Nat.ltb_lt in Ec.
      intro H. rewrite H in Ec. simpl in Ec. lia.
    + destruct c as [|a c']; [reflexivity|].
      rewrite process_segments_eq by discriminate. rewrite Hcc.
      unfold gate_merge. cbv zeta. rewrite Ec.
      match goal with |- (if ?b then _ else _) = _ => destruct b end; reflexivity.
  - destruct c as [|a c']; [reflexivity|].
    rewrite process_segments_eq by discriminate. rewrite Hcc.
    destruct (Qlt_bool (sum_durations (a :: c') / Qlen (a :: c')) 6) eqn:Eg2;
      [|reflexivity].
    exfalso. apply Qlt_bool_iff in Eg2. apply Hav in Eg2; [|discriminate].
    apply Qlt_bool_iff in Eg2. congruence.
Qed.

(** Three two-second captions with the padding Whisper leaves around the
    text. *)
Definition padded_run : list segment :=
  [mkseg 0 2 (lit " so we start"); mkseg 2 4 (lit " with the basics");
   mkseg 4 6 (lit " of the method")].

Lemma process_segments_idempotent_witness :
  cleanup padded_run <> padded_run /\
  (cleanup padded_run <> [] ->
   (sum_durations (cleanup padded_run) / Qlen (cleanup padded_run) < 6)%Q ->
   (sum_durations padded_run / Qlen padded_run < 6)%Q) /\
  Sorted nondecr (cleanup padded_run) /\
  process_segments (process_segments padded_run) = process_segments padded_run.
Proof.
  assert (Hd : cleanup padded_run <> padded_run) by (vm_compute; discriminate).
  assert (Ha : cleanup padded_run <> [] ->
               (sum_durations (cleanup padded_run) / Qlen (cleanup padded_run) < 6)%Q ->
               (sum_durations padded_run / Qlen padded_run < 6)%Q)
    by (intros _ _; vm_compute; reflexivity).
  assert (Hs : Sorted nondecr (cleanup padded_run)).
  { assert (E : cleanup padded_run =
                [mkseg 0 2 (lit "so we start"); mkseg 2 4 (lit "with the basics");
                 mkseg 4 6 (lit "of the method")]) by (vm_compute; reflexivity).
    rewrite E. repeat constructor; unfold Qle; simpl; lia. }
  split; [exact Hd|]. split; [exact Ha|]. split; [exact Hs|].
  exact (process_segments_idempotent padded_run Ha Hs).
Defined.

(** ** Clip paths *)
Lemma replace_aux_absent (old new s : str) :
  contains old s = false -> replace_aux old new 0 s = s.
Proof.
  induction s as [|c s IH]; intro H; [reflexivity|].
  simpl in H. apply orb_false_iff in H as [H1 H2].
  simpl. rewrite H1. f_equal. apply IH. exact H2.
Qed.

(** When the output path has no ".mp4" in it, [str.replace] leaves it
    as it is: every temporary clip path and the debug clip path are the
    output path itself. *)
Theorem clip_paths_without_mp4 (output_path : str) (i : nat) :
  contains (lit ".mp4") output_path = false ->
  temp_clip_path output_path i = output_path /\ debug_clip_path output_path = output_path.
Proof.
  intro H. unfold temp_clip_path, debug_clip_path, py_replace.
  split; apply replace_aux_absent; exact H.
Qed.

Lemma is_prefix_app_l (p x y : str) :
  (length p <= length x)%nat -> is_prefix p (x ++ y) = is_prefix p x.
Proof.
  revert x. induction p as [|a p IH]; intros x Hl; [reflexivity|].
  destruct x as [|b x]; [simpl in Hl; lia|].
  simpl. rewrite IH by (simpl in Hl; lia). reflexivity.
Qed.

(** No occurrence of ".mp4" overlaps a final ".mp4". *)
Lemma mp4_not_overlapping (x : str) :
  x <> [] -> is_prefix (lit ".mp4") x = false ->
  is_prefix (lit ".mp4") (x ++ lit ".mp4") = false.
Proof.
  intros Hx Hp.
  destruct (Nat.le_gt_cases 4 (length x)) as [L|L].
  - rewrite is_prefix_app_l by exact L. exact Hp.
  - destruct x as [|a [|b [|c [|d x]]]]; try contradiction; simpl in L; try lia;
      simpl; repeat rewrite andb_false_r; reflexivity.
Qed.

Lemma replace_mp4_suffix (new p : str) :
  contains (lit ".mp4") p = false ->
  replace_aux (lit ".mp4") new 0 (p ++ lit ".mp4") = p ++ new.
Proof.
  induction p as [|c p IH]; intro H.
  - simpl. rewrite app_nil_r. reflexivity.
  - pose proof H as H'. simpl in H'. apply orb_false_iff in H' as [H1 H2].
    pose proof (mp4_not_overlapping (c :: p) ltac:(discriminate) H1) as Hn.
    cbn [app replace_aux] in Hn |- *. rewrite Hn.
    f_equal. apply IH. exact H2.
Qed.

(** For an output path [p ++ ".mp4"] where [p] has no ".mp4", the
    temporary clip of strategy [i] is [p ++ "_test_<i>.mp4"] and the debug
    clip is [p ++ "_debug_extended.mp4"]; neither is the output path. *)
Theorem clip_paths_with_mp4 (p : str) (i : nat) :
  contains (lit ".mp4") p = false ->
  temp_clip_path (p ++ lit ".mp4") i = p ++ lit "_test_" ++ [digit i] ++ lit ".mp4" /\
  debug_clip_path (p ++ lit ".mp4") = p ++ lit "_debug_extended.mp4" /\
  temp_clip_path (p ++ lit ".mp4") i <> p ++ lit ".mp4" /\
  debug_clip_path (p ++ lit ".mp4") <> p ++ lit ".mp4".
Proof.
  intro H. unfold temp_clip_path, debug_clip_path, py_replace.
  rewrite !replace_mp4_suffix by exact H.
  split; [reflexivity|]. split; [reflexivity|].
  split; intro E; apply app_inv_head in E; discriminate E.
Qed.

Lemma clip_paths_with_mp4_witness :
  contains (lit ".mp4") (lit "public/job1_clip") = false /\
  temp_clip_path (lit "public/job1_clip" ++ lit ".mp4") 2 =
    lit "public/job1_clip" ++ lit "_test_" ++ [digit 2] ++ lit ".mp4" /\
  debug_clip_path (lit "public/job1_clip" ++ lit ".mp4") =
    lit "public/job1_clip" ++ lit "_debug_extended.mp4" /\
  temp_clip_path (lit "public/job1_clip" ++ lit ".mp4") 2 <> lit "public/job1_clip" ++ lit ".mp4" /\
  debug_clip_path (lit "public/job1_clip" ++ lit ".mp4") <> lit "public/job1_clip" ++ lit ".mp4".
Proof.
  split; [vm_compute; reflexivity|].
  apply (clip_paths_with_mp4 (lit "public/job1_clip") 2). vm_compute. reflexivity.
Defined.

Lemma clip_paths_without_mp4_witness :
  contains (lit ".mp4") (lit "clip.mov") = false /\
  temp_clip_path (lit "clip.mov") 3 = lit "clip.mov" /\
  debug_clip_path (lit "clip.mov") = lit "clip.mov".
Proof.
  split; [vm_compute; reflexivity|].
  apply (clip_paths_without_mp4 (lit "clip.mov") 3). vm_compute. reflexivity.
Defined.

(** ** The strategy loop *)
(** The extraction calls of strategies [i, i+1, ...] of [ss]. *)
Fixpoint strategy_calls (start end_t : Q) (output_path : str) (padding : Q)
         (i : nat) (ss : list strategy) : list event :=
  match ss with
  | [] => []
  | st :: rest =>
      ExtractCall (temp_clip_path output_path i) (Qmax 0 (start + start_offset st))
                  (end_t + end_offset st) (padding + extra_padding st)
        :: strategy_calls start end_t output_path padding (S i) rest
  end.

(** The events that put a file at a destination. *)
Definition is_delivery (e : event) : bool :=
  match e with Moved _ _ | Copied _ _ => true | _ => false end.

Lemma try_strategies_some (w : world) (start end_t : Q) (output_path : str) (padding : Q) :
  forall ss i trace tr o,
  try_strategies w start end_t output_path padding i ss trace = (tr, Some o) ->
  exists k st, nth_error ss k = Some st /\
    (exists c, o = Verified (name st) (Qmax 0 (start + start_offset st))
                            (end_t + end_offset st) c start end_t) /\
    filter is_extract_call tr =
      filter is_extract_call trace ++
      strategy_calls start end_t output_path padding i (firstn (S k) ss) /\
    exists mid, tr = trace ++ mid ++ [Moved (temp_clip_path output_path (i + k)) output_path] /\
                filter is_delivery mid = [].
Proof.
  induction ss as [|st rest IH]; intros i trace tr o H; [discriminate|].
  cbn [try_strategies] in H.
  set (call := ExtractCall (temp_clip_path output_path i) (Qmax 0 (start + start_offset st))
                 (end_t + end_offset st) (padding + extra_padding st)) in H.
  assert (Step : forall tr0,
    try_strategies w start end_t output_path padding (S i) rest (trace ++ call :: tr0) = (tr, Some o) ->
    filter is_delivery tr0 = [] -> filter is_extract_call tr0 = [] ->
    exists k st0, nth_error (st :: rest) k = Some st0 /\
      (exists c, o = Verified (name st0) (Qmax 0 (start + start_offset st0))
                              (end_t + end_offset st0) c start end_t) /\
      filter is_extract_call tr =
        filter is_extract_call trace ++
        strategy_calls start end_t output_path padding i (firstn (S k) (st :: rest)) /\
      exists mid, tr = trace ++ mid ++ [Moved (temp_clip_path output_path (i + k)) output_path] /\
                  filter is_delivery mid = []).
  { intros tr0 Ht Hd He.
    destruct (IH _ _ _ _ Ht) as [k [st0 [Hn [Ho [Hf [mid [Hm Hmd]]]]]]].
    exists (S k), st0. split; [exact Hn|]. split; [exact Ho|]. split.
    - rewrite Hf, !filter_app. cbn [filter]. rewrite He. simpl. rewrite <- app_assoc. reflexivity.
    - exists (call :: tr0 ++ mid). split.
      + rewrite Hm. replace (i + S k) with (S i + k) by lia. rewrite <- !app_assoc. simpl. rewrite <- !app_assoc. reflexivity.
      + cbn [filter is_delivery call]. rewrite filter_app, Hd, Hmd. reflexivity. }
  destruct (negb _).
  - apply (Step []); [exact H|reflexivity|reflexivity].
  - destruct (likely_contains_quote _).
    + destruct (move_ok _ _ _).
      * injection H as <- <-. exists 0, st. split; [reflexivity|]. split; [eexists; reflexivity|].
        split.
        -- rewrite !filter_app. simpl. rewrite app_nil_r. reflexivity.
        -- exists [call]. rewrite Nat.add_0_r, <- app_assoc. split; reflexivity.
      * rewrite <- app_assoc in H. apply (Step [Removed (temp_clip_path output_path i)]);
          [exact H|reflexivity|reflexivity].
    + rewrite <- app_assoc in H. apply (Step [Removed (temp_clip_path output_path i)]);
        [exact H|reflexivity|reflexivity].
Qed.

Lemma try_strategies_none (w : world) (start end_t : Q) (output_path : str) (padding : Q) :
  forall ss i trace tr,
  try_strategies w start end_t output_path padding i ss trace = (tr, None) ->
  filter is_extract_call tr =
    filter is_extract_call trace ++ strategy_calls start end_t output_path padding i ss /\
  filter is_delivery tr = filter is_delivery trace.
Proof.
  induction ss as [|st rest IH]; intros i trace tr H.
  - injection H as <-. rewrite app_nil_r. split; reflexivity.
  - cbn [try_strategies] in H.
    destruct (negb _);
      [|destruct (likely_contains_quote _); [destruct (move_ok _ _ _); [discriminate|]|]];
      apply IH in H as [H1 H2]; rewrite H1, H2, !filter_app; simpl;
      rewrite <- !app_assoc, ?app_nil_r; split; reflexivity.
Qed.

(** A verified extraction comes from some strategy [k] of the list:
    its name, its adjusted times and the original times are reported; the
    strategies were tried in list order up to [k], one extraction call
    each on the temporary paths [0..k]; and the only file delivered is the
    clip of strategy [k], moved to the output path as the last event. *)
Theorem extract_clip_verified_trace (w : world) (start end_t : Q) (output_path : str)
        (padding : Q) (trace : list event) (nm : str) (a b : Q) (c : str) (os oe : Q) :
  extract_clip_with_verification w start end_t output_path padding =
    Ok (trace, Verified nm a b c os oe) ->
  exists k st, nth_error strategies k = Some st /\
    nm = name st /\ a = Qmax 0 (start + start_offset st) /\ b = (end_t + end_offset st)%Q /\
    os = start /\ oe = end_t /\
    filter is_extract_call trace =
      strategy_calls start end_t output_path padding 0 (firstn (S k) strategies) /\
    exists mid, trace = mid ++ [Moved (temp_clip_path output_path k) output_path] /\
                filter is_delivery mid = [].
Proof.
  unfold extract_clip_with_verification.
  destruct (try_strategies w start end_t output_path padding 0 strategies []) as [tr [o|]] eqn:E.
  - intro H. injection H as <- ->.
    apply try_strategies_some in E as [k [st [Hn [[c' Ho] [Hf [mid [Hm Hd]]]]]]].
    injection Ho as -> -> -> _ -> ->.
    exists k, st. split; [exact Hn|]. repeat (split; [reflexivity|]). split; [exact Hf|].
    exists mid. split; [exact Hm|exact Hd].
  - cbv zeta. destruct (snd _); [destruct (copy_ok _ _ _)|]; discriminate.
Qed.

(** An unverified extraction has tried all five strategies in list
    order, one extraction call each on the temporary paths [0..4], then the
    debug extraction; the only file delivered is the debug clip, copied to
    the output path, when the outcome names it. *)
Theorem extract_clip_unverified_trace (w : world) (start end_t : Q) (output_path : str)
        (padding : Q) (trace : list event) (d : option str) :
  extract_clip_with_verification w start end_t output_path padding =
    Ok (trace, Unverified d) ->
  filter is_extract_call trace =
    strategy_calls start end_t output_path padding 0 strategies ++
    [ExtractCall (debug_clip_path output_path) (Qmax 0 (start - 30)) (end_t + 30) 0] /\
  filter is_delivery trace = match d with Some p => [Copied p output_path] | None => [] end.
Proof.
  unfold extract_clip_with_verification.
  destruct (try_strategies w start end_t output_path padding 0 strategies []) as [tr [o|]] eqn:E.
  - intro H. injection H as _ ->. exfalso.
    apply try_strategies_some in E as [k [st [_ [[c Ho] _]]]]. discriminate Ho.
  - apply try_strategies_none in E as [E1 E2]. cbv zeta.
    destruct (snd _); [destruct (copy_ok _ _ _)|]; intro H; try discriminate;
      injection H as <- <-; rewrite !filter_app, E1, E2; simpl;
      rewrite ?app_nil_r; split; reflexivity.
Qed.

(** A world where every strategy extracts, but only a clip of the second
    strategy passes the checks (long enough, with audio, large enough). *)
Definition second_strategy_world : world :=
  mkworld (ProbeOut (Some 100%Q)) (fun _ => true)
          (fun p => if str_eqb p (temp_clip_path out_clip 1) then DurOut (Some 10%Q) else DurRaises)
          (fun _ => Some true) (fun _ => Some 200000%Z)
          (fun _ _ => true) (fun _ _ => true).

Lemma extract_clip_verified_trace_witness :
  extract_clip_with_verification second_strategy_world 10 20 out_clip (3#2) =
    Ok ([ExtractCall (temp_clip_path out_clip 0) 10 20 (3#2);
         Removed (temp_clip_path out_clip 0);
         ExtractCall (temp_clip_path out_clip 1) 8 22 (5#2);
         Moved (temp_clip_path out_clip 1) out_clip],
        Verified (lit "Small buffer") 8 22 (lit "high") 10 20) /\
  exists k st, nth_error strategies k = Some st /\
    lit "Small buffer" = name st /\ 8%Q = Qmax 0 (10 + start_offset st) /\
    22%Q = (20 + end_offset st)%Q /\ 10%Q = 10%Q /\ 20%Q = 20%Q /\
    filter is_extract_call
      [ExtractCall (temp_clip_path out_clip 0) 10 20 (3#2);
       Removed (temp_clip_path out_clip 0);
       ExtractCall (temp_clip_path out_clip 1) 8 22 (5#2);
       Moved (temp_clip_path out_clip 1) out_clip] =
      strategy_calls 10 20 out_clip (3#2) 0 (firstn (S k) strategies) /\
    exists mid,
      [ExtractCall (temp_clip_path out_clip 0) 10 20 (3#2);
       Removed (temp_clip_path out_clip 0);
       ExtractCall (temp_clip_path out_clip 1) 8 22 (5#2);
       Moved (temp_clip_path out_clip 1) out_clip] =
        mid ++ [Moved (temp_clip_path out_clip k) out_clip] /\
      filter is_delivery mid = [].
Proof.
  assert (H : extract_clip_with_verification second_strategy_world 10 20 out_clip (3#2) =
    Ok ([ExtractCall (temp_clip_path out_clip 0) 10 20 (3#2);
         Removed (temp_clip_path out_clip 0);
         ExtractCall (temp_clip_path out_clip 1) 8 22 (5#2);
         Moved (temp_clip_path out_clip 1) out_clip],
        Verified (lit "Small buffer") 8 22 (lit "high") 10 20))
    by (vm_compute; reflexivity).
  split; [exact H|].
  exact (extract_clip_verified_trace _ _ _ _ _ _ _ _ _ _ _ _ H).
Defined.

Lemma extract_clip_unverified_trace_witness :
  extract_clip_with_verification debug_only_world 10 20 out_clip (3#2) =
    Ok ([ExtractCall (temp_clip_path out_clip 0) 10 20 (3#2);
         ExtractCall (temp_clip_path out_clip 1) 8 22 (5#2);
         ExtractCall (temp_clip_path out_clip 2) 5 25 (7#2);
         ExtractCall (temp_clip_path out_clip 3) 0 30 (9#2);
         ExtractCall (temp_clip_path out_clip 4) 0 50 (13#2);
         ExtractCall (debug_clip_path out_clip) 0 50 0;
         Copied (debug_clip_path out_clip) out_clip],
        Unverified (Some (debug_clip_path out_clip))) /\
  filter is_delivery
    [ExtractCall (temp_clip_path out_clip 0) 10 20 (3#2);
     ExtractCall (temp_clip_path out_clip 1) 8 22 (5#2);
     ExtractCall (temp_clip_path out_clip 2) 5 25 (7#2);
     ExtractCall (temp_clip_path out_clip 3) 0 30 (9#2);
     ExtractCall (temp_clip_path out_clip 4) 0 50 (13#2);
     ExtractCall (debug_clip_path out_clip) 0 50 0;
     Copied (debug_clip_path out_clip) out_clip] =
    [Copied (debug_clip_path out_clip) out_clip].
Proof.
  assert (H : extract_clip_with_verification debug_only_world 10 20 out_clip (3#2) =
    Ok ([ExtractCall (temp_clip_path out_clip 0) 10 20 (3#2);
         ExtractCall (temp_clip_path out_clip 1) 8 22 (5#2);
         ExtractCall (temp_clip_path out_clip 2) 5 25 (7#2);
         ExtractCall (temp_clip_path out_clip 3) 0 30 (9#2);
         ExtractCall (temp_clip_path out_clip 4) 0 50 (13#2);
         ExtractCall (debug_clip_path out_clip) 0 50 0;
         Copied (debug_clip_path out_clip) out_clip],
        Unverified (Some (debug_clip_path out_clip))))
    by (vm_compute; reflexivity).
  split; [exact H|].
  exact (proj2 (extract_clip_unverified_trace _ _ _ _ _ _ _ H)).
Defined.

(** With a quote and segments set, [extract_clip] returns [True]
    exactly when its trace delivers a file (a move or a copy) to the
    output path. *)
Theorem extract_clip_true_iff_delivered (w : world) (quote : str) (segments : list segment)
        (start end_t : Q) (output_path : str) (padding : Q) (trace : list event) (b : bool) :
  quote <> [] -> segments <> [] ->
  extract_clip w quote segments start end_t output_path padding = Ok (trace, b) ->
  b = true <-> exists src, In (Moved src output_path) trace \/ In (Copied src output_path) trace.
Proof.
  intros Hq Hs. unfold extract_clip.
  destruct quote as [|q0 q]; [contradiction|]. destruct segments as [|s0 ss]; [contradiction|].
  destruct (extract_clip_with_verification w start end_t output_path padding)
    as [[tr [nm a b' c os oe|d]]|e] eqn:E; cbn [bind]; intro H; [| |discriminate];
    injection H as -> <-.
  - split; [|reflexivity]. intros _.
    apply extract_clip_verified_trace in E as [k [_ [_ [_ [_ [_ [_ [_ [_ [mid [Hm _]]]]]]]]]]].
    exists (temp_clip_path output_path k). left. rewrite Hm. apply in_or_app. right. left. reflexivity.
  - apply extract_clip_unverified_trace in E as [_ E2].
    assert (D : forall src, In (Moved src output_path) trace \/ In (Copied src output_path) trace ->
                In (if true then Moved src output_path else Moved src output_path) (filter is_delivery trace)
                \/ In (Copied src output_path) (filter is_delivery trace)).
    { intros src [H|H]; [left|right]; apply filter_In; split; auto. }
    destruct d as [p|]; split.
    + intros _. exists p. right. apply (proj1 (filter_In is_delivery _ trace)).
      rewrite E2. left. reflexivity.
    + reflexivity.
    + discriminate.
    + intros [src Hin]. apply D in Hin. rewrite E2 in Hin. destruct Hin as [[]|[]].
Qed.

Lemma extract_clip_true_iff_delivered_witness :
  lit "hello" <> [] /\ fox_segments <> [] /\
  extract_clip debug_only_world (lit "hello") fox_segments 10 20 out_clip (3#2) =
    Ok ([ExtractCall (temp_clip_path out_clip 0) 10 20 (3#2);
         ExtractCall (temp_clip_path out_clip 1) 8 22 (5#2);
         ExtractCall (temp_clip_path out_clip 2) 5 25 (7#2);
         ExtractCall (temp_clip_path out_clip 3) 0 30 (9#2);
         ExtractCall (temp_clip_path out_clip 4) 0 50 (13#2);
         ExtractCall (debug_clip_path out_clip) 0 50 0;
         Copied (debug_clip_path out_clip) out_clip], true) /\
  (true = true <-> exists src,
     In (Moved src out_clip)
       [ExtractCall (temp_clip_path out_clip 0) 10 20 (3#2);
        ExtractCall (temp_clip_path out_clip 1) 8 22 (5#2);
        ExtractCall (temp_clip_path out_clip 2) 5 25 (7#2);
        ExtractCall (temp_clip_path out_clip 3) 0 30 (9#2);
        ExtractCall (temp_clip_path out_clip 4) 0 50 (13#2);
        ExtractCall (debug_clip_path out_clip) 0 50 0;
        Copied (debug_clip_path out_clip) out_clip] \/
     In (Copied src out_clip)
       [ExtractCall (temp_clip_path out_clip 0) 10 20 (3#2);
        ExtractCall (temp_clip_path out_clip 1) 8 22 (5#2);
        ExtractCall (temp_clip_path out_clip 2) 5 25 (7#2);
        ExtractCall (temp_clip_path out_clip 3) 0 30 (9#2);
        ExtractCall (temp_clip_path out_clip 4) 0 50 (13#2);
        ExtractCall (debug_clip_path out_clip) 0 50 0;
        Copied (debug_clip_path out_clip) out_clip]).
Proof.
  assert (Hq : lit "hello" <> []) by discriminate.
  assert (Hs : fox_segments <> []) by discriminate.
  assert (H : extract_clip debug_only_world (lit "hello") fox_segments 10 20 out_clip (3#2) =
    Ok ([ExtractCall (temp_clip_path out_clip 0) 10 20 (3#2);
         ExtractCall (temp_clip_path out_clip 1) 8 22 (5#2);
         ExtractCall (temp_clip_path out_clip 2) 5 25 (7#2);
         ExtractCall (temp_clip_path out_clip 3) 0 30 (9#2);
         ExtractCall (temp_clip_path out_clip 4) 0 50 (13#2);
         ExtractCall (debug_clip_path out_clip) 0 50 0;
         Copied (debug_clip_path out_clip) out_clip], true))
    by (vm_compute; reflexivity).
  split; [exact Hq|]. split; [exact Hs|]. split; [exact H|].
  exact (extract_clip_true_iff_delivered _ _ _ _ _ _ _ _ _ Hq Hs H).
Defined.

(** ** The times [process_clip_request] reports *)
Definition fox_request : request := mkrequest true true fox_segments (3#2) out_clip.

Lemma Qeq_bool_shift (e d : Q) : Qeq_bool (e + d) e = Qeq_bool d 0.
Proof.
  destruct (Qeq_bool d 0) eqn:E.
  - apply Qeq_bool_iff in E. apply Qeq_bool_iff. rewrite E. ring.
  - destruct (Qeq_bool (e + d) e) eqn:F; [|reflexivity].
    apply Qeq_bool_iff in F. exfalso.
    assert (d == 0)%Q as G by lra. apply Qeq_bool_iff in G. congruence.
Qed.

Lemma Qeq_bool_max0 (s : Q) : Qeq_bool (Qmax 0 (s + 0)) s = Qle_bool 0 s.
Proof.
  destruct (Qle_bool 0 s) eqn:E.
  - apply Qle_bool_iff in E. apply Qeq_bool_iff.
    rewrite Q.max_r by lra. ring.
  - destruct (Qeq_bool _ _) eqn:F; [|reflexivity]. exfalso.
    apply Qeq_bool_iff in F.
    assert (0 <= s)%Q as G by (rewrite <- F; apply Q.le_max_l).
    apply Qle_bool_iff in G. congruence.
Qed.

(** When [process_clip_request] returns a verified clip, its start and
    end are the times of one of the five strategies applied to the
    matcher's interval [(s, e)], and the [timing_adjusted] flag is false
    exactly when the strategy is "Exact timing" and [s] is not negative. *)
Theorem process_clip_request_verified_times (seqsim : str -> str -> Q) (rq : request)
        (w : world) (quote : str) (trace : list event) (r : clip_result)
        (nm conf : str) (adjusted : bool) :
  process_clip_request seqsim rq w quote = Ok (trace, r) ->
  verification_info r = Some (nm, conf, adjusted) ->
  exists s e snip st,
    yt_find_quote_timestamps seqsim (loaded_segments rq) quote 20 (65#100) 2
      = Ok (Some (s, e, snip)) /\
    In st strategies /\ nm = name st /\
    start_time r = Qmax 0 (s + start_offset st) /\ end_time r = (e + end_offset st)%Q /\
    (adjusted = false <-> nm = lit "Exact timing" /\ (0 <= s)%Q).
Proof.
  unfold process_clip_request.
  destruct (negb _); [discriminate|].
  destruct (filter has_valid_timestamp _) as [|sg0 sgs0]; [discriminate|].
  destruct (yt_find_quote_timestamps _ _ _ _ _ _) as [[[[s e] snip]|]|err]; cbn [bind];
    [|discriminate|discriminate].
  destruct (extract_clip_with_verification w s e (clip_path rq) (clip_padding rq))
    as [[tr [n a b c os oe|[d|]]]|err] eqn:E; cbn [bind];
    [|destruct (copy_ok _ _ _); [|discriminate]|discriminate|discriminate].
  - intro H. injection H as <- <-. cbn [verification_info start_time end_time].
    intro V. injection V as -> -> <-.
    apply extract_clip_verified_trace in E
      as [k [st [Hn [-> [-> [-> [-> [-> _]]]]]]]].
    exists s, e, snip, st. split; [reflexivity|].
    split; [eapply nth_error_In; exact Hn|]. split; [reflexivity|].
    split; [reflexivity|]. split; [reflexivity|].
    destruct k as [|[|[|[|[|k]]]]]; simpl in Hn; try (destruct k; discriminate Hn); inversion Hn; clear Hn;
      cbn [name start_offset end_offset];
      rewrite Qeq_bool_shift.
    + rewrite Qeq_bool_max0. change (Qeq_bool 0 0) with true. rewrite orb_false_r.
      split.
      * intro H. destruct (Qle_bool 0 s) eqn:L; [|discriminate].
        split; [reflexivity|apply Qle_bool_iff; exact L].
      * intros [_ L]. apply Qle_bool_iff in L. rewrite L. reflexivity.
    + rewrite orb_true_r. split; [discriminate|intros [Hx _]; discriminate Hx].
    + rewrite orb_true_r. split; [discriminate|intros [Hx _]; discriminate Hx].
    + rewrite orb_true_r. split; [discriminate|intros [Hx _]; discriminate Hx].
    + rewrite orb_true_r. split; [discriminate|intros [Hx _]; discriminate Hx].
  - intro H. injection H as <- <-. discriminate.
Qed.

Lemma process_clip_request_verified_times_witness :
  process_clip_request (fun _ _ => 1#2) fox_request second_strategy_world fox_quote =
    Ok ([ExtractCall (temp_clip_path out_clip 0) 0 4 (3#2);
         Removed (temp_clip_path out_clip 0);
         ExtractCall (temp_clip_path out_clip 1) 0 6 (5#2);
         Moved (temp_clip_path out_clip 1) out_clip],
        mkresult 0 6 (Some (lit "Small buffer", lit "high", true)) (Some fox_text)) /\
  exists s e snip st,
    yt_find_quote_timestamps (fun _ _ => 1#2) (loaded_segments fox_request) fox_quote 20 (65#100) 2
      = Ok (Some (s, e, snip)) /\
    In st strategies /\ lit "Small buffer" = name st /\
    0%Q = Qmax 0 (s + start_offset st) /\ 6%Q = (e + end_offset st)%Q /\
    (true = false <-> lit "Small buffer" = lit "Exact timing" /\ (0 <= s)%Q).
Proof.
  assert (H : process_clip_request (fun _ _ => 1#2) fox_request second_strategy_world fox_quote =
    Ok ([ExtractCall (temp_clip_path out_clip 0) 0 4 (3#2);
         Removed (temp_clip_path out_clip 0);
         ExtractCall (temp_clip_path out_clip 1) 0 6 (5#2);
         Moved (temp_clip_path out_clip 1) out_clip],
        mkresult 0 6 (Some (lit "Small buffer", lit "high", true)) (Some fox_text)))
    by (vm_compute; reflexivity).
  split; [exact H|].
  exact (process_clip_request_verified_times _ _ _ _ _ _ _ _ _ H eq_refl).
Defined.

(** When [process_clip_request] falls back to the debug clip (no
    verification entry), it reports the matcher's interval widened by 30
    seconds on each side, [s - 30] to [e + 30], although the debug clip it
    extracted and copied to the output path starts at [max(0, s - 30)]. *)
Theorem process_clip_request_debug_times (seqsim : str -> str -> Q) (rq : request)
        (w : world) (quote : str) (trace : list event) (r : clip_result) :
  process_clip_request seqsim rq w quote = Ok (trace, r) ->
  verification_info r = None ->
  exists s e snip,
    yt_find_quote_timestamps seqsim (loaded_segments rq) quote 20 (65#100) 2
      = Ok (Some (s, e, snip)) /\
    start_time r = (s - 30)%Q /\ end_time r = (e + 30)%Q /\
    In (ExtractCall (debug_clip_path (clip_path rq)) (Qmax 0 (s - 30)) (e + 30) 0) trace /\
    In (Copied (debug_clip_path (clip_path rq)) (clip_path rq)) trace.
Proof.
  unfold process_clip_request.
  destruct (negb _); [discriminate|].
  destruct (filter has_valid_timestamp _) as [|sg0 sgs0]; [discriminate|].
  destruct (yt_find_quote_timestamps _ _ _ _ _ _) as [[[[s e] snip]|]|err]; cbn [bind];
    [|discriminate|discriminate].
  destruct (extract_clip_with_verification w s e (clip_path rq) (clip_padding rq))
    as [[tr [n a b c os oe|[d|]]]|err] eqn:E; cbn [bind];
    [|destruct (copy_ok _ _ _); [|discriminate]|discriminate|discriminate].
  - intro H. injection H as _ <-. discriminate.
  - intro H. injection H as <- <-. intros _.
    pose proof (extract_clip_unverified_path _ _ _ _ _ _ _ E) as ->.
    apply extract_clip_unverified_trace in E as [E1 _].
    exists s, e, snip. split; [reflexivity|]. split; [reflexivity|]. split; [reflexivity|].
    split.
    + apply in_or_app. left.
      assert (In (ExtractCall (debug_clip_path (clip_path rq)) (Qmax 0 (s - 30)) (e + 30) 0)
                 (filter is_extract_call tr)) as Hin.
      { rewrite E1. apply in_or_app. right. left. reflexivity. }
      apply filter_In in Hin as [Hin _]. exact Hin.
    + apply in_or_app. right. left. reflexivity.
Qed.

Lemma process_clip_request_debug_times_witness :
  process_clip_request (fun _ _ => 1#2) fox_request debug_only_world fox_quote =
    Ok ([ExtractCall (temp_clip_path out_clip 0) 0 4 (3#2);
         ExtractCall (temp_clip_path out_clip 1) 0 6 (5#2);
         ExtractCall (temp_clip_path out_clip 2) 0 9 (7#2);
         ExtractCall (temp_clip_path out_clip 3) 0 14 (9#2);
         ExtractCall (temp_clip_path out_clip 4) 0 34 (13#2);
         ExtractCall (debug_clip_path out_clip) 0 34 0;
         Copied (debug_clip_path out_clip) out_clip;
         Copied (debug_clip_path out_clip) out_clip],
        mkresult (-30) 34 None (Some fox_text)) /\
  exists s e snip,
    yt_find_quote_timestamps (fun _ _ => 1#2) (loaded_segments fox_request) fox_quote 20 (65#100) 2
      = Ok (Some (s, e, snip)) /\
    (-30)%Q = (s - 30)%Q /\ 34%Q = (e + 30)%Q /\
    In (ExtractCall (debug_clip_path out_clip) (Qmax 0 (s - 30)) (e + 30) 0)
       [ExtractCall (temp_clip_path out_clip 0) 0 4 (3#2);
        ExtractCall (temp_clip_path out_clip 1) 0 6 (5#2);
        ExtractCall (temp_clip_path out_clip 2) 0 9 (7#2);
        ExtractCall (temp_clip_path out_clip 3) 0 14 (9#2);
        ExtractCall (temp_clip_path out_clip 4) 0 34 (13#2);
        ExtractCall (debug_clip_path out_clip) 0 34 0;
        Copied (debug_clip_path out_clip) out_clip;
        Copied (debug_clip_path out_clip) out_clip] /\
    In (Copied (debug_clip_path out_clip) out_clip)
       [ExtractCall (temp_clip_path out_clip 0) 0 4 (3#2);
        ExtractCall (temp_clip_path out_clip 1) 0 6 (5#2);
        ExtractCall (temp_clip_path out_clip 2) 0 9 (7#2);
        ExtractCall (temp_clip_path out_clip 3) 0 14 (9#2);
        ExtractCall (temp_clip_path out_clip 4) 0 34 (13#2);
        ExtractCall (debug_clip_path out_clip) 0 34 0;
        Copied (debug_clip_path out_clip) out_clip;
        Copied (debug_clip_path out_clip) out_clip].
Proof.
  assert (H : process_clip_request (fun _ _ => 1#2) fox_request debug_only_world fox_quote =
    Ok ([ExtractCall (temp_clip_path out_clip 0) 0 4 (3#2);
         ExtractCall (temp_clip_path out_clip 1) 0 6 (5#2);
         ExtractCall (temp_clip_path out_clip 2) 0 9 (7#2);
         ExtractCall (temp_clip_path out_clip 3) 0 14 (9#2);
         ExtractCall (temp_clip_path out_clip 4) 0 34 (13#2);
         ExtractCall (debug_clip_path out_clip) 0 34 0;
         Copied (debug_clip_path out_clip) out_clip;
         Copied (debug_clip_path out_clip) out_clip],
        mkresult (-30) 34 None (Some fox_text)))
    by (vm_compute; reflexivity).
  split; [exact H|].
  exact (process_clip_request_debug_times _ _ _ _ _ _ H eq_refl).
Defined.

(* ------------------------------------------------------------------ *)
(** ** Proofs *)
Lemma str_eqb_eq (a b : str) : str_eqb a b = true <-> a = b.
Proof. unfold str_eqb. destruct (list_eq_dec ascii_dec a b); split; congruence. Qed.

Lemma str_eqb_refl (a : str) : str_eqb a a = true.
Proof. apply str_eqb_eq. reflexivity. Qed.

Lemma str_eqb_sym (a b : str) : str_eqb a b = str_eqb b a.
Proof.
  destruct (str_eqb a b) eqn:E; symmetry.
  - apply str_eqb_eq in E. subst. apply str_eqb_refl.
  - destruct (str_eqb b a) eqn:F; [|reflexivity].
    apply str_eqb_eq in F. subst. rewrite str_eqb_refl in E. discriminate.
Qed.

Lemma Qeq_bool_sym (x y : Q) : Qeq_bool x y = Qeq_bool y x.
Proof.
  destruct (Qeq_bool x y) eqn:E; symmetry.
  - apply Qeq_bool_iff in E. apply Qeq_bool_iff. symmetry. exact E.
  - destruct (Qeq_bool y x) eqn:F; [|reflexivity].
    apply Qeq_bool_iff in F. symmetry in F. apply Qeq_bool_iff in F. congruence.
Qed.

Lemma py_eq_sym (a b : json) : py_eq a b = py_eq b a.
Proof.
  destruct a, b; cbn [py_eq as_number]; try reflexivity;
    try apply Qeq_bool_sym; apply str_eqb_sym.
Qed.

Lemma gbind_inl {A B} (m : gres A) (f : A -> gres B) (b : B) :
  gbind m f = inl b -> exists a, m = inl a /\ f a = inl b.
Proof. destruct m as [a|e]; intro H; [exists a; split; [reflexivity|exact H]|discriminate]. Qed.

Lemma subseq_Forall {A} (P : A -> Prop) (l1 l2 : list A) :
  subseq l1 l2 -> Forall P l2 -> Forall P l1.
Proof.
  induction 1 as [|x l1 l2 _ IH|x l1 l2 _ IH]; intro H; [constructor| |];
    inversion H; subst; [constructor; [assumption|apply IH; assumption]|apply IH; assumption].
Qed.

Lemma dedup_loop_spec (posts : list dict) :
  forall seen out, dedup_loop seen posts = inl out ->
  subseq out posts /\
  (forall p, In p posts -> truthy (source_quote p) = false -> In p out) /\
  ForallOrdPairs distinct_quotes out /\
  Forall (fun p => truthy (source_quote p) = true ->
                   unhashable_name (source_quote p) = None /\
                   existsb (py_eq (source_quote p)) seen = false) out /\
  (forall p, In p posts -> truthy (source_quote p) = true ->
     existsb (py_eq (source_quote p)) seen = true \/
     exists q, In q out /\ py_eq (source_quote q) (source_quote p) = true).
Proof.
  induction posts as [|p rest IH]; intros seen out H.
  - injection H as <-. split; [constructor|]. split; [intros _ []|].
    split; [constructor|]. split; [constructor|]. intros _ [].
  - cbn [dedup_loop] in H.
    destruct (truthy (source_quote p)) eqn:Tp.
    + destruct (unhashable_name (source_quote p)) as [n|] eqn:Up; [discriminate|].
      destruct (existsb (py_eq (source_quote p)) seen) eqn:Sp.
      * destruct (IH _ _ H) as [Hs [Hf [Hd [Hn Hc]]]].
        split; [constructor; exact Hs|]. split.
        { intros x [<-|Hx] Tx; [congruence|]. apply Hf; assumption. }
        split; [exact Hd|]. split; [exact Hn|].
        intros x [<-|Hx] Tx; [left; exact Sp|]. apply Hc; assumption.
      * destruct (dedup_loop (source_quote p :: seen) rest) as [u|e] eqn:Hr; [|discriminate].
        cbn [gbind] in H. injection H as <-.
        destruct (IH _ _ Hr) as [Hs [Hf [Hd [Hn Hc]]]].
        split; [constructor; exact Hs|]. split.
        { intros x [<-|Hx] Tx; [congruence|]. right. apply Hf; assumption. }
        split.
        { constructor; [|exact Hd].
          rewrite Forall_forall in Hn |- *. intros q Hq _ Tq.
          destruct (Hn q Hq Tq) as [_ E]. cbn [existsb] in E.
          apply orb_false_iff in E as [E _]. rewrite py_eq_sym. exact E. }
        split.
        { constructor; [intros _; split; assumption|].
          rewrite Forall_forall in Hn |- *. intros q Hq Tq.
          destruct (Hn q Hq Tq) as [U E]. cbn [existsb] in E.
          apply orb_false_iff in E as [_ E]. split; assumption. }
        intros x [<-|Hx] Tx.
        { right. exists p. split; [left; reflexivity|].
          destruct (source_quote p); cbn [py_eq as_number];
            try discriminate; try apply str_eqb_refl; try (apply Qeq_bool_iff; reflexivity);
            destruct b; reflexivity. }
        destruct (Hc x Hx Tx) as [E|[q [Hq E]]].
        -- cbn [existsb] in E. apply orb_true_iff in E as [E|E]; [|left; exact E].
           right. exists p. split; [left; reflexivity|]. rewrite py_eq_sym. exact E.
        -- right. exists q. split; [right; exact Hq|exact E].
    + destruct (dedup_loop seen rest) as [u|e] eqn:Hr; [|discriminate].
      cbn [gbind] in H. injection H as <-.
      destruct (IH _ _ Hr) as [Hs [Hf [Hd [Hn Hc]]]].
      split; [constructor; exact Hs|]. split.
      { intros x [<-|Hx] Tx; [left; reflexivity|]. right. apply Hf; assumption. }
      split.
      { constructor; [|exact Hd]. apply Forall_forall. intros q _ T. congruence. }
      split.
      { constructor; [intro T; congruence|exact Hn]. }
      intros x [<-|Hx] Tx; [congruence|].
      destruct (Hc x Hx Tx) as [E|[q [Hq E]]]; [left; exact E|].
      right. exists q. split; [right; exact Hq|exact E].
Qed.

(** When [deduplicate_posts] succeeds, its result is a sub-sequence of
    its input (order kept); it keeps every post whose [source_quote] is
    missing or falsy; no two kept posts have equal truthy quotes; and each
    dropped post has the quote of a kept one. *)
Theorem deduplicate_posts_spec (posts out : list dict) :
  deduplicate_posts posts = inl out ->
  subseq out posts /\
  (forall p, In p posts -> truthy (source_quote p) = false -> In p out) /\
  ForallOrdPairs distinct_quotes out /\
  (forall p, In p posts -> truthy (source_quote p) = true ->
     exists q, In q out /\ py_eq (source_quote q) (source_quote p) = true).
Proof.
  intro H. destruct (dedup_loop_spec posts [] out H) as [Hs [Hf [Hd [_ Hc]]]].
  split; [exact Hs|]. split; [exact Hf|]. split; [exact Hd|].
  intros p Hp Tp. destruct (Hc p Hp Tp) as [E|E]; [discriminate|exact E].
Qed.

Lemma dedup_loop_fixed (out : list dict) :
  forall seen,
  ForallOrdPairs distinct_quotes out ->
  Forall (fun p => truthy (source_quote p) = true ->
                   unhashable_name (source_quote p) = None /\
                   existsb (py_eq (source_quote p)) seen = false) out ->
  dedup_loop seen out = inl out.
Proof.
  induction out as [|p rest IH]; intros seen Hd Hn; [reflexivity|].
  inversion Hd as [|? ? Hp Hd']; subst. inversion Hn as [|? ? Hn0 Hn']; subst.
  cbn [dedup_loop]. destruct (truthy (source_quote p)) eqn:Tp.
  - destruct (Hn0 eq_refl) as [-> E]. rewrite E.
    rewrite IH; [reflexivity|exact Hd'|].
    rewrite Forall_forall in Hn', Hp |- *. intros q Hq Tq.
    destruct (Hn' q Hq Tq) as [U E']. split; [exact U|].
    cbn [existsb]. rewrite E', orb_false_r, py_eq_sym. exact (Hp q Hq Tp Tq).
  - rewrite IH; [reflexivity|exact Hd'|exact Hn'].
Qed.

(** [deduplicate_posts] is idempotent: applied to its own result it
    returns that result unchanged. *)
Theorem deduplicate_posts_idempotent (posts out : list dict) :
  deduplicate_posts posts = inl out -> deduplicate_posts out = inl out.
Proof.
  intro H. destruct (dedup_loop_spec posts [] out H) as [_ [_ [Hd [Hn _]]]].
  apply dedup_loop_fixed; [exact Hd|].
  rewrite Forall_forall in Hn |- *. intros p Hp Tp. exact (Hn p Hp Tp).
Qed.

Lemma deduplicate_posts_spec_witness :
  deduplicate_posts sample_posts = inl sample_unique /\
  subseq sample_unique sample_posts /\
  (forall p, In p sample_posts -> truthy (source_quote p) = false -> In p sample_unique) /\
  ForallOrdPairs distinct_quotes sample_unique /\
  (forall p, In p sample_posts -> truthy (source_quote p) = true ->
     exists q, In q sample_unique /\ py_eq (source_quote q) (source_quote p) = true).
Proof.
  assert (H : deduplicate_posts sample_posts = inl sample_unique) by (vm_compute; reflexivity).
  split; [exact H|]. exact (deduplicate_posts_spec _ _ H).
Defined.

Lemma deduplicate_posts_idempotent_witness :
  deduplicate_posts sample_posts = inl sample_unique /\
  deduplicate_posts sample_unique = inl sample_unique.
Proof.
  assert (H : deduplicate_posts sample_posts = inl sample_unique) by (vm_compute; reflexivity).
  split; [exact H|]. exact (deduplicate_posts_idempotent _ _ H).
Defined.

(** [deduplicate_posts] fails exactly when some post has a non-empty
    list or dict as [source_quote], and then with the [TypeError] of
    hashing it. *)
Theorem deduplicate_posts_error (posts : list dict) :
  ((exists e, deduplicate_posts posts = inr e) <-> Exists bad_quote posts) /\
  (forall e, deduplicate_posts posts = inr e ->
     exists p n, In p posts /\ truthy (source_quote p) = true /\
                 unhashable_name (source_quote p) = Some n /\ e = TypeError (unhashable_msg n)).
Proof.
  unfold deduplicate_posts. generalize (@nil json) as seen.
  induction posts as [|p rest IH]; intro seen.
  - split; [split; [intros [e H]; discriminate|intro H; inversion H]|].
    intros e H. discriminate.
  - destruct (IH seen) as [IHa IHb]. cbn [dedup_loop].
    destruct (truthy (source_quote p)) eqn:Tp.
    + destruct (unhashable_name (source_quote p)) as [n|] eqn:Up.
      * split.
        { split; [intros _; left; split; [exact Tp|congruence]|intros _; eexists; reflexivity]. }
        intros e H. injection H as <-. exists p, n.
        split; [left; reflexivity|]. split; [exact Tp|]. split; [exact Up|reflexivity].
      * assert (Np : ~ bad_quote p) by (intros [_ U]; contradiction).
        destruct (existsb (py_eq (source_quote p)) seen).
        -- split.
           { rewrite IHa. split; [intro H; right; exact H|].
             intro H; inversion H; subst; [contradiction|assumption]. }
           intros e H. destruct (IHb e H) as [q [m [Hq Rest]]].
           exists q, m. split; [right; exact Hq|exact Rest].
        -- destruct (IH (source_quote p :: seen)) as [IHa' IHb'].
           destruct (dedup_loop (source_quote p :: seen) rest) as [u|e0] eqn:Hr; cbn [gbind].
           ++ split.
              { split; [intros [e H]; discriminate|].
                intro H; inversion H; subst; [contradiction|].
                apply IHa' in H1 as [e He]. discriminate. }
              intros e H. discriminate.
           ++ split.
              { split; [intros _; right; apply IHa'; exists e0; reflexivity|].
                intros _. exists e0. reflexivity. }
              intros e H. injection H as <-. destruct (IHb' e0 eq_refl) as [q [m [Hq Rest]]].
              exists q, m. split; [right; exact Hq|exact Rest].
    + assert (Np : ~ bad_quote p) by (intros [T _]; congruence).
      destruct (dedup_loop seen rest) as [u|e0] eqn:Hr; cbn [gbind].
      * split.
        { split; [intros [e H]; discriminate|].
          intro H; inversion H; subst; [contradiction|].
          apply IHa in H1 as [e He]. discriminate. }
        intros e H. discriminate.
      * split.
        { split; [intros _; right; apply IHa; exists e0; reflexivity|].
          intros _. exists e0. reflexivity. }
        intros e H. injection H as <-. destruct (IHb e0 eq_refl) as [q [m [Hq Rest]]].
        exists q, m. split; [right; exact Hq|exact Rest].
Qed.

(** ** Chunking *)
Lemma chunks_concat (c : str) (m : nat) :
  forall n k, length c <= (k + n) * m ->
  concat (map (fun i => firstn m (skipn i c)) (map (fun j => j * m) (seq k n))) = skipn (k * m) c.
Proof.
  induction n as [|n IH]; intros k H.
  - cbn. symmetry. apply skipn_all2. lia.
  - cbn [seq map concat]. rewrite IH by lia.
    replace (S k * m) with (m + k * m) by lia.
    rewrite <- skipn_skipn. apply firstn_skipn.
Qed.

Lemma ceil_div_bound (n m : nat) : 0 < m -> n <= (n + m - 1) / m * m.
Proof.
  intro Hm. pose proof (Nat.div_mod_eq (n + m - 1) m) as D.
  pose proof (Nat.mod_upper_bound (n + m - 1) m ltac:(lia)) as U. nia.
Qed.

Lemma ceil_div_last (n m j : nat) : 0 < m -> j < (n + m - 1) / m -> j * m < n.
Proof.
  intros Hm Hj. pose proof (Nat.div_mod_eq (n + m - 1) m) as D.
  pose proof (Nat.mod_upper_bound (n + m - 1) m ltac:(lia)) as U.
  assert (j * m + m <= m * ((n + m - 1) / m)) by nia. lia.
Qed.

Lemma text_chunks_spec (m : nat) (context : str) :
  0 < m ->
  concat (text_chunks m context) = context /\
  Forall (fun ch => 0 < length ch <= m) (text_chunks m context).
Proof.
  intro Hm. unfold text_chunks, range_starts. split.
  - rewrite chunks_concat; [reflexivity|]. simpl. apply ceil_div_bound. exact Hm.
  - apply Forall_forall. intros ch Hch.
    apply in_map_iff in Hch as [i [<- Hi]]. apply in_map_iff in Hi as [j [<- Hj]].
    apply in_seq in Hj. pose proof (ceil_div_last (length context) m j Hm ltac:(lia)) as L.
    rewrite length_firstn, length_skipn. lia.
Qed.

(** [generate_posts_from_text] cuts its context into the slices
    [context[i:i + 21816]] (21796 in [LLMManager]): joined they give the
    context back, and each is non-empty and at most that long. *)
Theorem generate_chunks_round_trip (context : str) :
  max_context_chars main_system_prompt_len = 21816 /\
  max_context_chars manager_system_prompt_len = 21796 /\
  concat (text_chunks (max_context_chars main_system_prompt_len) context) = context /\
  Forall (fun ch => 0 < length ch <= max_context_chars main_system_prompt_len)
         (text_chunks (max_context_chars main_system_prompt_len) context) /\
  concat (text_chunks (max_context_chars manager_system_prompt_len) context) = context /\
  Forall (fun ch => 0 < length ch <= max_context_chars manager_system_prompt_len)
         (text_chunks (max_context_chars manager_system_prompt_len) context).
Proof.
  assert (E1 : max_context_chars main_system_prompt_len = 21816) by (apply Nat.eqb_eq; vm_compute; reflexivity).
  assert (E2 : max_context_chars manager_system_prompt_len = 21796) by (apply Nat.eqb_eq; vm_compute; reflexivity).
  assert (P1 : 0 < max_context_chars main_system_prompt_len)
    by (apply Nat.ltb_lt; vm_compute; reflexivity).
  assert (P2 : 0 < max_context_chars manager_system_prompt_len)
    by (apply Nat.ltb_lt; vm_compute; reflexivity).
  destruct (text_chunks_spec _ context P1) as [A1 B1].
  destruct (text_chunks_spec _ context P2) as [A2 B2].
  split; [exact E1|]. split; [exact E2|].
  split; [exact A1|]. split; [exact B1|]. split; [exact A2|exact B2].
Qed.

(** ** The generated posts *)
Lemma parse_posts_valid (data : json) (ps : list dict) :
  parse_posts data = inl ps -> Forall (fun p => valid_post p = true) ps.
Proof.
  unfold parse_posts. intro H. apply gbind_inl in H as [posts [_ H]].
  destruct (dicts_of posts) as [ds|]; [|discriminate]. injection H as <-.
  apply Forall_forall. intros p Hp. apply filter_In in Hp as [_ Hp]. exact Hp.
Qed.

Lemma chunk_posts_valid (ej : str -> option json) (r : str) (ps : list dict) :
  chunk_posts ej r = inl ps -> Forall (fun p => valid_post p = true) ps.
Proof.
  unfold chunk_posts. destruct (ej r); [apply parse_posts_valid|discriminate].
Qed.

Lemma main_chunk_loop_valid (llm : str -> str) (ej : str -> option json) (chunks : list str) :
  forall acc out, Forall (fun p => valid_post p = true) acc ->
  main_chunk_loop llm ej chunks acc = inl out -> Forall (fun p => valid_post p = true) out.
Proof.
  induction chunks as [|ch rest IH]; intros acc out Ha H; cbn [main_chunk_loop] in H.
  - injection H as <-. exact Ha.
  - destruct (chunk_posts ej (llm ch)) as [v|e] eqn:E; [|discriminate].
    apply (IH _ _ (proj2 (Forall_app _ _ _) (conj Ha (chunk_posts_valid _ _ _ E))) H).
Qed.

Lemma manager_chunk_loop_valid (llm : str -> str) (ej : str -> option json) (chunks : list str) :
  forall acc, Forall (fun p => valid_post p = true) acc ->
  Forall (fun p => valid_post p = true) (manager_chunk_loop llm ej chunks acc).
Proof.
  induction chunks as [|ch rest IH]; intros acc Ha; cbn [manager_chunk_loop]; [exact Ha|].
  destruct (chunk_posts ej (llm ch)) as [v|e] eqn:E; apply IH; [|exact Ha].
  apply Forall_app. split; [exact Ha|]. exact (chunk_posts_valid _ _ _ E).
Qed.

(** Every post [main.generate_posts_from_text] returns is a dict with
    the keys "post_text" and "source_quote", and no two of them have equal
    truthy quotes. *)
Theorem main_generate_posts_valid (llm : str -> str) (ej : str -> option json)
        (context : str) (posts : list dict) :
  main_generate_posts_from_text llm ej context = inl posts ->
  Forall (fun p => has_key (lit "post_text") p = true /\ has_key (lit "source_quote") p = true) posts /\
  ForallOrdPairs distinct_quotes posts.
Proof.
  unfold main_generate_posts_from_text.
  destruct (main_chunk_loop _ _ _ []) as [all|e] eqn:E; [|discriminate]. cbn [gbind].
  intro H. destruct (deduplicate_posts_spec _ _ H) as [Hs [_ [Hd _]]].
  split; [|exact Hd].
  apply (main_chunk_loop_valid _ _ _ [] _ (Forall_nil _)) in E.
  apply (subseq_Forall _ _ _ Hs) in E.
  rewrite Forall_forall in E |- *. intros p Hp. apply andb_true_iff. exact (E p Hp).
Qed.

Lemma main_generate_posts_valid_witness :
  main_generate_posts_from_text (fun x => x) two_posts_json (lit "Some text.") =
    inl [post_of (lit "A") (lit "q")] /\
  Forall (fun p => has_key (lit "post_text") p = true /\ has_key (lit "source_quote") p = true)
    [post_of (lit "A") (lit "q")] /\
  ForallOrdPairs distinct_quotes [post_of (lit "A") (lit "q")].
Proof.
  assert (H : main_generate_posts_from_text (fun x => x) two_posts_json (lit "Some text.") =
                inl [post_of (lit "A") (lit "q")]) by (vm_compute; reflexivity).
  split; [exact H|]. exact (main_generate_posts_valid _ _ _ _ H).
Defined.

Lemma main_chunk_loop_first_failure (llm : str -> str) (ej : str -> option json)
      (pre : list str) (ch : str) (post : list str) (e0 : gen_exn) :
  Forall (fun c => exists v, chunk_posts ej (llm c) = inl v) pre ->
  chunk_posts ej (llm ch) = inr e0 ->
  forall acc, main_chunk_loop llm ej (pre ++ ch :: post) acc =
              inr (ValueError (parse_failure e0 (llm ch))).
Proof.
  intros Hpre Hch. induction Hpre as [|c pre [v Hv] _ IH]; intro acc.
  - cbn [app main_chunk_loop]. rewrite Hch. reflexivity.
  - cbn [app main_chunk_loop]. rewrite Hv. apply IH.
Qed.

(** In [main.generate_posts_from_text], the first chunk whose LLM
    output cannot be parsed makes the whole call raise [ValueError]
    "Failed to parse LLM output: <reason>. Raw output: <output>"; the posts
    of the earlier chunks are lost. *)
Theorem main_generate_posts_first_failure (llm : str -> str) (ej : str -> option json)
        (context : str) (pre : list str) (ch : str) (post : list str) (e0 : gen_exn) :
  text_chunks (max_context_chars main_system_prompt_len) context = pre ++ ch :: post ->
  Forall (fun c => exists v, chunk_posts ej (llm c) = inl v) pre ->
  chunk_posts ej (llm ch) = inr e0 ->
  main_generate_posts_from_text llm ej context = inr (ValueError (parse_failure e0 (llm ch))).
Proof.
  intros Hc Hpre Hch. unfold main_generate_posts_from_text. rewrite Hc.
  rewrite (main_chunk_loop_first_failure _ _ _ _ _ _ Hpre Hch). reflexivity.
Qed.

Lemma main_generate_posts_first_failure_witness :
  text_chunks (max_context_chars main_system_prompt_len) (lit "Some text.") =
    [] ++ lit "Some text." :: [] /\
  Forall (fun c => exists v, chunk_posts no_json ((fun x : str => x) c) = inl v) [] /\
  chunk_posts no_json (lit "Some text.") = inr (ValueError msg_no_json) /\
  main_generate_posts_from_text (fun x => x) no_json (lit "Some text.") =
    inr (ValueError (parse_failure (ValueError msg_no_json) (lit "Some text."))).
Proof.
  assert (H1 : text_chunks (max_context_chars main_system_prompt_len) (lit "Some text.") =
                 [] ++ lit "Some text." :: []) by (vm_compute; reflexivity).
  assert (H2 : Forall (fun c => exists v, chunk_posts no_json ((fun x : str => x) c) = inl v) [])
    by constructor.
  assert (H3 : chunk_posts no_json (lit "Some text.") = inr (ValueError msg_no_json))
    by reflexivity.
  split; [exact H1|]. split; [exact H2|]. split; [exact H3|].
  exact (main_generate_posts_first_failure (fun x => x) no_json _ _ _ _ _ H1 H2 H3).
Defined.

(** With the model answering every chunk,
    [LLMManager.generate_posts_from_text] never raises because of an
    unparseable LLM output (it skips that chunk): it fails only with the
    [TypeError] of [deduplicate_posts], and every post it returns has the
    keys "post_text" and "source_quote", with no two equal truthy quotes. *)
Theorem manager_generate_posts_valid (llm : str -> str) (ej : str -> option json)
        (context : str) :
  match manager_generate_posts_from_text llm ej context with
  | inl posts =>
      Forall (fun p => has_key (lit "post_text") p = true /\
                       has_key (lit "source_quote") p = true) posts /\
      ForallOrdPairs distinct_quotes posts
  | inr e => exists msg, e = TypeError msg
  end.
Proof.
  unfold manager_generate_posts_from_text.
  pose proof (manager_chunk_loop_valid llm ej
                (text_chunks (max_context_chars manager_system_prompt_len) context) []
                (Forall_nil _)) as V.
  destruct (deduplicate_posts _) as [posts|e] eqn:E.
  - destruct (deduplicate_posts_spec _ _ E) as [Hs [_ [Hd _]]].
    split; [|exact Hd].
    apply (subseq_Forall _ _ _ Hs) in V.
    rewrite Forall_forall in V |- *. intros p Hp. apply andb_true_iff. exact (V p Hp).
  - destruct (proj2 (deduplicate_posts_error _) e E) as [p [n [_ [_ [_ ->]]]]].
    eexists. reflexivity.
Qed.

(** ** Content processing *)
(** [process_content] never returns newly generated posts: it returns
    the posts already stored for the job (when they or media files of the
    job exist), or no posts for an input type other than "youtube",
    "pdf" and "text"; for those three types, with no stored posts and no
    media files, it
    always raises, with the [TypeError] of the call to
    [LLMManager.generate_posts_from_text] once the models load and the
    processor returns a text (non-blank for a video). *)
Theorem process_content_no_new_posts (env : content_env) (input_type : str) :
  (forall posts, process_content env input_type = inl posts ->
     (existing_posts env = Some posts /\ (posts <> [] \/ existing_media env = true)) \/
     (posts = [] /\ ~ In input_type [lit "youtube"; lit "pdf"; lit "text"])) /\
  (existing_posts env = Some [] -> existing_media env = false ->
   In input_type [lit "youtube"; lit "pdf"; lit "text"] ->
   (exists e, process_content env input_type = inr e) /\
   (llm_loads env = true -> whisper_loads env = true ->
    (input_type = lit "youtube" ->
       forall t, youtube_transcript env = Some t -> strip t <> [] ->
       process_content env input_type = inr generate_call_error) /\
    (input_type = lit "pdf" -> pdf_text env <> None ->
       process_content env input_type = inr generate_call_error) /\
    (input_type = lit "text" -> text_contents env <> None ->
       process_content env input_type = inr generate_call_error))).
Proof.
  unfold process_content. split.
  - intros posts H.
    destruct (existing_posts env) as [stored|] eqn:Ep; [|discriminate].
    destruct stored as [|p ps].
    + destruct (existing_media env) eqn:Em.
      * injection H as <-. left. split; [reflexivity|right; reflexivity].
      * destruct (llm_loads env); [|discriminate]. destruct (whisper_loads env); [|discriminate].
        cbn [negb] in H.
        destruct (str_eqb input_type (lit "youtube")) eqn:Y.
        { destruct (youtube_transcript env); [destruct (strip _)|]; discriminate. }
        destruct (str_eqb input_type (lit "pdf")) eqn:P.
        { destruct (pdf_text env); discriminate. }
        destruct (str_eqb input_type (lit "text")) eqn:T.
        { destruct (text_contents env); discriminate. }
        injection H as <-. right. split; [reflexivity|].
        intros [<-|[<-|[<-|[]]]]; [rewrite str_eqb_refl in Y|rewrite str_eqb_refl in P|
                                   rewrite str_eqb_refl in T]; discriminate.
    + injection H as <-. left. split; [reflexivity|left; discriminate].
  - intros Ep Em Hin. rewrite Ep, Em.
    assert (Cases : (input_type = lit "youtube" /\ str_eqb input_type (lit "youtube") = true) \/
                    (input_type = lit "pdf" /\ str_eqb input_type (lit "youtube") = false /\
                     str_eqb input_type (lit "pdf") = true) \/
                    (input_type = lit "text" /\ str_eqb input_type (lit "youtube") = false /\
                     str_eqb input_type (lit "pdf") = false /\
                     str_eqb input_type (lit "text") = true)).
    { destruct Hin as [<-|[<-|[<-|[]]]]; [left|right; left|right; right];
        repeat split; reflexivity. }
    split.
    + destruct (llm_loads env); [|eexists; reflexivity].
      destruct (whisper_loads env); [|eexists; reflexivity]. cbn [negb].
      destruct Cases as [[_ Y]|[[_ [Y P]]|[_ [Y [P T]]]]]; rewrite ?Y, ?P, ?T.
      * destruct (youtube_transcript env); [destruct (strip _)|]; eexists; reflexivity.
      * destruct (pdf_text env); eexists; reflexivity.
      * destruct (text_contents env); eexists; reflexivity.
    + intros -> ->. cbn [negb].
      split; [|split].
      * intros -> t Ht Hs. rewrite str_eqb_refl, Ht. destruct (strip t); [contradiction|reflexivity].
      * intros -> Hp. change (str_eqb (lit "pdf") (lit "youtube")) with false.
        rewrite str_eqb_refl. destruct (pdf_text env); [reflexivity|contradiction].
      * intros -> Ht. change (str_eqb (lit "text") (lit "youtube")) with false.
        change (str_eqb (lit "text") (lit "pdf")) with false.
        rewrite str_eqb_refl. destruct (text_contents env); [reflexivity|contradiction].
Qed.

Lemma process_content_no_new_posts_witness :
  existing_posts new_video_env = Some [] /\ existing_media new_video_env = false /\
  In (lit "youtube") [lit "youtube"; lit "pdf"; lit "text"] /\
  llm_loads new_video_env = true /\ whisper_loads new_video_env = true /\
  youtube_transcript new_video_env = Some (lit "Hello there.") /\ strip (lit "Hello there.") <> [] /\
  process_content new_video_env (lit "youtube") = inr generate_call_error.
Proof.
  assert (E1 : existing_posts new_video_env = Some []) by reflexivity.
  assert (E2 : existing_media new_video_env = false) by reflexivity.
  assert (E3 : In (lit "youtube") [lit "youtube"; lit "pdf"; lit "text"]) by (left; reflexivity).
  assert (E4 : llm_loads new_video_env = true) by reflexivity.
  assert (E5 : whisper_loads new_video_env = true) by reflexivity.
  assert (E6 : youtube_transcript new_video_env = Some (lit "Hello there.")) by reflexivity.
  assert (E7 : strip (lit "Hello there.") <> []) by (vm_compute; discriminate).
  do 7 (split; [assumption|]).
  exact (proj1 (proj2 (proj2 (process_content_no_new_posts new_video_env (lit "youtube")) E1 E2 E3)
                 E4 E5) eq_refl _ E6 E7).
Defined.

(** ** Model caching *)
Lemma load_llm_hit (construct_ok : str -> bool) (env : option str) (st : llm_state)
      (backend : option str) (m : llm) :
  st_llm st = Some m -> st_backend st = Some (effective_backend backend env) ->
  load_llm construct_ok env st backend = (st, inl m).
Proof. intros Hm Hb. unfold load_llm. rewrite Hm, Hb, str_eqb_refl. reflexivity. Qed.

Lemma load_llm_ok_state (construct_ok : str -> bool) (env : option str) (st st1 : llm_state)
      (backend : option str) (m : llm) :
  load_llm construct_ok env st backend = (st1, inl m) ->
  st_llm st1 = Some m /\ st_backend st1 = Some (effective_backend backend env).
Proof.
  unfold load_llm. set (b := effective_backend backend env).
  destruct (st_llm st) as [m0|] eqn:El; [destruct (st_backend st) as [cur|] eqn:Eb|];
    [destruct (str_eqb b cur) eqn:Ec| |].
  - intro H. injection H as <- <-. apply str_eqb_eq in Ec. rewrite El, Eb, Ec. split; reflexivity.
  - destruct (construct_ok b); intro H; [injection H as <- <-; split; reflexivity|discriminate].
  - destruct (construct_ok b); intro H; [injection H as <- <-; split; reflexivity|discriminate].
  - destruct (construct_ok b); intro H; [injection H as <- <-; split; reflexivity|discriminate].
Qed.

Lemma load_llm_err_state (construct_ok : str -> bool) (env : option str) (st st1 : llm_state)
      (backend : option str) (e : gen_exn) :
  load_llm construct_ok env st backend = (st1, inr e) ->
  st_llm st1 = st_llm st /\ st_backend st1 = Some (effective_backend backend env).
Proof.
  unfold load_llm. set (b := effective_backend backend env).
  destruct (st_llm st) as [m0|] eqn:El; [destruct (st_backend st) as [cur|] eqn:Eb|];
    [destruct (str_eqb b cur) eqn:Ec| |]; [discriminate| | |];
    (destruct (construct_ok b); intro H; [discriminate|injection H as <- _; split; reflexivity]).
Qed.

(** Once [load_llm] has returned a model, calling it again with the
    same backend argument (and the same environment) returns the same
    model without constructing a new one. *)
Theorem load_llm_cached (construct_ok : str -> bool) (env : option str) (st st1 : llm_state)
        (backend : option str) (m : llm) :
  load_llm construct_ok env st backend = (st1, inl m) ->
  load_llm construct_ok env st1 backend = (st1, inl m).
Proof.
  intro H. destruct (load_llm_ok_state _ _ _ _ _ _ H) as [Hm Hb].
  apply load_llm_hit; assumption.
Qed.

Lemma load_llm_cached_witness :
  load_llm no_gemini None (mkllmstate None None 0) (Some (lit "phi")) =
    (phi_loaded, inl (mkllm LlamaModel 0)) /\
  load_llm no_gemini None phi_loaded (Some (lit "phi")) = (phi_loaded, inl (mkllm LlamaModel 0)).
Proof.
  assert (H : load_llm no_gemini None (mkllmstate None None 0) (Some (lit "phi")) =
                (phi_loaded, inl (mkllm LlamaModel 0))) by (vm_compute; reflexivity).
  split; [exact H|]. exact (load_llm_cached _ _ _ _ _ _ H).
Defined.

(** A failed switch of backend still records the new backend: if a
    model [m] is loaded and constructing the model of another backend
    fails, the next call with that backend returns [m], the model of the
    old backend, without constructing anything. *)
Theorem load_llm_failed_switch (construct_ok : str -> bool) (env : option str)
        (st st1 : llm_state) (backend : option str) (m : llm) (e : gen_exn) :
  st_llm st = Some m ->
  load_llm construct_ok env st backend = (st1, inr e) ->
  st_llm st1 = Some m /\
  load_llm construct_ok env st1 backend = (st1, inl m).
Proof.
  intros Hm H. destruct (load_llm_err_state _ _ _ _ _ _ H) as [Hm1 Hb1].
  rewrite Hm in Hm1. split; [exact Hm1|]. apply load_llm_hit; assumption.
Qed.

Lemma load_llm_failed_switch_witness :
  st_llm phi_loaded = Some (mkllm LlamaModel 0) /\
  load_llm no_gemini None phi_loaded (Some (lit "gemini")) =
    (mkllmstate (Some (mkllm LlamaModel 0)) (Some (lit "gemini")) 1, inr ExternalError) /\
  st_llm (mkllmstate (Some (mkllm LlamaModel 0)) (Some (lit "gemini")) 1) =
    Some (mkllm LlamaModel 0) /\
  load_llm no_gemini None (mkllmstate (Some (mkllm LlamaModel 0)) (Some (lit "gemini")) 1)
           (Some (lit "gemini")) =
    (mkllmstate (Some (mkllm LlamaModel 0)) (Some (lit "gemini")) 1, inl (mkllm LlamaModel 0)).
Proof.
  assert (H0 : st_llm phi_loaded = Some (mkllm LlamaModel 0)) by reflexivity.
  assert (H : load_llm no_gemini None phi_loaded (Some (lit "gemini")) =
    (mkllmstate (Some (mkllm LlamaModel 0)) (Some (lit "gemini")) 1, inr ExternalError))
    by (vm_compute; reflexivity).
  split; [exact H0|]. split; [exact H|].
  exact (load_llm_failed_switch _ _ _ _ _ _ _ H0 H).
Defined.

(** ** Proofs *)
Lemma id_after_app (id rest : str) :
  valid_id id = true -> id_follow_ok rest = true -> id_after (id ++ rest) = Some id.
Proof.
  unfold valid_id, id_after. intros Hv Hf.
  apply andb_true_iff in Hv as [Hc Hl]. apply Nat.eqb_eq in Hl.
  assert (F : forall l, firstn (length l) (l ++ rest) = l)
    by (induction l as [|x l IHl]; [reflexivity|cbn; rewrite IHl; reflexivity]).
  assert (S : forall l, skipn (length l) (l ++ rest) = rest)
    by (induction l as [|x l IHl]; [reflexivity|exact IHl]).
  rewrite <- Hl, F, S, Hc, Hf, Nat.eqb_refl. reflexivity.
Qed.

Lemma id_after_sound (t id : str) :
  id_after t = Some id ->
  valid_id id = true /\ exists rest, t = id ++ rest /\ id_follow_ok rest = true.
Proof.
  unfold id_after, valid_id.
  destruct (forallb is_id_char (firstn 11 t) && (length (firstn 11 t) =? 11)
            && id_follow_ok (skipn 11 t)) eqn:E; [|discriminate].
  intro H. injection H as <-.
  apply andb_true_iff in E as [E Hf]. split; [exact E|].
  exists (skipn 11 t). split; [exact (eq_sym (firstn_skipn 11 t))|exact Hf].
Qed.

Lemma find_video_id_skip (c : ascii) (s : str) :
  id_match_at (c :: s) = None -> find_video_id (c :: s) = find_video_id s.
Proof. intro H. cbn [find_video_id]. rewrite H. reflexivity. Qed.

Lemma find_video_id_hit (c : ascii) (s id : str) :
  id_match_at (c :: s) = Some id -> find_video_id (c :: s) = Some id.
Proof. intro H. cbn [find_video_id]. rewrite H. reflexivity. Qed.

(** Every id [find_video_id] returns is a valid video id that appears in
    the URL right after "v=" or "/", followed by the end of the URL (or a
    final newline), "?" or "&". *)
Theorem find_video_id_sound (url id : str) :
  find_video_id url = Some id ->
  valid_id id = true /\
  exists pre marker rest,
    (marker = lit "v=" \/ marker = lit "/") /\
    url = pre ++ marker ++ id ++ rest /\ id_follow_ok rest = true.
Proof.
  induction url as [|c url IH]; [discriminate|].
  cbn [find_video_id]. destruct (id_match_at (c :: url)) as [id0|] eqn:E.
  - intro H. injection H as <-.
    assert (M : exists marker t, (marker = lit "v=" \/ marker = lit "/") /\
                                 c :: url = marker ++ t /\ id_after t = Some id0).
    { unfold id_match_at in E.
      destruct c as [[] [] [] [] [] [] [] []]; try discriminate;
        try (exists (lit "/"), url; split; [right; reflexivity|split; [reflexivity|exact E]]);
        (destruct url as [|d url]; [discriminate|]);
        destruct d as [[] [] [] [] [] [] [] []]; try discriminate;
        exists (lit "v="), url; split; [left; reflexivity|split; [reflexivity|exact E]]. }
    destruct M as [marker [t [Hm [Eu Ht]]]].
    destruct (id_after_sound _ _ Ht) as [Hv [rest [Et Hf]]].
    split; [exact Hv|]. exists [], marker, rest.
    split; [exact Hm|]. split; [rewrite Eu, Et; reflexivity|exact Hf].
  - intro H. destruct (IH H) as [Hv [pre [marker [rest [Hm [Eu Hf]]]]]].
    split; [exact Hv|]. exists (c :: pre), marker, rest.
    split; [exact Hm|]. split; [rewrite Eu; reflexivity|exact Hf].
Qed.

(** [find_video_id] takes the id out of the two usual link forms,
    "https://www.youtube.com/watch?v=<id>" and "https://youtu.be/<id>",
    whatever follows the id among nothing, a query ("?..." or "&...") or a
    final newline. *)
Theorem find_video_id_links (id rest : str) :
  valid_id id = true -> id_follow_ok rest = true ->
  find_video_id (lit "https://www.youtube.com/watch?v=" ++ id ++ rest) = Some id /\
  find_video_id (lit "https://youtu.be/" ++ id ++ rest) = Some id.
Proof.
  intros Hv Hf. pose proof (id_after_app id rest Hv Hf) as Hid.
  split; cbn [lit String.list_ascii_of_string app];
    (repeat (rewrite find_video_id_skip; [|reflexivity]));
    (rewrite (find_video_id_hit _ _ id); [reflexivity|exact Hid]).
Qed.

Lemma find_video_id_links_witness :
  valid_id (lit "dQw4w9WgXcQ") = true /\ id_follow_ok (lit "&t=42s") = true /\
  find_video_id (lit "https://www.youtube.com/watch?v=" ++ lit "dQw4w9WgXcQ" ++ lit "&t=42s") =
    Some (lit "dQw4w9WgXcQ") /\
  find_video_id (lit "https://youtu.be/" ++ lit "dQw4w9WgXcQ" ++ lit "&t=42s") =
    Some (lit "dQw4w9WgXcQ").
Proof.
  assert (H1 : valid_id (lit "dQw4w9WgXcQ") = true) by (vm_compute; reflexivity).
  assert (H2 : id_follow_ok (lit "&t=42s") = true) by (vm_compute; reflexivity).
  split; [exact H1|]. split; [exact H2|].
  exact (find_video_id_links _ _ H1 H2).
Defined.

Lemma find_video_id_sound_witness :
  find_video_id (lit "https://youtu.be/dQw4w9WgXcQ") = Some (lit "dQw4w9WgXcQ") /\
  valid_id (lit "dQw4w9WgXcQ") = true /\
  exists pre marker rest,
    (marker = lit "v=" \/ marker = lit "/") /\
    lit "https://youtu.be/dQw4w9WgXcQ" = pre ++ marker ++ lit "dQw4w9WgXcQ" ++ rest /\
    id_follow_ok rest = true.
Proof.
  assert (H : find_video_id (lit "https://youtu.be/dQw4w9WgXcQ") = Some (lit "dQw4w9WgXcQ"))
    by (vm_compute; reflexivity).
  split; [exact H|]. exact (find_video_id_sound _ _ H).
Defined.
